(** * GaussianLib: fixed-size matrices and 3D vectors

    A shallow embedding of [include/Gauss/Matrix.h] and
    [include/Gauss/Vector3.h].

    - The scalar type [T] of the templates is a type with the arithmetic the
      headers use ([T(0)], [T(1)], [+], [-], [*], [/]): class [Scalar].
    - A [Matrix<T, Rows, Cols>] is its member array [m_], a [list T] that holds
      [Rows * Cols] scalars; the template arguments [Rows] and [Cols] are
      explicit arguments of every operation.
    - The macro [GS_ROW_MAJOR_STORAGE] is the build option [Layout]; the macro
      [GS_DISABLE_AUTO_INIT] is the build option [auto_init].
    - [GS_ASSERT] and every access to [m_] are fallible: an operation returns
      [None] when an assertion fails or an index falls outside the array.
    - [std::size_t] counters are [nat]: every index the loops compute is below
      [Rows * Cols], the length of an array that exists.
    - A loop [for (i = lo; i < hi; ++i)] is [for_range lo hi]; a loop with
      another condition is [for_cond], which carries a bound on the number of
      its iterations.
    - Parameters are [const] references. A matrix or vector operand that is
      the receiver itself is the receiver's value: the element-wise members
      read element [i] of the operand before they write element [i]. The
      scalar of [operator *= (const T&)] and [operator /= (const T&)] is read
      again after elements have been written, so it is a [ScalarRef]: a
      value outside the receiver or one of the receiver's own elements. The
      values of an initializer chain are values outside the matrix. *)

From stdpp Require Import base option list.
From Stdlib Require Import ZArith.

(** ** Scalar policy *)

Class Scalar (T : Type) := {
  zero : T;                 (* T(0) *)
  one : T;                  (* T(1) *)
  add : T → T → T;          (* a + b,  a += b *)
  sub : T → T → T;          (* a - b,  a -= b *)
  mul : T → T → T;          (* a * b,  a *= b *)
  div : T → T → T           (* a / b,  a /= b *)
}.

(** The laws of an exact scalar type that the identity matrix relies on. They
    hold for the integer types and fail for IEEE floating point. *)
Class ExactScalar (T : Type) `{Scalar T} : Prop := {
  add_zero_l : ∀ x : T, add zero x = x;
  add_zero_r : ∀ x : T, add x zero = x;
  mul_zero_l : ∀ x : T, mul zero x = zero;
  mul_zero_r : ∀ x : T, mul x zero = zero;
  mul_one_l : ∀ x : T, mul one x = x;
  mul_one_r : ∀ x : T, mul x one = x
}.

(** The semiring laws of an exact scalar type, which let sums of products be
    regrouped. *)
Class SemiringScalar (T : Type) `{Scalar T} : Prop := {
  scalar_add_assoc : ∀ x y z : T, add x (add y z) = add (add x y) z;
  scalar_add_comm : ∀ x y : T, add x y = add y x;
  scalar_add_zero : ∀ x : T, add zero x = x;
  scalar_mul_assoc : ∀ x y z : T, mul x (mul y z) = mul (mul x y) z;
  scalar_mul_add_l : ∀ x y z : T, mul x (add y z) = add (mul x y) (mul x z);
  scalar_mul_add_r : ∀ x y z : T, mul (add x y) z = add (mul x z) (mul y z);
  scalar_mul_zero_l : ∀ x : T, mul zero x = zero;
  scalar_mul_zero_r : ∀ x : T, mul x zero = zero
}.

(** A scalar type whose product commutes. *)
Class CommutativeScalar (T : Type) `{Scalar T} : Prop := {
  scalar_mul_comm : ∀ x y : T, mul x y = mul y x
}.

(** [int] away from overflow: mathematical integers, [/] truncates. *)
#[export] Instance Z_Scalar : Scalar Z := {|
  zero := 0%Z; one := 1%Z;
  add := Z.add; sub := Z.sub; mul := Z.mul; div := Z.quot
|}.

(** ** Build options *)

(** [RowMajor] when [GS_ROW_MAJOR_STORAGE] is defined, [ColumnMajor] (the
    default) otherwise. *)
Inductive Layout := RowMajor | ColumnMajor.

(** ** Control flow *)

(** [GS_ASSERT(cond)] *)
Definition GS_ASSERT (cond : bool) : option unit :=
  if cond then Some () else None.

(** [for_count n i body]: [n] iterations of [body], counter starting at [i]. *)
Fixpoint for_count {St : Type} (n i : nat)
    (body : nat → St → option St) (s : St) : option St :=
  match n with
  | 0 => Some s
  | S n' => s' ← body i s; for_count n' (S i) body s'
  end.

(** [for (std::size_t i = lo; i < hi; ++i) body] *)
Definition for_range {St : Type} (lo hi : nat)
    (body : nat → St → option St) (s : St) : option St :=
  for_count (hi - lo) lo body s.

(** [for (std::size_t i = first; cond(i); ++i) body], for a loop that makes at
    most [fuel] iterations; [None] if it would make more. *)
Fixpoint for_cond {St : Type} (fuel first : nat) (cond : nat → bool)
    (body : nat → St → option St) (s : St) : option St :=
  match fuel with
  | 0 => if cond first then None else Some s
  | S fuel' =>
      if cond first
      then s' ← body first s; for_cond fuel' (S first) cond body s'
      else Some s
  end.

(** ** Matrix.h *)

Module Matrix.

(** What a [const T&] parameter of a member function refers to: an object
    outside the receiver's array, which keeps its [value] while the member
    runs, or the element [m_[element]] of the receiver itself (as in
    [m *= m(0, 1)], where [operator ()] returns a reference into [m_]), which
    the member may overwrite while it still reads the parameter. *)
Inductive ScalarRef (T : Type) : Type :=
| Elsewhere (value : T)
| Within (element : nat).

Arguments Elsewhere {T} value.
Arguments Within {T} element.

Section Members.
Context {T : Type} `{Scalar T}.

(** Build options of the translation unit. *)
Variable lay : Layout.
Variable auto_init : bool.   (* false when GS_DISABLE_AUTO_INIT is defined *)

(** What the storage of a fresh object of [n] scalars holds before anything
    is written to it. *)
Variable indeterminate : nat → list T.

Abbreviation Mat := (list T).

(** [static const std::size_t elements = Rows*Cols] *)
Definition elements (Rows Cols : nat) : nat := Rows * Cols.

(** Raw array access [m_[i]], as an rvalue and as the target of [=]. *)
Definition load (m : Mat) (i : nat) : option T := m !! i.

Definition store (m : Mat) (i : nat) (v : T) : option Mat :=
  if i <? length m then Some (<[i := v]> m) else None.

(** [__GS_FOREACH_ROW_COL__(r, c)] *)
Definition FOREACH_ROW_COL {St : Type} (Rows Cols : nat)
    (body : nat → nat → St → option St) : St → option St :=
  match lay with
  | RowMajor =>
      for_range 0 Rows (λ r, for_range 0 Cols (λ c, body r c))
  | ColumnMajor =>
      for_range 0 Cols (λ c, for_range 0 Rows (λ r, body r c))
  end.

(** [operator () (row, col)]: the element of [m_] the returned reference
    designates. *)
Definition operator_call_ref (Rows Cols row col : nat) : option nat :=
  GS_ASSERT (row <? Rows);;
  GS_ASSERT (col <? Cols);;
  match lay with
  | RowMajor => Some (row * Cols + col)
  | ColumnMajor => Some (col * Rows + row)
  end.

(** [m(row, col)] read. *)
Definition operator_call (Rows Cols : nat) (m : Mat) (row col : nat)
    : option T :=
  i ← operator_call_ref Rows Cols row col; load m i.

(** [m(row, col) = v] *)
Definition operator_call_assign (Rows Cols : nat) (m : Mat)
    (row col : nat) (v : T) : option Mat :=
  i ← operator_call_ref Rows Cols row col; store m i v.

(** [m[element]] read and [m[element] = v]. *)
Definition operator_index (Rows Cols : nat) (m : Mat) (element : nat)
    : option T :=
  GS_ASSERT (element <? elements Rows Cols);; load m element.

Definition operator_index_assign (Rows Cols : nat) (m : Mat)
    (element : nat) (v : T) : option Mat :=
  GS_ASSERT (element <? elements Rows Cols);; store m element v.

(** [operator +=], [operator -=] *)
Definition operator_add_assign (Rows Cols : nat) (this rhs : Mat)
    : option Mat :=
  for_range 0 (elements Rows Cols) (λ i m,
    a ← load m i; b ← load rhs i; store m i (add a b)) this.

Definition operator_sub_assign (Rows Cols : nat) (this rhs : Mat)
    : option Mat :=
  for_range 0 (elements Rows Cols) (λ i m,
    a ← load m i; b ← load rhs i; store m i (sub a b)) this.

(** Reading a [const T&] parameter while the receiver's array is [m]. *)
Definition deref (m : Mat) (ref : ScalarRef T) : option T :=
  match ref with
  | Elsewhere value => Some value
  | Within element => load m element
  end.

(** [operator *= (const T& rhs)]: [m_[i] *= rhs] reads [rhs] anew in every
    iteration. *)
Definition operator_mul_assign_scalar (Rows Cols : nat) (this : Mat)
    (rhs : ScalarRef T) : option Mat :=
  for_range 0 (elements Rows Cols) (λ i m,
    a ← load m i; k ← deref m rhs; store m i (mul a k)) this.

(** [operator =] *)
Definition operator_assign (Rows Cols : nat) (this rhs : Mat)
    : option Mat :=
  for_range 0 (elements Rows Cols) (λ i m,
    b ← load rhs i; store m i b) this.

(** [Reset()] *)
Definition Reset (Rows Cols : nat) (this : Mat) : option Mat :=
  for_range 0 (elements Rows Cols) (λ i m, store m i zero) this.

(** [Matrix()] *)
Definition Matrix_default (Rows Cols : nat) : option Mat :=
  if auto_init then Reset Rows Cols (indeterminate (elements Rows Cols))
  else Some (indeterminate (elements Rows Cols)).

(** [Matrix(const ThisType& rhs)] *)
Definition Matrix_copy (Rows Cols : nat) (rhs : Mat) : option Mat :=
  operator_assign Rows Cols (indeterminate (elements Rows Cols)) rhs.

(** [Matrix(UninitializeTag)] *)
Definition Matrix_uninitialized (Rows Cols : nat) : Mat :=
  indeterminate (elements Rows Cols).

(** [LoadIdentity()]; [N] is [Rows] and [Cols], equal by the static
    assertion. *)
Definition LoadIdentity (N : nat) (this : Mat) : option Mat :=
  FOREACH_ROW_COL N N (λ r c m,
    operator_call_assign N N m r c (if r =? c then one else zero)) this.

(** [static Identity()] *)
Definition Identity (N : nat) : option Mat :=
  result ← Matrix_default N N;
  LoadIdentity N result.

(** [Transposed()]: the result is a [Matrix<T, Cols, Rows>]. *)
Definition Transposed (Rows Cols : nat) (this : Mat) : option Mat :=
  result ← Matrix_default Cols Rows;
  FOREACH_ROW_COL Rows Cols (λ r c result,
    v ← operator_call Rows Cols this r c;
    operator_call_assign Cols Rows result c r v) result.

(** [std::swap(m_[a], m_[b])] *)
Definition swap (m : Mat) (a b : nat) : option Mat :=
  x ← load m a; y ← load m b;
  m' ← store m a y; store m' b x.

(** The two loops of [Transpose()], with the action on each pair of array
    positions left open. Neither loop makes [Cols] iterations or more. *)
Definition Transpose_loops {St : Type} (Cols : nat)
    (action : nat → nat → St → option St) : St → option St :=
  for_cond Cols 0 (λ i, i + 1 <? Cols) (λ i,
    for_cond Cols 1 (λ j, j + i <? Cols) (λ j,
      action (i * (Cols + 1) + j) ((j + i) * Cols + i))).

(** [Transpose()]; [Cols] is also [Rows]. *)
Definition Transpose (Cols : nat) (this : Mat) : option Mat :=
  Transpose_loops Cols (λ a b m, swap m a b) this.

(** The pairs of array positions [Transpose()] hands to [std::swap], in
    order. *)
Definition Transpose_swaps (Cols : nat) : option (list (nat * nat)) :=
  Transpose_loops Cols (λ a b log, Some (log ++ [(a, b)])) [].

(** [Trace()] *)
Definition Trace (N : nat) (this : Mat) : option T :=
  for_range 0 N (λ i trace,
    v ← operator_call N N this i i; Some (add trace v)) zero.

(** [operator * (const Matrix<T, Rows, ColsRows>&,
                 const Matrix<T, ColsRows, Cols>&)] *)
Definition operator_mul (Rows ColsRows Cols : nat) (lhs rhs : Mat)
    : option Mat :=
  for_range 0 Rows (λ r,
    for_range 0 Cols (λ c result,
      result ← operator_call_assign Rows Cols result r c zero;
      for_range 0 ColsRows (λ i result,
        a ← operator_call Rows ColsRows lhs r i;
        b ← operator_call ColsRows Cols rhs i c;
        acc ← operator_call Rows Cols result r c;
        operator_call_assign Rows Cols result r c (add acc (mul a b)))
        result))
    (Matrix_uninitialized Rows Cols).

(** [operator *= (const ThisType& rhs)]: the product of [*this] and [rhs]
    is assigned to [*this]. *)
Definition operator_mul_assign (N : nat) (this rhs : Mat)
    : option Mat :=
  product ← operator_mul N N N this rhs;
  operator_assign N N this product.

(** [operator +], [operator -], [operator * (matrix, scalar)],
    [operator * (scalar, matrix)]: [auto result = lhs] copy-constructs. *)
Definition operator_add (Rows Cols : nat) (lhs rhs : Mat)
    : option Mat :=
  result ← Matrix_copy Rows Cols lhs;
  operator_add_assign Rows Cols result rhs.

Definition operator_sub (Rows Cols : nat) (lhs rhs : Mat)
    : option Mat :=
  result ← Matrix_copy Rows Cols lhs;
  operator_sub_assign Rows Cols result rhs.

(** In the two products with a scalar the receiver of [*=] is the local
    [result], a fresh object: whatever the scalar parameter refers to lies
    outside it and keeps its value. *)
Definition operator_mul_scalar (Rows Cols : nat) (lhs : Mat) (rhs : T)
    : option Mat :=
  result ← Matrix_copy Rows Cols lhs;
  operator_mul_assign_scalar Rows Cols result (Elsewhere rhs).

Definition operator_scalar_mul (Rows Cols : nat) (lhs : T) (rhs : Mat)
    : option Mat :=
  result ← Matrix_copy Rows Cols rhs;
  operator_mul_assign_scalar Rows Cols result (Elsewhere lhs).

(** *** The initializer chain *)

(** [class Initializer]: [matrix_] is a reference, so the state of a chain
    is the referenced matrix together with the cursor [element_]. *)
Record Initializer := {
  matrix_ : Mat;
  element_ : nat
}.

(** [Initializer::operator , (const T& nextValue)] *)
Definition operator_comma (Rows Cols : nat) (this : Initializer)
    (nextValue : T) : option Initializer :=
  m ← operator_call_assign Rows Cols (matrix_ this)
        (element_ this / Cols) (element_ this mod Cols) nextValue;
  Some {| matrix_ := m; element_ := S (element_ this) |}.

(** [operator << (matrix, firstValue)]; [firstValue] is taken after
    [static_cast<T>]. *)
Definition operator_shl (Rows Cols : nat) (matrix : Mat) (firstValue : T)
    : option Initializer :=
  operator_comma Rows Cols {| matrix_ := matrix; element_ := 0 |} firstValue.

(** [ini, v0, v1, ...] *)
Fixpoint commas (Rows Cols : nat) (ini : Initializer) (values : list T)
    : option Initializer :=
  match values with
  | [] => Some ini
  | v :: values' =>
      ini' ← operator_comma Rows Cols ini v; commas Rows Cols ini' values'
  end.

(** The expression [matrix << v0, v1, ..., vk] and the matrix it leaves. *)
Definition chain (Rows Cols : nat) (matrix : Mat) (v0 : T)
    (values : list T) : option Mat :=
  ini ← operator_shl Rows Cols matrix v0;
  ini' ← commas Rows Cols ini values;
  Some (matrix_ ini').

End Members.

(** The members that hand the work to the algebra functions of the library,
    [Gs::Determinant], [Gs::Inverse] and [Gs::MakeFreeRotation]. These are
    compiled with the same build options as the members and are taken as they
    come: any functions of the right shape. A reference parameter that the
    function writes to is an argument and a component of the result. *)
Section Collaborators.
Context {T : Type} `{Scalar T}.
Variable lay : Layout.
Variable auto_init : bool.
Variable indeterminate : nat → list T.
(** The vector template argument [Vec<T>] of [RotateFree]. *)
Variable Vec : Type.

Abbreviation Mat := (list T).

(** [T Gs::Determinant(const Matrix<T, N, N>& m)] *)
Variable Gs_Determinant : nat → Mat → T.
(** [bool Gs::Inverse(Matrix<T, N, N>& out, const Matrix<T, N, N>& in)] *)
Variable Gs_Inverse : nat → Mat → Mat → Mat * bool.
(** [void Gs::MakeFreeRotation(Matrix<T, N, N>& mat, const Vec<T>& axis,
                               const T& angle)] *)
Variable Gs_MakeFreeRotation : nat → Mat → Vec → T → Mat.

(** [Determinant() const] *)
Definition Determinant (N : nat) (this : Mat) : T :=
  Gs_Determinant N this.

(** [MakeInverse()]: the receiver after the call, and the returned flag. *)
Definition MakeInverse (N : nat) (this : Mat) : option (Mat * bool) :=
  in_ ← Matrix_copy indeterminate N N this;
  Some (Gs_Inverse N this in_).

(** [Inverse() const]: the receiver after the call, which a [const] member
    hands back as it came, and the returned matrix. *)
Definition Inverse (N : nat) (this : Mat) : option (Mat * Mat) :=
  inv ← Matrix_copy indeterminate N N this;
  r ← MakeInverse N inv;
  Some (this, r.1).

(** [RotateFree(axis, angle)] *)
Definition RotateFree (N : nat) (this : Mat) (axis : Vec) (angle : T)
    : option Mat :=
  rotation ← Identity lay auto_init indeterminate N;
  operator_mul_assign lay indeterminate N this
    (Gs_MakeFreeRotation N rotation axis angle).

End Collaborators.

End Matrix.

(** ** Vector3.h *)

Module Vector3T.

Section Members.
Context {T : Type} `{Scalar T}.

(** [T x, y, z] *)
Record Vector3T := {
  x : T;
  y : T;
  z : T
}.

(** What a [const T&] parameter of a member function refers to: an object
    outside the receiver, or one of the receiver's own members (as in
    [v *= v.x]). *)
Inductive Component := component_x | component_y | component_z.

Inductive ScalarRef :=
| Elsewhere (value : T)
| Member (component : Component).

Definition deref (this : Vector3T) (ref : ScalarRef) : T :=
  match ref with
  | Elsewhere value => value
  | Member component_x => x this
  | Member component_y => y this
  | Member component_z => z this
  end.

(** [operator += (const Vector3T<T>& rhs)] and its siblings *)
Definition operator_add_assign (this rhs : Vector3T) : Vector3T :=
  {| x := add (x this) (x rhs);
     y := add (y this) (y rhs);
     z := add (z this) (z rhs) |}.

Definition operator_sub_assign (this rhs : Vector3T) : Vector3T :=
  {| x := sub (x this) (x rhs);
     y := sub (y this) (y rhs);
     z := sub (z this) (z rhs) |}.

Definition operator_mul_assign (this rhs : Vector3T) : Vector3T :=
  {| x := mul (x this) (x rhs);
     y := mul (y this) (y rhs);
     z := mul (z this) (z rhs) |}.

Definition operator_div_assign (this rhs : Vector3T) : Vector3T :=
  {| x := div (x this) (x rhs);
     y := div (y this) (y rhs);
     z := div (z this) (z rhs) |}.

(** [operator *= (const T& rhs)], [operator /= (const T& rhs)]: the three
    statements [x *= rhs; y *= rhs; z *= rhs;] read [rhs] one after the
    other. *)
Definition operator_mul_assign_scalar (this : Vector3T) (rhs : ScalarRef)
    : Vector3T :=
  let this :=
    {| x := mul (x this) (deref this rhs); y := y this; z := z this |} in
  let this :=
    {| x := x this; y := mul (y this) (deref this rhs); z := z this |} in
  {| x := x this; y := y this; z := mul (z this) (deref this rhs) |}.

Definition operator_div_assign_scalar (this : Vector3T) (rhs : ScalarRef)
    : Vector3T :=
  let this :=
    {| x := div (x this) (deref this rhs); y := y this; z := z this |} in
  let this :=
    {| x := x this; y := div (y this) (deref this rhs); z := z this |} in
  {| x := x this; y := y this; z := div (z this) (deref this rhs) |}.

(** [static const std::size_t components = 3] *)
Definition components : nat := 3.

(** [Vector3T()] with automatic initialization, [Vector3T(const T& scalar)] *)
Definition Vector3T_default : Vector3T :=
  {| x := zero; y := zero; z := zero |}.

Definition Vector3T_scalar (scalar : T) : Vector3T :=
  {| x := scalar; y := scalar; z := scalar |}.

(** [operator [] (component)], read and assigned to: [*((&x) + component)],
    where the members [x], [y] and [z] lie one after the other; beyond [z]
    there is nothing to refer to. *)
Definition operator_index (this : Vector3T) (component : nat) : option T :=
  GS_ASSERT (component <? components);;
  match component with
  | 0 => Some (x this)
  | 1 => Some (y this)
  | 2 => Some (z this)
  | _ => None
  end.

Definition operator_index_assign (this : Vector3T) (component : nat) (v : T)
    : option Vector3T :=
  GS_ASSERT (component <? components);;
  match component with
  | 0 => Some {| x := v; y := y this; z := z this |}
  | 1 => Some {| x := x this; y := v; z := z this |}
  | 2 => Some {| x := x this; y := y this; z := v |}
  | _ => None
  end.

(** [Vector3T(const Vector3T<T>& rhs)] *)
Definition Vector3T_copy (rhs : Vector3T) : Vector3T :=
  {| x := x rhs; y := y rhs; z := z rhs |}.

(** The global operators. Each returns its [result]; the operands are
    [const] references. *)
Definition operator_add (lhs rhs : Vector3T) : Vector3T :=
  let result := Vector3T_copy lhs in
  operator_add_assign result rhs.

Definition operator_sub (lhs rhs : Vector3T) : Vector3T :=
  let result := Vector3T_copy lhs in
  operator_sub_assign result rhs.

Definition operator_mul (lhs rhs : Vector3T) : Vector3T :=
  let result := Vector3T_copy lhs in
  operator_mul_assign result rhs.

(** [operator / (const Vector3T<T>&, const Vector3T<T>&)]: the body applies
    [result *= rhs]. *)
Definition operator_div (lhs rhs : Vector3T) : Vector3T :=
  let result := Vector3T_copy lhs in
  operator_mul_assign result rhs.

(** With a scalar operand the receiver of [*=] or [/=] is the local
    [result]: the scalar refers to nothing in it and keeps its value. *)
Definition operator_mul_scalar (lhs : Vector3T) (rhs : T) : Vector3T :=
  let result := Vector3T_copy lhs in
  operator_mul_assign_scalar result (Elsewhere rhs).

Definition operator_div_scalar (lhs : Vector3T) (rhs : T) : Vector3T :=
  let result := Vector3T_copy lhs in
  operator_div_assign_scalar result (Elsewhere rhs).

(** [operator * (const T& lhs, const Vector3T<T>& rhs)] *)
Definition operator_scalar_mul (lhs : T) (rhs : Vector3T) : Vector3T :=
  let result := Vector3T_copy rhs in
  operator_mul_assign_scalar result (Elsewhere lhs).

End Members.

Arguments Vector3T T : clear implicits.

(** [Cast<C>()]; [static_cast_C] is the conversion [static_cast<C>] from [T]. *)
Definition Cast {T C : Type} (static_cast_C : T → C) (this : Vector3T T)
    : Vector3T C :=
  {| x := static_cast_C (x this);
     y := static_cast_C (y this);
     z := static_cast_C (z this) |}.

End Vector3T.

(** * Vocabulary of the specification *)

Section Vocabulary.
Context {T : Type} `{Scalar T}.

(** The place of the logical index [(row, col)] in the array. *)
Definition slot (lay : Layout) (Rows Cols row col : nat) : nat :=
  match lay with
  | RowMajor => row * Cols + col
  | ColumnMajor => col * Rows + row
  end.

(** The array of a [Matrix<T, Rows, Cols>] has [Rows * Cols] elements. *)
Definition well_formed (Rows Cols : nat) (m : list T) : Prop :=
  length m = Rows * Cols.

(** The scalar read by [m(r, c)]. *)
Definition entry (lay : Layout) (Rows Cols : nat) (m : list T)
    (r c : nat) : T :=
  default zero (Matrix.operator_call lay Rows Cols m r c).

(** The rows of a matrix, read through [operator ()]. *)
Definition to_rows (lay : Layout) (Rows Cols : nat) (m : list T)
    : list (list T) :=
  (λ r, (λ c, entry lay Rows Cols m r c) <$> seq 0 Cols) <$> seq 0 Rows.

(** The sum of [a(r, i) * b(i, c)] for [i] from [0] up to [K], accumulated
    from [T(0)] in this order. *)
Definition dot (lay : Layout) (Rows K Cols : nat) (a b : list T)
    (r c : nat) : T :=
  foldl (λ acc i,
           add acc (mul (entry lay Rows K a r i) (entry lay K Cols b i c)))
        zero (seq 0 K).

(** A matrix of the row-major build and a matrix of the column-major build
    hold the same scalar at every logical index. *)
Definition agree (Rows Cols : nat) (mR mC : list T) : Prop :=
  well_formed Rows Cols mR ∧ well_formed Rows Cols mC ∧
  ∀ r c, r < Rows → c < Cols →
    Matrix.operator_call RowMajor Rows Cols mR r c
    = Matrix.operator_call ColumnMajor Rows Cols mC r c.

(** The row-major build and the column-major build both return, and the
    matrices they return agree. *)
Definition results_agree (Rows Cols : nat) (resR resC : option (list T))
    : Prop :=
  ∃ mR mC, resR = Some mR ∧ resC = Some mC ∧ agree Rows Cols mR mC.

(** The algebra functions of the two builds compute the same on matrices
    that agree. *)
Definition algebra_agrees (N : nat) (Vec : Type)
    (detR detC : nat → list T → T)
    (invR invC : nat → list T → list T → list T * bool)
    (rotR rotC : nat → list T → Vec → T → list T) : Prop :=
  (∀ mR mC, agree N N mR mC → detR N mR = detC N mC) ∧
  (∀ outR outC inR inC, agree N N outR outC → agree N N inR inC →
     agree N N (invR N outR inR).1 (invC N outC inC).1 ∧
     (invR N outR inR).2 = (invC N outC inC).2) ∧
  (∀ mR mC axis angle, agree N N mR mC →
     agree N N (rotR N mR axis angle) (rotC N mC axis angle)).

(** [b] is a two-sided inverse of [a]: both products are the identity. *)
Definition is_inverse (lay : Layout) (N : nat) (a b : list T) : Prop :=
  ∀ r c, r < N → c < N →
    dot lay N N N a b r c = (if r =? c then one else zero) ∧
    dot lay N N N b a r c = (if r =? c then one else zero).

Definition invertible (lay : Layout) (N : nat) (a : list T) : Prop :=
  ∃ b, well_formed N N b ∧ is_inverse lay N a b.

(** Modelled from the spec: [Gs::Inverse], the inversion function that
    [MakeInverse] calls and that is defined outside [Matrix.h]. It writes the
    inverse into [out] and returns true if [in] is invertible, and returns
    false, with [out] in an unspecified state, if [in] is singular. *)
Definition Inverse_contract (lay : Layout) (N : nat)
    (Gs_Inverse : nat → list T → list T → list T * bool) : Prop :=
  ∀ out in_, well_formed N N out → well_formed N N in_ →
    well_formed N N (Gs_Inverse N out in_).1 ∧
    (invertible lay N in_ →
       (Gs_Inverse N out in_).2 = true ∧
       is_inverse lay N in_ (Gs_Inverse N out in_).1) ∧
    (¬ invertible lay N in_ → (Gs_Inverse N out in_).2 = false).

(** [transposed_upto N P m s]: seen as an [N] by [N] grid of rows of length
    [N], the array [s] is [m] with the places in [P] exchanged with their
    mirror images. *)
Definition transposed_upto (N : nat) (P : nat → nat → Prop)
    (m s : list T) : Prop :=
  length s = N * N ∧
  ∀ r c, r < N → c < N →
    (P r c → s !! (r * N + c) = m !! (c * N + r)) ∧
    (¬ P r c → s !! (r * N + c) = m !! (r * N + c)).

(** The places exchanged before the iteration [(i, j)] of the loops. *)
Definition swapped (i j r c : nat) : Prop :=
  r < i ∨ c < i ∨ (r = i ∧ c < i + j) ∨ (c = i ∧ r < i + j).

#[export] Instance swapped_dec i j r c : Decision (swapped i j r c).
Proof. unfold swapped. apply _. Defined.

(** The sum of [f 0], ..., [f (n - 1)], accumulated from [T(0)] in this
    order: the shape of the loops of [operator *] and [Trace()]. *)
Definition sum (n : nat) (f : nat → T) : T :=
  foldl (λ acc i, add acc (f i)) zero (seq 0 n).

(** [T(0)] inhabits the scalar type. *)
#[export] Instance scalar_inhabited : Inhabited T := populate zero.

End Vocabulary.

(** ** Algebra functions over [Z], to run the members on *)

(** A rotation function for 2 by 2 matrices that turns by a quarter, whatever
    the axis and the angle. *)
Definition quarter_turn (lay : Layout) (N : nat) (mat : list Z) (axis : unit)
    (angle : Z) : list Z :=
  default mat (Matrix.chain lay 2 2 mat 0%Z [-1; 1; 0]%Z).

(** An inversion function for 2 by 2 integer matrices: the adjugate, when the
    determinant is a unit. *)
Definition inverse2 (lay : Layout) (N : nat) (out in_ : list Z)
    : list Z * bool :=
  let a := entry lay 2 2 in_ 0 0 in
  let b := entry lay 2 2 in_ 0 1 in
  let c := entry lay 2 2 in_ 1 0 in
  let d := entry lay 2 2 in_ 1 1 in
  let det := (a * d - b * c)%Z in
  if ((det =? 1) || (det =? -1))%Z
  then (default out
          (Matrix.chain lay 2 2 out (det * d)%Z
             [- (det * b); - (det * c); det * a]%Z), true)
  else (out, false).

(** A determinant function for 2 by 2 integer matrices. *)
Definition determinant2 (lay : Layout) (N : nat) (m : list Z) : Z :=
  (entry lay 2 2 m 0 0 * entry lay 2 2 m 1 1
   - entry lay 2 2 m 0 1 * entry lay 2 2 m 1 0)%Z.

(** * Loops *)

Section Loops.
Context {St : Type}.
Implicit Types (body : nat → St → option St) (P : nat → St → Prop).

Lemma for_count_inv P body n : ∀ i s,
  P i s →
  (∀ k s, i ≤ k < i + n → P k s → ∃ s', body k s = Some s' ∧ P (S k) s') →
  ∃ s', for_count n i body s = Some s' ∧ P (i + n) s'.
Proof.
  induction n as [|n IH]; intros i s Hs Hstep; simpl.
  - exists s. by rewrite Nat.add_0_r.
  - destruct (Hstep i s) as (s1 & -> & Hs1); [lia | done |]. simpl.
    destruct (IH (S i) s1) as (s2 & Hrun & Hs2); [done | |].
    + intros k s' Hk. apply Hstep. lia.
    + exists s2. split; [done |]. by replace (i + S n) with (S i + n) by lia.
Qed.

(** The invariant rule of a counting loop; the loop runs to its end. *)
Lemma for_range_inv P body lo hi s :
  lo ≤ hi →
  P lo s →
  (∀ i s, lo ≤ i < hi → P i s → ∃ s', body i s = Some s' ∧ P (S i) s') →
  ∃ s', for_range lo hi body s = Some s' ∧ P hi s'.
Proof.
  intros Hle Hs Hstep. unfold for_range.
  destruct (for_count_inv P body (hi - lo) lo s) as (s' & Hrun & Hs');
    [done | |].
  - intros k s' Hk. apply Hstep. lia.
  - exists s'. split; [done |]. by replace hi with (lo + (hi - lo)) by lia.
Qed.

Lemma for_range_ext body body' lo hi s :
  (∀ i s, lo ≤ i < hi → body i s = body' i s) →
  for_range lo hi body s = for_range lo hi body' s.
Proof.
  unfold for_range. intros Hext.
  assert (∀ n i s, lo ≤ i → i + n ≤ hi ∨ n = 0 →
            for_count n i body s = for_count n i body' s) as Hgen.
  { induction n as [|n IH]; intros i s0 Hi Hn; simpl; [done |].
    rewrite Hext by lia. destruct (body' i s0); simpl; [|done].
    apply IH; lia. }
  apply Hgen; lia.
Qed.

(** A loop whose condition holds exactly below [hi] is the counting loop up
    to [hi], given fuel for its iterations. *)
Lemma for_cond_range fuel (cond : nat → bool) body hi : ∀ lo s,
  (∀ k, lo ≤ k → cond k = (k <? hi)) →
  hi - lo ≤ fuel →
  for_cond fuel lo cond body s = for_range lo hi body s.
Proof.
  unfold for_range.
  induction fuel as [|fuel IH]; intros lo s Hcond Hfuel; simpl;
    rewrite Hcond by lia; destruct (Nat.ltb_spec lo hi) as [Hlt|Hge].
  - lia.
  - by replace (hi - lo) with 0 by lia.
  - replace (hi - lo) with (S (hi - S lo)) by lia. simpl.
    destruct (body lo s) as [s'|]; simpl; [|done].
    apply IH; [|lia]. intros k Hk. apply Hcond. lia.
  - by replace (hi - lo) with 0 by lia.
Qed.

End Loops.

(** The loops of [Transpose()] as counting loops: [i] runs below [Cols - 1]
    and [j] from [1] below [Cols - i]. *)
Lemma Transpose_loops_range {St : Type} (Cols : nat)
    (action : nat → nat → St → option St) (s : St) :
  Matrix.Transpose_loops Cols action s
  = for_range 0 (Cols - 1) (λ i,
      for_range 1 (Cols - i) (λ j,
        action (i * (Cols + 1) + j) ((j + i) * Cols + i))) s.
Proof.
  unfold Matrix.Transpose_loops.
  rewrite (for_cond_range _ _ _ (Cols - 1)).
  - apply for_range_ext. intros i s' Hi.
    apply for_cond_range; [|lia].
    intros j Hj. destruct (Nat.ltb_spec (j + i) Cols),
      (Nat.ltb_spec j (Cols - i)); done || lia.
  - intros i Hi. destruct (Nat.ltb_spec (i + 1) Cols),
      (Nat.ltb_spec i (Cols - 1)); done || lia.
  - lia.
Qed.

(** * Index arithmetic and element access *)

Lemma linear_index_inj (W a b a' b' : nat) :
  b < W → b' < W → a * W + b = a' * W + b' → a = a' ∧ b = b'.
Proof.
  intros Hb Hb' Heq.
  assert (a = a') as -> by nia.
  split; [done | lia].
Qed.

Lemma linear_index_lt (H W a b : nat) : a < H → b < W → a * W + b < H * W.
Proof. nia. Qed.

Lemma slot_lt lay Rows Cols r c :
  r < Rows → c < Cols → slot lay Rows Cols r c < Rows * Cols.
Proof.
  intros Hr Hc. destruct lay; simpl.
  - by apply linear_index_lt.
  - rewrite (Nat.mul_comm Rows Cols). by apply linear_index_lt.
Qed.

Lemma slot_inj lay Rows Cols r c r' c' :
  r < Rows → c < Cols → r' < Rows → c' < Cols →
  slot lay Rows Cols r c = slot lay Rows Cols r' c' → r = r' ∧ c = c'.
Proof.
  intros Hr Hc Hr' Hc' Heq. destruct lay; simpl in Heq.
  - by apply (linear_index_inj Cols).
  - by apply and_comm, (linear_index_inj Rows).
Qed.

Lemma slot_surj lay Rows Cols k :
  k < Rows * Cols →
  ∃ r c, r < Rows ∧ c < Cols ∧ slot lay Rows Cols r c = k.
Proof.
  intros Hk. destruct lay; simpl.
  - assert (0 < Cols) as Hpos by nia.
    exists (k / Cols), (k mod Cols). split_and!.
    + apply Nat.Div0.div_lt_upper_bound. lia.
    + apply Nat.mod_upper_bound. lia.
    + pose proof (Nat.div_mod_eq k Cols). lia.
  - assert (0 < Rows) as Hpos by nia.
    exists (k mod Rows), (k / Rows). split_and!.
    + apply Nat.mod_upper_bound. lia.
    + apply Nat.Div0.div_lt_upper_bound. lia.
    + pose proof (Nat.div_mod_eq k Rows). lia.
Qed.

Section Access.
Context {T : Type} `{Scalar T}.
Implicit Types (m : list T) (lay : Layout).

Lemma store_Some m i v :
  i < length m → Matrix.store m i v = Some (<[i := v]> m).
Proof.
  intros Hi. unfold Matrix.store.
  by destruct (Nat.ltb_spec i (length m)); [|lia].
Qed.

Lemma operator_call_ref_slot lay Rows Cols r c :
  r < Rows → c < Cols →
  Matrix.operator_call_ref lay Rows Cols r c = Some (slot lay Rows Cols r c).
Proof.
  intros Hr Hc. unfold Matrix.operator_call_ref.
  destruct (Nat.ltb_spec r Rows); [|lia].
  destruct (Nat.ltb_spec c Cols); [|lia].
  by destruct lay.
Qed.

Lemma operator_call_lookup lay Rows Cols m r c :
  r < Rows → c < Cols →
  Matrix.operator_call lay Rows Cols m r c = m !! slot lay Rows Cols r c.
Proof.
  intros Hr Hc. unfold Matrix.operator_call.
  by rewrite operator_call_ref_slot.
Qed.

Lemma operator_call_entry lay Rows Cols m r c :
  well_formed Rows Cols m → r < Rows → c < Cols →
  Matrix.operator_call lay Rows Cols m r c = Some (entry lay Rows Cols m r c).
Proof.
  intros Hwf Hr Hc. unfold entry.
  rewrite operator_call_lookup by done.
  destruct (lookup_lt_is_Some_2 m (slot lay Rows Cols r c)) as [v ->];
    [|done].
  rewrite Hwf. by apply slot_lt.
Qed.

Lemma operator_call_assign_insert lay Rows Cols m r c v :
  well_formed Rows Cols m → r < Rows → c < Cols →
  Matrix.operator_call_assign lay Rows Cols m r c v
  = Some (<[slot lay Rows Cols r c := v]> m).
Proof.
  intros Hwf Hr Hc. unfold Matrix.operator_call_assign.
  rewrite operator_call_ref_slot by done. simpl.
  apply store_Some. rewrite Hwf. by apply slot_lt.
Qed.

Lemma well_formed_insert Rows Cols m i v :
  well_formed Rows Cols m → well_formed Rows Cols (<[i := v]> m).
Proof. unfold well_formed. by rewrite length_insert. Qed.

(** Two matrices that read the same at every logical index are the same
    array. *)
Lemma matrix_ext lay Rows Cols m1 m2 :
  well_formed Rows Cols m1 → well_formed Rows Cols m2 →
  (∀ r c, r < Rows → c < Cols →
     Matrix.operator_call lay Rows Cols m1 r c
     = Matrix.operator_call lay Rows Cols m2 r c) →
  m1 = m2.
Proof.
  intros Hwf1 Hwf2 Hsame. apply list_eq. intros k.
  destruct (decide (k < Rows * Cols)) as [Hk|Hk].
  - destruct (slot_surj lay Rows Cols k Hk) as (r & c & Hr & Hc & <-).
    specialize (Hsame r c Hr Hc).
    by rewrite !operator_call_lookup in Hsame.
  - rewrite !lookup_ge_None_2; [done | rewrite Hwf2; lia | rewrite Hwf1; lia].
Qed.

End Access.

(** * Loops that fill an array *)

Section Writes.
Context {T : Type}.
Implicit Types (m : list T).

(** A loop whose [i]-th iteration amounts to one write, to a place of its
    own; the iteration may rely on the places not yet written. *)
Lemma for_range_writes (L n : nat) (tgt : nat → nat) (val : nat → T)
    (body : nat → list T → option (list T)) m :
  length m = L →
  (∀ i, i < n → tgt i < L) →
  (∀ i j, i < n → j < n → tgt i = tgt j → i = j) →
  (∀ i s, i < n → length s = L →
     (∀ k, (∀ j, j < i → tgt j ≠ k) → s !! k = m !! k) →
     body i s = Some (<[tgt i := val i]> s)) →
  ∃ m', for_range 0 n body m = Some m' ∧ length m' = L ∧
    (∀ i, i < n → m' !! tgt i = Some (val i)) ∧
    (∀ k, (∀ i, i < n → tgt i ≠ k) → m' !! k = m !! k).
Proof.
  intros Hlen Hlt Hinj Hbody.
  destruct (for_range_inv
    (λ i s, length s = L ∧
            (∀ j, j < i → s !! tgt j = Some (val j)) ∧
            (∀ k, (∀ j, j < i → tgt j ≠ k) → s !! k = m !! k))
    body 0 n m) as (m' & Hrun & Hlen' & Hdone & Hframe); [lia | | |].
  - split_and!; [done | intros; lia | done].
  - intros i s Hi (Hs & Hdone & Hframe).
    exists (<[tgt i := val i]> s).
    split; [apply Hbody; [lia | done | done] |].
    split_and!.
    + by rewrite length_insert.
    + intros j Hj. destruct (decide (j = i)) as [->|Hne].
      * apply list_lookup_insert_eq. rewrite Hs. apply Hlt. lia.
      * rewrite list_lookup_insert_ne; [apply Hdone; lia |].
        intros Heq. apply Hinj in Heq; lia.
    + intros k Hk. rewrite list_lookup_insert_ne; [|apply Hk; lia].
      apply Hframe. intros j Hj. apply Hk. lia.
  - exists m'. split_and!; try done. 
Qed.

(** Two nested loops whose iteration [(a, b)] amounts to one write. *)
Lemma for_range2_writes (L A B : nat) (tgt : nat → nat → nat)
    (val : nat → nat → T)
    (body : nat → nat → list T → option (list T)) m :
  length m = L →
  (∀ a b, a < A → b < B → tgt a b < L) →
  (∀ a b a' b', a < A → b < B → a' < A → b' < B →
     tgt a b = tgt a' b' → a = a' ∧ b = b') →
  (∀ a b m, a < A → b < B → length m = L →
     body a b m = Some (<[tgt a b := val a b]> m)) →
  ∃ m', for_range 0 A (λ a, for_range 0 B (λ b, body a b)) m = Some m' ∧
    length m' = L ∧
    (∀ a b, a < A → b < B → m' !! tgt a b = Some (val a b)) ∧
    (∀ k, (∀ a b, a < A → b < B → tgt a b ≠ k) → m' !! k = m !! k).
Proof.
  intros Hlen Hlt Hinj Hbody.
  destruct (for_range_inv
    (λ a s, length s = L ∧
            (∀ a' b, a' < a → b < B → s !! tgt a' b = Some (val a' b)) ∧
            (∀ k, (∀ a' b, a' < a → b < B → tgt a' b ≠ k) →
                  s !! k = m !! k))
    (λ a, for_range 0 B (λ b, body a b)) 0 A m)
    as (m' & Hrun & Hlen' & Hdone & Hframe); [lia | | |].
  - split_and!; [done | intros; lia | done].
  - intros a s Ha (Hs & Hdone & Hframe).
    destruct (for_range_writes L B (tgt a) (val a) (body a) s)
      as (s' & Hrun & Hs' & Hrow & Hrest); [done | | | |].
    + intros b Hb. apply Hlt; [lia | done].
    + intros b b' Hb Hb' Heq. apply Hinj in Heq; lia.
    + intros b s0 Hb Hs0 _. apply Hbody; [lia | done | done].
    + exists s'. split; [done |]. split_and!; [done | |].
      * intros a' b Ha' Hb. destruct (decide (a' = a)) as [->|Hne].
        { by apply Hrow. }
        rewrite Hrest; [apply Hdone; [lia | done] |].
        intros b' Hb' Heq. apply Hinj in Heq; lia.
      * intros k Hk. rewrite Hrest; [|intros b Hb; apply Hk; lia].
        apply Hframe. intros a' b Ha' Hb. apply Hk; lia.
  - exists m'. split_and!; done.
Qed.

(** The same for the loops of [__GS_FOREACH_ROW_COL__], in either nesting
    order. *)
Lemma FOREACH_ROW_COL_writes lay (L Rows Cols : nat)
    (tgt : nat → nat → nat) (val : nat → nat → T)
    (body : nat → nat → list T → option (list T)) m :
  length m = L →
  (∀ r c, r < Rows → c < Cols → tgt r c < L) →
  (∀ r c r' c', r < Rows → c < Cols → r' < Rows → c' < Cols →
     tgt r c = tgt r' c' → r = r' ∧ c = c') →
  (∀ r c m, r < Rows → c < Cols → length m = L →
     body r c m = Some (<[tgt r c := val r c]> m)) →
  ∃ m', Matrix.FOREACH_ROW_COL lay Rows Cols body m = Some m' ∧
    length m' = L ∧
    (∀ r c, r < Rows → c < Cols → m' !! tgt r c = Some (val r c)) ∧
    (∀ k, (∀ r c, r < Rows → c < Cols → tgt r c ≠ k) → m' !! k = m !! k).
Proof.
  intros Hlen Hlt Hinj Hbody. destruct lay; simpl.
  - by apply for_range2_writes.
  - destruct (for_range2_writes L Cols Rows (λ c r, tgt r c)
      (λ c r, val r c) (λ c r, body r c) m)
      as (m' & Hrun & Hlen' & Hdone & Hframe); try done.
    + intros c r Hc Hr. by apply Hlt.
    + intros c r c' r' Hc Hr Hc' Hr' Heq. apply Hinj in Heq; lia.
    + intros c r s Hc Hr. by apply Hbody.
    + exists m'. split_and!; [done | done | |].
      * intros r c Hr Hc. by apply Hdone.
      * intros k Hk. apply Hframe. intros c r Hc Hr. by apply Hk.
Qed.

End Writes.

(** * The matrix product *)

Section Product.
Context {T : Type} `{Scalar T}.
Variable lay : Layout.
Variable indeterminate : nat → list T.
Hypothesis indeterminate_length : ∀ n, length (indeterminate n) = n.
Implicit Types (a b m : list T).

(** The body of the two outer loops of [operator *] leaves the dot product
    in [result(r, c)] and nothing else changed. *)
Lemma operator_mul_cell Rows K Cols a b r c m :
  well_formed Rows K a → well_formed K Cols b →
  r < Rows → c < Cols → well_formed Rows Cols m →
  (result ← Matrix.operator_call_assign lay Rows Cols m r c zero;
   for_range 0 K (λ i result,
     x ← Matrix.operator_call lay Rows K a r i;
     y ← Matrix.operator_call lay K Cols b i c;
     acc ← Matrix.operator_call lay Rows Cols result r c;
     Matrix.operator_call_assign lay Rows Cols result r c
       (add acc (mul x y))) result)
  = Some (<[slot lay Rows Cols r c := dot lay Rows K Cols a b r c]> m).
Proof.
  intros Ha Hb Hr Hc Hm.
  rewrite operator_call_assign_insert by done. simpl.
  set (f := λ acc i,
    add acc (mul (entry lay Rows K a r i) (entry lay K Cols b i c))).
  match goal with |- for_range 0 K ?body ?start = _ =>
    destruct (for_range_inv
      (λ i s, s = <[slot lay Rows Cols r c := foldl f zero (seq 0 i)]> m)
      body 0 K start) as (s' & Hrun & Hs')
  end; [lia | done | | by rewrite Hrun, Hs'].
  intros i s Hi ->.
  exists (<[slot lay Rows Cols r c := f (foldl f zero (seq 0 i)) i]> m).
  split; [|by rewrite seq_S, foldl_snoc].
  rewrite (operator_call_entry lay Rows K a) by (done || lia). simpl.
  rewrite (operator_call_entry lay K Cols b) by (done || lia). simpl.
  rewrite operator_call_lookup by done.
  rewrite list_lookup_insert_eq by (rewrite Hm; by apply slot_lt). simpl.
  rewrite operator_call_assign_insert
    by (done || by apply well_formed_insert).
  by rewrite list_insert_insert_eq.
Qed.

(** [operator *] returns, and the matrix it returns holds the dot products,
    whatever the uninitialized [result] held. *)
Lemma operator_mul_spec Rows K Cols a b :
  well_formed Rows K a → well_formed K Cols b →
  ∃ p, Matrix.operator_mul lay indeterminate Rows K Cols a b = Some p ∧
    well_formed Rows Cols p ∧
    ∀ r c, r < Rows → c < Cols →
      Matrix.operator_call lay Rows Cols p r c
      = Some (dot lay Rows K Cols a b r c).
Proof.
  intros Ha Hb. unfold Matrix.operator_mul, Matrix.Matrix_uninitialized.
  match goal with
  | |- ∃ p, for_range 0 Rows
              (λ r, for_range 0 Cols (λ c, @?body r c)) ?start = _ ∧ _ =>
    destruct (for_range2_writes (Rows * Cols) Rows Cols
      (slot lay Rows Cols) (dot lay Rows K Cols a b) body start)
      as (p & Hrun & Hlen & Hcells & _)
  end.
  - apply indeterminate_length.
  - intros. by apply slot_lt.
  - intros. by apply (slot_inj lay Rows Cols).
  - intros r c m Hr Hc Hm. by apply operator_mul_cell.
  - exists p. split_and!; [done | done |].
    intros r c Hr Hc. rewrite operator_call_lookup by done.
    by apply Hcells.
Qed.

End Product.

(** * The element-wise members *)

Section Elementwise.
Context {T : Type} `{Scalar T}.
Implicit Types (this rhs m : list T).

(** A loop over the whole array whose [i]-th iteration replaces [m_[i]] by a
    function of its value. *)
Lemma for_elements (n : nat) (val : nat → T)
    (body : nat → list T → option (list T)) this :
  length this = n →
  (∀ i s, i < n → length s = n → s !! i = this !! i →
     body i s = Some (<[i := val i]> s)) →
  ∃ m', for_range 0 n body this = Some m' ∧ length m' = n ∧
    ∀ i, i < n → m' !! i = Some (val i).
Proof.
  intros Hlen Hbody.
  destruct (for_range_writes n n id val body this)
    as (m' & Hrun & Hlen' & Hvals & _); try done.
  - intros i s Hi Hs Hframe. apply Hbody; [done | done |].
    apply Hframe. unfold id. lia.
  - by exists m'.
Qed.

Lemma for_elements_eq (n : nat) (val : nat → T)
    (body : nat → list T → option (list T)) this (res : list T) :
  length this = n → length res = n →
  (∀ i, i < n → res !! i = Some (val i)) →
  (∀ i s, i < n → length s = n → s !! i = this !! i →
     body i s = Some (<[i := val i]> s)) →
  for_range 0 n body this = Some res.
Proof.
  intros Hlen Hres Hval Hbody.
  destruct (for_elements n val body this) as (m' & -> & Hlen' & Hvals);
    [done | done |].
  f_equal. apply list_eq. intros k.
  destruct (decide (k < n)) as [Hk|Hk].
  - by rewrite Hvals, Hval.
  - by rewrite !lookup_ge_None_2 by lia.
Qed.

Lemma operator_assign_eq Rows Cols this rhs :
  well_formed Rows Cols this → well_formed Rows Cols rhs →
  Matrix.operator_assign Rows Cols this rhs = Some rhs.
Proof.
  intros Hthis Hrhs.
  apply (for_elements_eq (Rows * Cols) (λ i, rhs !!! i)); try done.
  - intros i Hi. apply list_lookup_lookup_total_lt. by rewrite Hrhs.
  - intros i s Hi Hs _. unfold Matrix.load.
    rewrite (list_lookup_lookup_total_lt rhs) by (by rewrite Hrhs). simpl.
    apply store_Some. by rewrite Hs.
Qed.

Lemma Reset_eq Rows Cols this :
  well_formed Rows Cols this →
  Matrix.Reset Rows Cols this = Some (replicate (Rows * Cols) zero).
Proof.
  intros Hthis.
  apply (for_elements_eq (Rows * Cols) (λ _, zero)); try done.
  - apply length_replicate.
  - intros i Hi. by apply lookup_replicate_2.
  - intros i s Hi Hs _. apply store_Some. by rewrite Hs.
Qed.

Lemma operator_add_assign_eq Rows Cols this rhs :
  well_formed Rows Cols this → well_formed Rows Cols rhs →
  Matrix.operator_add_assign Rows Cols this rhs
  = Some (zip_with add this rhs).
Proof.
  intros Hthis Hrhs.
  apply (for_elements_eq (Rows * Cols)
           (λ i, add (this !!! i) (rhs !!! i))); try done.
  - rewrite length_zip_with, Hthis, Hrhs. lia.
  - intros i Hi. rewrite lookup_zip_with.
    rewrite (list_lookup_lookup_total_lt this) by (by rewrite Hthis).
    by rewrite (list_lookup_lookup_total_lt rhs) by (by rewrite Hrhs).
  - intros i s Hi Hs Hsame. unfold Matrix.load. rewrite Hsame.
    rewrite (list_lookup_lookup_total_lt this) by (by rewrite Hthis).
    rewrite (list_lookup_lookup_total_lt rhs) by (by rewrite Hrhs). simpl.
    apply store_Some. by rewrite Hs.
Qed.

Lemma operator_sub_assign_eq Rows Cols this rhs :
  well_formed Rows Cols this → well_formed Rows Cols rhs →
  Matrix.operator_sub_assign Rows Cols this rhs
  = Some (zip_with sub this rhs).
Proof.
  intros Hthis Hrhs.
  apply (for_elements_eq (Rows * Cols)
           (λ i, sub (this !!! i) (rhs !!! i))); try done.
  - rewrite length_zip_with, Hthis, Hrhs. lia.
  - intros i Hi. rewrite lookup_zip_with.
    rewrite (list_lookup_lookup_total_lt this) by (by rewrite Hthis).
    by rewrite (list_lookup_lookup_total_lt rhs) by (by rewrite Hrhs).
  - intros i s Hi Hs Hsame. unfold Matrix.load. rewrite Hsame.
    rewrite (list_lookup_lookup_total_lt this) by (by rewrite Hthis).
    rewrite (list_lookup_lookup_total_lt rhs) by (by rewrite Hrhs). simpl.
    apply store_Some. by rewrite Hs.
Qed.

(** [*=] by a scalar that is not an element of the receiver. *)
Lemma operator_mul_assign_scalar_eq Rows Cols this (k : T) :
  well_formed Rows Cols this →
  Matrix.operator_mul_assign_scalar Rows Cols this (Matrix.Elsewhere k)
  = Some ((λ a, mul a k) <$> this).
Proof.
  intros Hthis.
  apply (for_elements_eq (Rows * Cols) (λ i, mul (this !!! i) k));
    try done.
  - by rewrite length_fmap.
  - intros i Hi. rewrite list_lookup_fmap.
    by rewrite (list_lookup_lookup_total_lt this) by (by rewrite Hthis).
  - intros i s Hi Hs Hsame. unfold Matrix.load. rewrite Hsame.
    rewrite (list_lookup_lookup_total_lt this) by (by rewrite Hthis). simpl.
    apply store_Some. by rewrite Hs.
Qed.

(** [*=] by the element [m_[j]] of the receiver: the elements up to [j] are
    multiplied by its value [kj], and once [m_[j]] has been overwritten by
    [kj * kj] the later ones are multiplied by that. *)
Lemma operator_mul_assign_scalar_within Rows Cols this (j : nat) (kj : T) :
  well_formed Rows Cols this →
  this !! j = Some kj →
  ∃ p, Matrix.operator_mul_assign_scalar Rows Cols this (Matrix.Within j)
       = Some p ∧
    well_formed Rows Cols p ∧
    ∀ i a, this !! i = Some a →
      p !! i = Some (mul a (if i <=? j then kj else mul kj kj)).
Proof.
  intros Hthis Hj. unfold Matrix.operator_mul_assign_scalar, Matrix.elements.
  set (new := λ i (a : T), mul a (if i <=? j then kj else mul kj kj)).
  destruct (for_range_inv
    (λ i s, length s = Rows * Cols ∧
       ∀ k a, this !! k = Some a →
         s !! k = Some (if k <? i then new k a else a))
    (λ i m, a ← Matrix.load m i; k ← Matrix.deref m (Matrix.Within j);
            Matrix.store m i (mul a k))
    0 (Rows * Cols) this) as (p & Hrun & Hlen & Hp).
  - lia.
  - split; [done |]. by intros k a Hk.
  - intros i s Hi [Hs Hsame].
    destruct (lookup_lt_is_Some_2 this i) as [a Ha];
      [unfold well_formed in Hthis; lia |].
    unfold Matrix.load, Matrix.deref, Matrix.load.
    rewrite (Hsame i a Ha), Nat.ltb_irrefl, (Hsame j kj Hj). simpl.
    rewrite store_Some by lia.
    eexists. split; [done |]. split; [by rewrite length_insert |].
    intros k b Hk. destruct (decide (k = i)) as [->|Hne].
    + rewrite list_lookup_insert_eq by lia.
      assert (b = a) as -> by congruence.
      rewrite (proj2 (Nat.ltb_lt i (S i))) by lia. unfold new.
      destruct (Nat.ltb_spec j i), (Nat.leb_spec i j); try lia; try done.
      by rewrite (proj2 (Nat.leb_le j j)) by lia.
    + rewrite list_lookup_insert_ne by done. rewrite (Hsame k b Hk).
      destruct (Nat.ltb_spec k i), (Nat.ltb_spec k (S i)); try lia; done.
  - exists p. split; [done |]. split; [done |].
    intros i a Ha. rewrite (Hp i a Ha).
    assert (i < Rows * Cols) as Hi.
    { unfold well_formed in Hthis. rewrite <- Hthis.
      by eapply lookup_lt_Some. }
    by rewrite (proj2 (Nat.ltb_lt i (Rows * Cols))) by done.
Qed.

End Elementwise.

(** * Construction, identity and the out-of-place transpose *)

Section Construction.
Context {T : Type} `{Scalar T}.
Variable lay : Layout.
Variable auto_init : bool.
Variable indeterminate : nat → list T.
Hypothesis indeterminate_length : ∀ n, length (indeterminate n) = n.
Implicit Types (this rhs m : list T).

Lemma Matrix_copy_eq Rows Cols rhs :
  well_formed Rows Cols rhs →
  Matrix.Matrix_copy indeterminate Rows Cols rhs = Some rhs.
Proof.
  intros Hrhs. unfold Matrix.Matrix_copy.
  apply operator_assign_eq; [|done]. apply indeterminate_length.
Qed.

Lemma Matrix_default_well_formed Rows Cols :
  ∃ m, Matrix.Matrix_default auto_init indeterminate Rows Cols = Some m ∧
       well_formed Rows Cols m.
Proof.
  unfold Matrix.Matrix_default. destruct auto_init.
  - rewrite Reset_eq by apply indeterminate_length.
    eexists. split; [done |]. apply length_replicate.
  - eexists. split; [done |]. apply indeterminate_length.
Qed.

Lemma LoadIdentity_spec N this :
  well_formed N N this →
  ∃ m, Matrix.LoadIdentity lay N this = Some m ∧ well_formed N N m ∧
    ∀ r c, r < N → c < N →
      Matrix.operator_call lay N N m r c
      = Some (if r =? c then one else zero).
Proof.
  intros Hthis. unfold Matrix.LoadIdentity.
  destruct (FOREACH_ROW_COL_writes lay (N * N) N N (slot lay N N)
    (λ r c, if r =? c then one else zero)
    (λ r c m, Matrix.operator_call_assign lay N N m r c
                (if r =? c then one else zero)) this)
    as (m & Hrun & Hlen & Hcells & _); try done.
  - intros. by apply slot_lt.
  - intros. by apply (slot_inj lay N N).
  - intros r c m Hr Hc Hm. by apply operator_call_assign_insert.
  - exists m. split_and!; [done | done |].
    intros r c Hr Hc. rewrite operator_call_lookup by done.
    by apply Hcells.
Qed.

Lemma Identity_spec N :
  ∃ m, Matrix.Identity lay auto_init indeterminate N = Some m ∧
    well_formed N N m ∧
    ∀ r c, r < N → c < N →
      Matrix.operator_call lay N N m r c
      = Some (if r =? c then one else zero).
Proof.
  unfold Matrix.Identity.
  destruct (Matrix_default_well_formed N N) as (m0 & -> & Hm0). simpl.
  by apply LoadIdentity_spec.
Qed.

Lemma Transposed_spec Rows Cols this :
  well_formed Rows Cols this →
  ∃ t, Matrix.Transposed lay auto_init indeterminate Rows Cols this = Some t ∧
    well_formed Cols Rows t ∧
    ∀ r c, r < Rows → c < Cols →
      Matrix.operator_call lay Cols Rows t c r
      = Matrix.operator_call lay Rows Cols this r c.
Proof.
  intros Hthis. unfold Matrix.Transposed.
  destruct (Matrix_default_well_formed Cols Rows) as (m0 & -> & Hm0). simpl.
  destruct (FOREACH_ROW_COL_writes lay (Cols * Rows) Rows Cols
    (λ r c, slot lay Cols Rows c r)
    (λ r c, entry lay Rows Cols this r c)
    (λ r c result,
       v ← Matrix.operator_call lay Rows Cols this r c;
       Matrix.operator_call_assign lay Cols Rows result c r v) m0)
    as (t & Hrun & Hlen & Hcells & _); try done.
  - intros. by apply slot_lt.
  - intros r c r' c' Hr Hc Hr' Hc' Heq.
    apply (slot_inj lay Cols Rows) in Heq; lia.
  - intros r c m Hr Hc Hm.
    rewrite operator_call_entry by done. simpl.
    by apply operator_call_assign_insert.
  - exists t. split_and!; [done | done |].
    intros r c Hr Hc. rewrite (operator_call_lookup lay Cols Rows) by done.
    rewrite Hcells by done. by rewrite operator_call_entry.
Qed.

End Construction.

(** * The in-place transpose *)

Section InPlaceTranspose.
Context {T : Type} `{Scalar T}.
Implicit Types (m s : list T).

Lemma swap_insert m a b x y :
  m !! a = Some x → m !! b = Some y →
  Matrix.swap m a b = Some (<[b := x]> (<[a := y]> m)).
Proof.
  intros Ha Hb. unfold Matrix.swap, Matrix.load. rewrite Ha, Hb. simpl.
  rewrite store_Some by (by eapply lookup_lt_Some). simpl.
  apply store_Some. rewrite length_insert. by eapply lookup_lt_Some.
Qed.

Lemma transposed_upto_iff N (P Q : nat → nat → Prop)
    `{!∀ r c, Decision (P r c)} m s :
  (∀ r c, r < N → c < N → r ≠ c → P r c ↔ Q r c) →
  transposed_upto N P m s → transposed_upto N Q m s.
Proof.
  intros HPQ [Hlen Hcells]. split; [done |]. intros r c Hr Hc.
  destruct (Hcells r c Hr Hc) as [Hyes Hno].
  destruct (decide (r = c)) as [->|Hne].
  - assert (s !! (c * N + c) = m !! (c * N + c)) as Hdiag
      by (destruct (decide (P c c)); auto).
    by split.
  - split; intros HQ; [apply Hyes | apply Hno]; by rewrite HPQ.
Qed.

Lemma Transpose_step N m s i j :
  i + j < N → 1 ≤ j →
  transposed_upto N (swapped i j) m s →
  ∃ s', Matrix.swap s (i * (N + 1) + j) ((j + i) * N + i) = Some s' ∧
        transposed_upto N (swapped i (S j)) m s'.
Proof.
  intros Hij Hj [Hlen Hcells].
  replace (i * (N + 1) + j) with (i * N + (i + j)) by lia.
  replace ((j + i) * N + i) with ((i + j) * N + i) by lia.
  assert (i * N + (i + j) < N * N) as Halt
    by (apply linear_index_lt; lia).
  assert ((i + j) * N + i < N * N) as Hblt
    by (apply linear_index_lt; lia).
  destruct (lookup_lt_is_Some_2 s (i * N + (i + j))) as [x Hx]; [lia |].
  destruct (lookup_lt_is_Some_2 s ((i + j) * N + i)) as [y Hy]; [lia |].
  exists (<[(i + j) * N + i := x]> (<[i * N + (i + j) := y]> s)).
  split; [by apply swap_insert |].
  split; [by rewrite !length_insert |].
  intros r c Hr Hc.
  destruct (decide (r = i + j ∧ c = i)) as [[-> ->]|Hnb].
  { rewrite list_lookup_insert_eq by (rewrite length_insert; lia).
    destruct (Hcells i (i + j)) as [_ Ha]; [lia | lia |].
    rewrite <- Ha, Hx by (unfold swapped; lia).
    split; [done |]. unfold swapped. lia. }
  rewrite list_lookup_insert_ne
    by (intros Heq; apply (linear_index_inj N) in Heq; lia).
  destruct (decide (r = i ∧ c = i + j)) as [[-> ->]|Hna].
  { rewrite list_lookup_insert_eq by lia.
    destruct (Hcells (i + j) i) as [_ Hb]; [lia | lia |].
    rewrite <- Hb, Hy by (unfold swapped; lia).
    split; [done |]. unfold swapped. lia. }
  rewrite list_lookup_insert_ne
    by (intros Heq; apply (linear_index_inj N) in Heq; lia).
  destruct (Hcells r c Hr Hc) as [Hyes Hno].
  split; intros HP; [apply Hyes | apply Hno]; unfold swapped in *; lia.
Qed.

(** [Transpose()] returns, and exchanges every place of the array with its
    mirror image. *)
Lemma Transpose_array N m :
  length m = N * N →
  ∃ m', Matrix.Transpose N m = Some m' ∧ length m' = N * N ∧
    ∀ r c, r < N → c < N → m' !! (r * N + c) = m !! (c * N + r).
Proof.
  intros Hlen. unfold Matrix.Transpose. setoid_rewrite Transpose_loops_range.
  match goal with |- ∃ m', for_range 0 (N - 1) ?body m = _ ∧ _ =>
    destruct (for_range_inv
      (λ i s, transposed_upto N (swapped i 0) m s) body 0 (N - 1) m)
      as (m' & Hrun & Hm')
  end; [lia | | |].
  - split; [done |]. intros r c Hr Hc. unfold swapped. split; [lia | done].
  - intros i s Hi Hs.
    match goal with |- ∃ s', for_range 1 (N - i) ?body s = _ ∧ _ =>
      destruct (for_range_inv
        (λ j s, transposed_upto N (swapped i j) m s) body 1 (N - i) s)
        as (s' & Hrun & Hs')
    end; [lia | | |].
    + revert Hs. apply transposed_upto_iff; [apply _ |].
      intros r c Hr Hc Hne. unfold swapped. lia.
    + intros j s0 Hj Hs0. apply Transpose_step; [lia | lia | done].
    + exists s'. split; [done |].
      revert Hs'. apply transposed_upto_iff; [apply _ |].
      intros r c Hr Hc Hne. unfold swapped. lia.
  - exists m'. destruct Hm' as [Hlen' Hcells]. split_and!; [done | done |].
    intros r c Hr Hc. destruct (Hcells r c Hr Hc) as [Hyes Hno].
    destruct (decide (r = c)) as [->|Hne].
    + destruct (decide (swapped (N - 1) 0 c c)); auto.
    + apply Hyes. unfold swapped. lia.
Qed.

End InPlaceTranspose.

(** * The calls of [std::swap] made by [Transpose()] *)

Section SwapLog.
Context {A : Type}.

Lemma for_range_log (f : nat → A) lo hi (l0 : list A) :
  lo ≤ hi →
  for_range lo hi (λ i log, Some (log ++ [f i])) l0
  = Some (l0 ++ (f <$> seq lo (hi - lo))).
Proof.
  intros Hle.
  destruct (for_range_inv
    (λ i log, log = l0 ++ (f <$> seq lo (i - lo)))
    (λ i log, Some (log ++ [f i])) lo hi l0) as (log & -> & ->);
    [done | | | done].
  - by rewrite Nat.sub_diag, app_nil_r.
  - intros i log Hi ->. eexists. split; [done |].
    replace (S i - lo) with (S (i - lo)) by lia.
    rewrite seq_S, fmap_app, app_assoc. simpl.
    by replace (lo + (i - lo)) with i by lia.
Qed.

Lemma for_range2_log (f : nat → nat → A) lo hi lo' (hi' : nat → nat)
    (l0 : list A) :
  lo ≤ hi → (∀ i, lo ≤ i < hi → lo' ≤ hi' i) →
  for_range lo hi
    (λ i, for_range lo' (hi' i) (λ j log, Some (log ++ [f i j]))) l0
  = Some (l0 ++
      (seq lo (hi - lo) ≫= λ i, f i <$> seq lo' (hi' i - lo'))).
Proof.
  intros Hle Hinner.
  destruct (for_range_inv
    (λ i log, log = l0 ++
       (seq lo (i - lo) ≫= λ i, f i <$> seq lo' (hi' i - lo')))
    (λ i, for_range lo' (hi' i) (λ j log, Some (log ++ [f i j])))
    lo hi l0) as (log & -> & ->); [done | | | done].
  - by rewrite Nat.sub_diag, app_nil_r.
  - intros i log Hi ->. eexists. split; [by apply for_range_log, Hinner |].
    replace (S i - lo) with (S (i - lo)) by lia.
    rewrite seq_S, bind_app, !app_assoc. simpl.
    replace (lo + (i - lo)) with i by lia.
    by rewrite app_nil_r.
Qed.

End SwapLog.

(** [Transpose()] hands every pair of mirror places to [std::swap], the place
    above the diagonal first, and no pair twice. *)
Lemma Transpose_swaps_spec (N : nat) :
  ∃ log, Matrix.Transpose_swaps N = Some log ∧ NoDup log ∧
    ∀ a b, (a, b) ∈ log ↔
      ∃ r c, r < c ∧ c < N ∧ a = r * N + c ∧ b = c * N + r.
Proof.
  unfold Matrix.Transpose_swaps. rewrite Transpose_loops_range.
  rewrite (for_range2_log
    (λ i j, (i * (N + 1) + j, (j + i) * N + i)) 0 (N - 1) 1 (λ i, N - i))
    by lia.
  eexists. split; [done |]. simpl. split.
  - apply NoDup_bind; [| |apply NoDup_seq].
    + intros i1 i2 [a b] Hi1 Hi2 H1 H2.
      apply elem_of_seq in Hi1, Hi2.
      apply list_elem_of_fmap in H1 as (j1 & Heq1 & Hj1).
      apply list_elem_of_fmap in H2 as (j2 & Heq2 & Hj2).
      apply elem_of_seq in Hj1, Hj2.
      injection Heq1 as -> ->. injection Heq2 as Heq _.
      assert (i1 * N + (i1 + j1) = i2 * N + (i2 + j2)) as Hlin by lia.
      apply (linear_index_inj N) in Hlin; lia.
    + intros i Hi. apply NoDup_fmap_2_strong; [|apply NoDup_seq].
      intros j1 j2 _ _ Heq. injection Heq as Heq _. lia.
  - intros a b. rewrite list_elem_of_bind. split.
    + intros (i & Hab & Hi). apply elem_of_seq in Hi.
      apply list_elem_of_fmap in Hab as (j & Heq & Hj).
      apply elem_of_seq in Hj. injection Heq as -> ->.
      exists i, (i + j). split_and!; lia.
    + intros (r & c & Hrc & Hc & -> & ->).
      exists r. split; [|apply elem_of_seq; lia].
      apply list_elem_of_fmap. exists (c - r).
      split; [|apply elem_of_seq; lia].
      f_equal; replace c with (r + (c - r)) at 1 by lia; lia.
Qed.

(** * The initializer chain *)

Lemma cursor_in_range (Rows Cols n : nat) :
  n < Rows * Cols → n / Cols < Rows ∧ n mod Cols < Cols.
Proof.
  intros Hn. assert (0 < Cols) by nia. split.
  - apply Nat.Div0.div_lt_upper_bound. lia.
  - apply Nat.mod_upper_bound. lia.
Qed.

Lemma cursor_slot_inj lay (Rows Cols n k : nat) :
  n < Rows * Cols → k < Rows * Cols →
  slot lay Rows Cols (n / Cols) (n mod Cols)
  = slot lay Rows Cols (k / Cols) (k mod Cols) →
  n = k.
Proof.
  intros Hn Hk Heq.
  destruct (cursor_in_range Rows Cols n Hn), (cursor_in_range Rows Cols k Hk).
  apply slot_inj in Heq as [Hdiv Hmod]; try done.
  rewrite (Nat.div_mod_eq n Cols), (Nat.div_mod_eq k Cols). congruence.
Qed.

Section InitializerChain.
Context {T : Type} `{Scalar T}.
Variable lay : Layout.
Implicit Types (m : list T) (values : list T).

Lemma operator_comma_insert Rows Cols m n v :
  well_formed Rows Cols m → n < Rows * Cols →
  Matrix.operator_comma lay Rows Cols
    {| Matrix.matrix_ := m; Matrix.element_ := n |} v
  = Some {| Matrix.matrix_ :=
              <[slot lay Rows Cols (n / Cols) (n mod Cols) := v]> m;
            Matrix.element_ := S n |}.
Proof.
  intros Hm Hn. destruct (cursor_in_range Rows Cols n Hn).
  unfold Matrix.operator_comma. simpl.
  by rewrite operator_call_assign_insert.
Qed.

(** Feeding [values] to a chain whose cursor is at [n] writes them to the
    logical places [n], [n + 1], ... in row-major numbering and leaves the
    other places as they are. *)
Lemma commas_spec Rows Cols values : ∀ m n,
  well_formed Rows Cols m → n + length values ≤ Rows * Cols →
  ∃ m', Matrix.commas lay Rows Cols
          {| Matrix.matrix_ := m; Matrix.element_ := n |} values
        = Some {| Matrix.matrix_ := m';
                  Matrix.element_ := n + length values |} ∧
    well_formed Rows Cols m' ∧
    (∀ k v, values !! k = Some v →
       Matrix.operator_call lay Rows Cols m'
         ((n + k) / Cols) ((n + k) mod Cols) = Some v) ∧
    (∀ k, k < Rows * Cols → k < n ∨ n + length values ≤ k →
       Matrix.operator_call lay Rows Cols m' (k / Cols) (k mod Cols)
       = Matrix.operator_call lay Rows Cols m (k / Cols) (k mod Cols)).
Proof.
  induction values as [|v values IH]; intros m n Hm Hlen; simpl in *.
  - exists m. rewrite Nat.add_0_r. split_and!; try done.
  - rewrite operator_comma_insert by (done || lia). simpl.
    destruct (IH (<[slot lay Rows Cols (n / Cols) (n mod Cols) := v]> m)
                 (S n)) as (m' & -> & Hm' & Hvals & Hframe);
      [by apply well_formed_insert | lia |].
    exists m'. replace (S n + length values) with (n + S (length values))
      by lia.
    split_and!; [done | done | |].
    + intros [|k] w Hw; simpl in Hw.
      * injection Hw as ->. rewrite Nat.add_0_r.
        destruct (cursor_in_range Rows Cols n) as [Hr Hc]; [lia |].
        rewrite Hframe by lia.
        rewrite operator_call_lookup by done.
        apply list_lookup_insert_eq. rewrite Hm. by apply slot_lt.
      * replace (n + S k) with (S n + k) by lia. by apply Hvals.
    + intros k Hk Hout.
      destruct (cursor_in_range Rows Cols k) as [Hr Hc]; [lia |].
      rewrite Hframe by lia.
      rewrite !operator_call_lookup by done.
      apply list_lookup_insert_ne. intros Heq.
      apply cursor_slot_inj in Heq; lia.
Qed.

(** The whole expression [matrix << v0, v1, ...]. *)
Lemma chain_spec Rows Cols m v0 values :
  well_formed Rows Cols m → length (v0 :: values) ≤ Rows * Cols →
  ∃ m', Matrix.chain lay Rows Cols m v0 values = Some m' ∧
    well_formed Rows Cols m' ∧
    (∀ n v, (v0 :: values) !! n = Some v →
       Matrix.operator_call lay Rows Cols m' (n / Cols) (n mod Cols)
       = Some v) ∧
    (∀ n, length (v0 :: values) ≤ n → n < Rows * Cols →
       Matrix.operator_call lay Rows Cols m' (n / Cols) (n mod Cols)
       = Matrix.operator_call lay Rows Cols m (n / Cols) (n mod Cols)).
Proof.
  intros Hm Hlen.
  destruct (commas_spec Rows Cols (v0 :: values) m 0)
    as (m' & Hrun & Hm' & Hvals & Hframe); [done | done |].
  exists m'. split_and!; [| done | |].
  - unfold Matrix.chain, Matrix.operator_shl.
    simpl in Hrun.
    destruct (Matrix.operator_comma _ _ _ _ _) as [ini|]; [|done].
    simpl in *. by rewrite Hrun.
  - intros n v Hv. by apply (Hvals n v).
  - intros n Hn Hlt. apply Hframe; [done | lia].
Qed.

End InitializerChain.

(** * Reading a whole matrix *)

Section Rows.
Context {T : Type} `{Scalar T}.
Implicit Types (m : list T).

Lemma entry_operator_call lay Rows Cols m r c v :
  Matrix.operator_call lay Rows Cols m r c = Some v →
  entry lay Rows Cols m r c = v.
Proof. unfold entry. by intros ->. Qed.

Lemma to_rows_lookup lay Rows Cols m r c :
  r < Rows → c < Cols →
  to_rows lay Rows Cols m !! r ≫= (.!! c)
  = Some (entry lay Rows Cols m r c).
Proof.
  intros Hr Hc. unfold to_rows.
  rewrite list_lookup_fmap, lookup_seq_lt by done. simpl.
  by rewrite list_lookup_fmap, lookup_seq_lt.
Qed.

(** A matrix is determined by its rows. *)
Lemma to_rows_inj lay Rows Cols m1 m2 :
  well_formed Rows Cols m1 → well_formed Rows Cols m2 →
  to_rows lay Rows Cols m1 = to_rows lay Rows Cols m2 → m1 = m2.
Proof.
  intros Hm1 Hm2 Hrows. apply (matrix_ext lay Rows Cols); [done | done |].
  intros r c Hr Hc. rewrite !operator_call_entry by done. f_equal.
  pose proof (to_rows_lookup lay Rows Cols m1 r c Hr Hc) as H1.
  pose proof (to_rows_lookup lay Rows Cols m2 r c Hr Hc) as H2.
  rewrite Hrows in H1. congruence.
Qed.

End Rows.

(** * The identity matrix is neutral for the product *)

Section IdentityProduct.
Context {T : Type} `{ExactScalar T}.
Variable lay : Layout.
Implicit Types (m id : list T).

Lemma dot_identity_l N id m r c :
  (∀ i j, i < N → j < N →
     entry lay N N id i j = if i =? j then one else zero) →
  r < N →
  dot lay N N N id m r c = entry lay N N m r c.
Proof.
  intros Hid Hr. unfold dot.
  set (f := λ acc i,
    add acc (mul (entry lay N N id r i) (entry lay N N m i c))).
  assert (∀ k, k ≤ N →
    foldl f zero (seq 0 k)
    = if r <? k then entry lay N N m r c else zero) as Hpartial.
  { induction k as [|k IH]; intros Hk; [done |].
    rewrite seq_S, foldl_snoc, IH by lia. unfold f.
    change (0 + k) with k. rewrite Hid by lia.
    destruct (Nat.eqb_spec r k) as [->|Hne].
    - rewrite Nat.ltb_irrefl, mul_one_l, add_zero_l.
      by destruct (Nat.ltb_spec k (S k)); [|lia].
    - rewrite mul_zero_l, add_zero_r.
      destruct (Nat.ltb_spec r k), (Nat.ltb_spec r (S k)); done || lia. }
  rewrite Hpartial by done.
  by destruct (Nat.ltb_spec r N); [|lia].
Qed.

Lemma dot_identity_r N id m r c :
  (∀ i j, i < N → j < N →
     entry lay N N id i j = if i =? j then one else zero) →
  c < N →
  dot lay N N N m id r c = entry lay N N m r c.
Proof.
  intros Hid Hc. unfold dot.
  set (f := λ acc i,
    add acc (mul (entry lay N N m r i) (entry lay N N id i c))).
  assert (∀ k, k ≤ N →
    foldl f zero (seq 0 k)
    = if c <? k then entry lay N N m r c else zero) as Hpartial.
  { induction k as [|k IH]; intros Hk; [done |].
    rewrite seq_S, foldl_snoc, IH by lia. unfold f.
    change (0 + k) with k. rewrite Hid by lia.
    destruct (Nat.eqb_spec k c) as [->|Hne].
    - rewrite Nat.ltb_irrefl, mul_one_r, add_zero_l.
      by destruct (Nat.ltb_spec c (S c)); [|lia].
    - rewrite mul_zero_r, add_zero_r.
      destruct (Nat.ltb_spec c k), (Nat.ltb_spec c (S k)); done || lia. }
  rewrite Hpartial by done.
  by destruct (Nat.ltb_spec c N); [|lia].
Qed.

End IdentityProduct.

(** * Results that do not depend on indeterminate storage *)

Section Determinate.
Context {T : Type} `{Scalar T}.
Variable lay : Layout.
Variables auto_init auto_init' : bool.
Variables indeterminate indeterminate' : nat → list T.
Hypothesis indeterminate_length : ∀ n, length (indeterminate n) = n.
Hypothesis indeterminate_length' : ∀ n, length (indeterminate' n) = n.
Implicit Types (a b m : list T).

Lemma operator_mul_determinate Rows K Cols a b :
  well_formed Rows K a → well_formed K Cols b →
  Matrix.operator_mul lay indeterminate Rows K Cols a b
  = Matrix.operator_mul lay indeterminate' Rows K Cols a b.
Proof.
  intros Ha Hb.
  destruct (operator_mul_spec lay indeterminate indeterminate_length
              Rows K Cols a b) as (p & -> & Hp & Hcells); [done | done |].
  destruct (operator_mul_spec lay indeterminate' indeterminate_length'
              Rows K Cols a b) as (p' & -> & Hp' & Hcells'); [done | done |].
  f_equal. apply (matrix_ext lay Rows Cols); [done | done |].
  intros r c Hr Hc. by rewrite Hcells, Hcells'.
Qed.

Lemma Transposed_determinate Rows Cols m :
  well_formed Rows Cols m →
  Matrix.Transposed lay auto_init indeterminate Rows Cols m
  = Matrix.Transposed lay auto_init' indeterminate' Rows Cols m.
Proof.
  intros Hm.
  destruct (Transposed_spec lay auto_init indeterminate indeterminate_length
              Rows Cols m) as (t & -> & Ht & Hcells); [done |].
  destruct (Transposed_spec lay auto_init' indeterminate'
              indeterminate_length' Rows Cols m)
    as (t' & -> & Ht' & Hcells'); [done |].
  f_equal. apply (matrix_ext lay Cols Rows); [done | done |].
  intros c r Hc Hr. by rewrite Hcells, Hcells'.
Qed.

Lemma Identity_determinate N :
  Matrix.Identity lay auto_init indeterminate N
  = Matrix.Identity lay auto_init' indeterminate' N.
Proof.
  destruct (Identity_spec lay auto_init indeterminate indeterminate_length N)
    as (i1 & -> & Hi1 & Hcells).
  destruct (Identity_spec lay auto_init' indeterminate'
              indeterminate_length' N) as (i2 & -> & Hi2 & Hcells').
  f_equal. apply (matrix_ext lay N N); [done | done |].
  intros r c Hr Hc. by rewrite Hcells, Hcells'.
Qed.

End Determinate.

Section TransposeLogical.
Context {T : Type} `{Scalar T}.
Variable lay : Layout.
Implicit Types (m : list T).

(** Read through [operator ()], [Transpose()] mirrors the matrix, in either
    layout. *)
Lemma Transpose_spec N m :
  well_formed N N m →
  ∃ m', Matrix.Transpose N m = Some m' ∧ well_formed N N m' ∧
    ∀ r c, r < N → c < N →
      Matrix.operator_call lay N N m' r c = Matrix.operator_call lay N N m c r.
Proof.
  intros Hm. destruct (Transpose_array N m Hm) as (m' & Hrun & Hm' & Hcells).
  exists m'. split_and!; [done | done |].
  intros r c Hr Hc. rewrite !operator_call_lookup by done.
  destruct lay; simpl; by apply Hcells.
Qed.

(** Where the calls of [std::swap] land, in terms of logical indices. *)
Lemma Transpose_swaps_logical N :
  ∃ log, Matrix.Transpose_swaps N = Some log ∧ NoDup log ∧
    (∀ a b, (a, b) ∈ log →
       ∃ r c, r < N ∧ c < N ∧ r ≠ c ∧
         a = slot lay N N r c ∧ b = slot lay N N c r) ∧
    (∀ r c, r < N → c < N → r ≠ c →
       ((slot lay N N r c, slot lay N N c r) ∈ log ∨
        (slot lay N N c r, slot lay N N r c) ∈ log) ∧
       ¬ ((slot lay N N r c, slot lay N N c r) ∈ log ∧
          (slot lay N N c r, slot lay N N r c) ∈ log)).
Proof.
  destruct (Transpose_swaps_spec N) as (log & Hrun & Hnodup & Hlog).
  exists log. split_and!; [done | done | |].
  - intros a b (r & c & Hrc & Hc & -> & ->)%Hlog.
    destruct lay; [exists r, c | exists c, r]; simpl; split_and!; lia.
  - assert (∀ r c, r < N → c < N → c < r → (r * N + c, c * N + r) ∉ log)
      as Hlower.
    { intros r c Hr Hc Hcr (r' & c' & Hrc' & Hc' & Ha & Hb)%Hlog.
      apply (linear_index_inj N) in Ha; lia. }
    intros r c Hr Hc Hne.
    destruct (decide (r < c)) as [Hlt|Hge]; destruct lay; simpl; split.
    + left. apply Hlog. exists r, c. split_and!; lia.
    + intros [_ Hin]. by apply (Hlower c r) in Hin.
    + right. apply Hlog. exists r, c. split_and!; lia.
    + intros [Hin _]. by apply (Hlower c r) in Hin.
    + right. apply Hlog. exists c, r. split_and!; lia.
    + intros [Hin _]. apply (Hlower r c) in Hin; done || lia.
    + left. apply Hlog. exists c, r. split_and!; lia.
    + intros [_ Hin]. apply (Hlower r c) in Hin; done || lia.
Qed.

End TransposeLogical.

Lemma cursor_of_index (Cols r c : nat) :
  c < Cols → (r * Cols + c) / Cols = r ∧ (r * Cols + c) mod Cols = c.
Proof.
  intros Hc. split; symmetry.
  - apply (Nat.div_unique _ _ _ c); lia.
  - apply (Nat.mod_unique _ _ r); lia.
Qed.

#[export] Instance Z_ExactScalar : ExactScalar Z.
Proof. split; intros x; simpl; lia. Qed.

(** * The members built on the algebra functions *)

Section Algebra.
Context {T : Type} `{Scalar T}.
Variable lay : Layout.
Variable auto_init : bool.
Variable indeterminate : nat → list T.
Hypothesis indeterminate_length : ∀ n, length (indeterminate n) = n.
Variable Vec : Type.
Variable Gs_Inverse : nat → list T → list T → list T * bool.
Variable Gs_MakeFreeRotation : nat → list T → Vec → T → list T.
Implicit Types (m : list T).

Lemma operator_mul_assign_spec N m rhs :
  well_formed N N m → well_formed N N rhs →
  ∃ p, Matrix.operator_mul_assign lay indeterminate N m rhs = Some p ∧
    Matrix.operator_mul lay indeterminate N N N m rhs = Some p ∧
    well_formed N N p ∧
    ∀ r c, r < N → c < N →
      Matrix.operator_call lay N N p r c = Some (dot lay N N N m rhs r c).
Proof.
  intros Hm Hrhs. unfold Matrix.operator_mul_assign.
  destruct (operator_mul_spec lay indeterminate indeterminate_length
              N N N m rhs) as (p & -> & Hp & Hdots); [done | done |].
  simpl. exists p. by rewrite operator_assign_eq.
Qed.

Lemma MakeInverse_eq N m :
  well_formed N N m →
  Matrix.MakeInverse indeterminate Gs_Inverse N m = Some (Gs_Inverse N m m).
Proof.
  intros Hm. unfold Matrix.MakeInverse.
  by rewrite Matrix_copy_eq.
Qed.

Lemma Inverse_eq N m :
  well_formed N N m →
  Matrix.Inverse indeterminate Gs_Inverse N m
  = Some (m, (Gs_Inverse N m m).1).
Proof.
  intros Hm. unfold Matrix.Inverse.
  rewrite Matrix_copy_eq by done. simpl.
  by rewrite MakeInverse_eq.
Qed.

Lemma RotateFree_spec N m axis angle :
  (∀ id, Matrix.Identity lay auto_init indeterminate N = Some id →
         well_formed N N (Gs_MakeFreeRotation N id axis angle)) →
  well_formed N N m →
  ∃ id m', Matrix.Identity lay auto_init indeterminate N = Some id ∧
    well_formed N N id ∧
    (∀ r c, r < N → c < N →
       Matrix.operator_call lay N N id r c
       = Some (if r =? c then one else zero)) ∧
    Matrix.RotateFree lay auto_init indeterminate Vec Gs_MakeFreeRotation
      N m axis angle = Some m' ∧
    Matrix.operator_mul lay indeterminate N N N m
      (Gs_MakeFreeRotation N id axis angle) = Some m' ∧
    well_formed N N m' ∧
    ∀ r c, r < N → c < N →
      Matrix.operator_call lay N N m' r c
      = Some (dot lay N N N m (Gs_MakeFreeRotation N id axis angle) r c).
Proof.
  intros Hrot Hm. unfold Matrix.RotateFree.
  destruct (Identity_spec lay auto_init indeterminate indeterminate_length N)
    as (id & Hid & Hwf & Hcells).
  rewrite Hid. simpl.
  destruct (operator_mul_assign_spec N m
              (Gs_MakeFreeRotation N id axis angle))
    as (m' & Hrun & Hmul & Hm' & Hdots); [done | by apply Hrot |].
  by exists id, m'.
Qed.

End Algebra.

(** * The two example algebra functions *)

Section Chain4.
Context {T : Type} `{Scalar T}.
Variable lay : Layout.

Lemma dot_2 (a b : list T) r c :
  dot lay 2 2 2 a b r c
  = add (add zero (mul (entry lay 2 2 a r 0) (entry lay 2 2 b 0 c)))
        (mul (entry lay 2 2 a r 1) (entry lay 2 2 b 1 c)).
Proof. reflexivity. Qed.

Lemma chain_2x2 (m : list T) (v0 v1 v2 v3 : T) :
  well_formed 2 2 m →
  ∃ m', Matrix.chain lay 2 2 m v0 [v1; v2; v3] = Some m' ∧
    well_formed 2 2 m' ∧
    entry lay 2 2 m' 0 0 = v0 ∧ entry lay 2 2 m' 0 1 = v1 ∧
    entry lay 2 2 m' 1 0 = v2 ∧ entry lay 2 2 m' 1 1 = v3.
Proof.
  intros Hm.
  destruct (chain_spec lay 2 2 m v0 [v1; v2; v3] Hm)
    as (m' & Hrun & Hm' & Hvals & _); [simpl; lia |].
  exists m'. split_and!; [done | done | | | |]; apply entry_operator_call.
  - by apply (Hvals 0).
  - by apply (Hvals 1).
  - by apply (Hvals 2).
  - by apply (Hvals 3).
Qed.

End Chain4.

Lemma quarter_turn_well_formed lay (mat : list Z) axis angle :
  well_formed 2 2 mat → well_formed 2 2 (quarter_turn lay 2 mat axis angle).
Proof.
  intros Hmat. unfold quarter_turn.
  by destruct (chain_2x2 lay mat 0%Z (-1)%Z 1%Z 0%Z Hmat) as (m' & -> & ? & _).
Qed.

Lemma inverse2_unit_determinant lay (out in_ : list Z) :
  well_formed 2 2 out →
  let det := (entry lay 2 2 in_ 0 0 * entry lay 2 2 in_ 1 1
              - entry lay 2 2 in_ 0 1 * entry lay 2 2 in_ 1 0)%Z in
  det = 1%Z ∨ det = (-1)%Z →
  (inverse2 lay 2 out in_).2 = true ∧
  well_formed 2 2 (inverse2 lay 2 out in_).1 ∧
  is_inverse lay 2 in_ (inverse2 lay 2 out in_).1.
Proof.
  intros Hout det Hdet. unfold inverse2. fold det.
  assert (((det =? 1) || (det =? -1))%Z = true) as ->.
  { destruct Hdet as [->| ->]; reflexivity. }
  simpl.
  destruct (chain_2x2 lay out
    (det * entry lay 2 2 in_ 1 1)%Z (- (det * entry lay 2 2 in_ 0 1))%Z
    (- (det * entry lay 2 2 in_ 1 0))%Z (det * entry lay 2 2 in_ 0 0)%Z Hout)
    as (res & -> & Hres & H00 & H01 & H10 & H11).
  simpl. split_and!; [done | done |].
  intros r c Hr Hc.
  assert (r = 0 ∨ r = 1) as [-> | ->] by lia;
    assert (c = 0 ∨ c = 1) as [-> | ->] by lia;
    rewrite !dot_2, ?H00, ?H01, ?H10, ?H11;
    clear H00 H01 H10 H11; subst det; revert Hdet;
    generalize (entry lay 2 2 in_ 0 0) (entry lay 2 2 in_ 0 1)
               (entry lay 2 2 in_ 1 0) (entry lay 2 2 in_ 1 1);
    intros a b c d; simpl;
    remember (a * d - b * c)%Z as det eqn:Hdef;
    intros [-> | ->]; split; lia.
Qed.

Lemma invertible_unit_determinant lay (in_ : list Z) :
  invertible lay 2 in_ →
  let det := (entry lay 2 2 in_ 0 0 * entry lay 2 2 in_ 1 1
              - entry lay 2 2 in_ 0 1 * entry lay 2 2 in_ 1 0)%Z in
  det = 1%Z ∨ det = (-1)%Z.
Proof.
  intros (inv & _ & Hinv) det. subst det.
  destruct (Hinv 0 0) as [H00 _]; [lia | lia |].
  destruct (Hinv 0 1) as [H01 _]; [lia | lia |].
  destruct (Hinv 1 0) as [H10 _]; [lia | lia |].
  destruct (Hinv 1 1) as [H11 _]; [lia | lia |].
  rewrite dot_2 in H00, H01, H10, H11. revert H00 H01 H10 H11.
  generalize (entry lay 2 2 in_ 0 0) (entry lay 2 2 in_ 0 1)
             (entry lay 2 2 in_ 1 0) (entry lay 2 2 in_ 1 1)
             (entry lay 2 2 inv 0 0) (entry lay 2 2 inv 0 1)
             (entry lay 2 2 inv 1 0) (entry lay 2 2 inv 1 1).
  simpl. intros a b c d e f g h H00 H01 H10 H11.
  apply (Z.mul_eq_1 _ (e * h - f * g)%Z).
  transitivity ((a * e + b * g) * (c * f + d * h)
                - (a * f + b * h) * (c * e + d * g))%Z; [ring |].
  replace (a * e + b * g)%Z with 1%Z by lia.
  replace (c * f + d * h)%Z with 1%Z by lia.
  replace (a * f + b * h)%Z with 0%Z by lia.
  lia.
Qed.

(** [inverse2] meets the contract of [Gs::Inverse] on 2 by 2 matrices. *)
Lemma inverse2_contract lay : Inverse_contract lay 2 (inverse2 lay).
Proof.
  intros out in_ Hout Hin.
  set (det := (entry lay 2 2 in_ 0 0 * entry lay 2 2 in_ 1 1
               - entry lay 2 2 in_ 0 1 * entry lay 2 2 in_ 1 0)%Z).
  destruct (decide (det = 1%Z ∨ det = (-1)%Z)) as [Hunit|Hnot].
  - destruct (inverse2_unit_determinant lay out in_ Hout Hunit)
      as (Hflag & Hwf & Hinv).
    split_and!; [done | done |].
    intros Hsing. destruct Hsing. by exists (inverse2 lay 2 out in_).1.
  - assert (inverse2 lay 2 out in_ = (out, false)) as ->.
    { unfold inverse2. fold det.
      destruct (Z.eqb_spec det 1), (Z.eqb_spec det (-1)); simpl;
        done || (destruct Hnot; auto). }
    simpl. split_and!; [done | | done].
    intros Hinv. destruct Hnot. by apply invertible_unit_determinant.
Qed.

(** * The two storage layouts *)

Section Agreement.
Context {T : Type} `{Scalar T}.
Implicit Types (mR mC : list T).

Lemma agree_lookup Rows Cols mR mC r c :
  agree Rows Cols mR mC → r < Rows → c < Cols →
  mR !! (r * Cols + c) = mC !! (c * Rows + r).
Proof.
  intros (_ & _ & Hsame) Hr Hc. specialize (Hsame r c Hr Hc).
  by rewrite !operator_call_lookup in Hsame.
Qed.

Lemma agree_intro Rows Cols mR mC :
  well_formed Rows Cols mR → well_formed Rows Cols mC →
  (∀ r c, r < Rows → c < Cols →
     mR !! (r * Cols + c) = mC !! (c * Rows + r)) →
  agree Rows Cols mR mC.
Proof.
  intros HR HC Hsame. split_and!; [done | done |].
  intros r c Hr Hc. rewrite !operator_call_lookup by done. by apply Hsame.
Qed.

Lemma agree_entry Rows Cols mR mC r c :
  agree Rows Cols mR mC → r < Rows → c < Cols →
  entry RowMajor Rows Cols mR r c = entry ColumnMajor Rows Cols mC r c.
Proof. intros (_ & _ & Hsame) Hr Hc. unfold entry. by rewrite Hsame. Qed.

(** Matrices whose entries are given by the same function of the logical
    index agree. *)
Lemma agree_cells Rows Cols mR mC (F : nat → nat → T) :
  well_formed Rows Cols mR → well_formed Rows Cols mC →
  (∀ r c, r < Rows → c < Cols →
     Matrix.operator_call RowMajor Rows Cols mR r c = Some (F r c)) →
  (∀ r c, r < Rows → c < Cols →
     Matrix.operator_call ColumnMajor Rows Cols mC r c = Some (F r c)) →
  agree Rows Cols mR mC.
Proof.
  intros HR HC HcellsR HcellsC. split_and!; [done | done |].
  intros r c Hr Hc. by rewrite HcellsR, HcellsC.
Qed.

Lemma agree_insert Rows Cols mR mC r c v :
  agree Rows Cols mR mC → r < Rows → c < Cols →
  agree Rows Cols (<[slot RowMajor Rows Cols r c := v]> mR)
                  (<[slot ColumnMajor Rows Cols r c := v]> mC).
Proof.
  intros Hagree Hr Hc. pose proof Hagree as (HR & HC & _).
  apply agree_intro; [by apply well_formed_insert.. |].
  intros r' c' Hr' Hc'.
  pose proof (slot_lt RowMajor Rows Cols r c Hr Hc) as HltR.
  pose proof (slot_lt ColumnMajor Rows Cols r c Hr Hc) as HltC.
  destruct (decide (r' = r ∧ c' = c)) as [[-> ->]|Hne].
  - by rewrite !list_lookup_insert_eq by (rewrite ?HR, ?HC; done).
  - rewrite !list_lookup_insert_ne; [by apply agree_lookup | |].
    + intros Heq. apply (slot_inj ColumnMajor Rows Cols r c r' c') in Heq;
        done || lia.
    + intros Heq. apply (slot_inj RowMajor Rows Cols r c r' c') in Heq;
        done || lia.
Qed.

Lemma agree_zip_with (f : T → T → T) Rows Cols mR mC rhsR rhsC :
  agree Rows Cols mR mC → agree Rows Cols rhsR rhsC →
  agree Rows Cols (zip_with f mR rhsR) (zip_with f mC rhsC).
Proof.
  intros Hm Hrhs.
  pose proof Hm as (HmR & HmC & _). pose proof Hrhs as (HrR & HrC & _).
  apply agree_intro.
  - unfold well_formed in *. rewrite length_zip_with. lia.
  - unfold well_formed in *. rewrite length_zip_with. lia.
  - intros r c Hr Hc. rewrite !lookup_zip_with.
    by rewrite (agree_lookup Rows Cols mR mC),
               (agree_lookup Rows Cols rhsR rhsC).
Qed.

Lemma agree_fmap (f : T → T) Rows Cols mR mC :
  agree Rows Cols mR mC → agree Rows Cols (f <$> mR) (f <$> mC).
Proof.
  intros Hm. pose proof Hm as (HmR & HmC & _). apply agree_intro.
  - unfold well_formed. by rewrite length_fmap.
  - unfold well_formed. by rewrite length_fmap.
  - intros r c Hr Hc. rewrite !list_lookup_fmap.
    by rewrite (agree_lookup Rows Cols mR mC).
Qed.

Lemma agree_replicate Rows Cols (v : T) :
  agree Rows Cols (replicate (Rows * Cols) v) (replicate (Rows * Cols) v).
Proof.
  apply agree_intro; [apply length_replicate.. |].
  intros r c Hr Hc. rewrite !lookup_replicate_2; [done | |].
  - apply (slot_lt ColumnMajor Rows Cols r c Hr Hc).
  - apply (slot_lt RowMajor Rows Cols r c Hr Hc).
Qed.

Lemma foldl_seq_ext {A : Type} (f g : A → nat → A) (z : A) (n : nat) :
  (∀ i acc, i < n → f acc i = g acc i) →
  foldl f z (seq 0 n) = foldl g z (seq 0 n).
Proof.
  induction n as [|n IH]; intros Hext; [done |].
  rewrite seq_S, !foldl_snoc, IH by (intros; apply Hext; lia).
  apply Hext. simpl. lia.
Qed.

Lemma agree_dot Rows K Cols aR aC bR bC r c :
  agree Rows K aR aC → agree K Cols bR bC → r < Rows → c < Cols →
  dot RowMajor Rows K Cols aR bR r c = dot ColumnMajor Rows K Cols aC bC r c.
Proof.
  intros Ha Hb Hr Hc. unfold dot. apply foldl_seq_ext.
  intros i acc Hi.
  by rewrite (agree_entry Rows K aR aC), (agree_entry K Cols bR bC).
Qed.

End Agreement.

Section TraceSum.
Context {T : Type} `{Scalar T}.

Lemma Trace_spec lay N (m : list T) :
  well_formed N N m →
  Matrix.Trace lay N m
  = Some (foldl (λ acc i, add acc (entry lay N N m i i)) zero (seq 0 N)).
Proof.
  intros Hm. unfold Matrix.Trace.
  match goal with |- for_range 0 N ?body ?start = _ =>
    destruct (for_range_inv
      (λ i acc,
         acc = foldl (λ acc i, add acc (entry lay N N m i i)) zero (seq 0 i))
      body 0 N start) as (t & -> & ->)
  end; [lia | done | | done].
  intros i acc Hi ->. eexists. split.
  - by rewrite operator_call_entry by (done || lia).
  - by rewrite seq_S, foldl_snoc.
Qed.

End TraceSum.

Section MembersAgree.
Context {T : Type} `{Scalar T}.
Variables aiR aiC : bool.
Variables indR indC : nat → list T.
Hypothesis indR_length : ∀ n, length (indR n) = n.
Hypothesis indC_length : ∀ n, length (indC n) = n.
Implicit Types (mR mC rhsR rhsC : list T).

Lemma results_agree_intro Rows Cols (resR resC : option (list T)) mR mC :
  resR = Some mR → resC = Some mC → agree Rows Cols mR mC →
  results_agree Rows Cols resR resC.
Proof. intros -> -> Hagree. by exists mR, mC. Qed.

Lemma agree_operator_call_assign Rows Cols mR mC r c v :
  agree Rows Cols mR mC → r < Rows → c < Cols →
  results_agree Rows Cols
    (Matrix.operator_call_assign RowMajor Rows Cols mR r c v)
    (Matrix.operator_call_assign ColumnMajor Rows Cols mC r c v).
Proof.
  intros Hm Hr Hc. pose proof Hm as (HR & HC & _).
  eapply results_agree_intro;
    [by apply operator_call_assign_insert..
    | by apply agree_insert].
Qed.

Lemma agree_Reset Rows Cols mR mC :
  agree Rows Cols mR mC →
  results_agree Rows Cols (Matrix.Reset Rows Cols mR)
                          (Matrix.Reset Rows Cols mC).
Proof.
  intros (HR & HC & _).
  eapply results_agree_intro; [by apply Reset_eq.. | apply agree_replicate].
Qed.

Lemma agree_Matrix_default Rows Cols :
  results_agree Rows Cols (Matrix.Matrix_default true indR Rows Cols)
                          (Matrix.Matrix_default true indC Rows Cols).
Proof.
  unfold Matrix.Matrix_default.
  eapply results_agree_intro;
    [apply Reset_eq, indR_length | apply Reset_eq, indC_length
    | apply agree_replicate].
Qed.

Lemma agree_Matrix_copy Rows Cols mR mC :
  agree Rows Cols mR mC →
  results_agree Rows Cols (Matrix.Matrix_copy indR Rows Cols mR)
                          (Matrix.Matrix_copy indC Rows Cols mC).
Proof.
  intros Hm. pose proof Hm as (HR & HC & _).
  eapply results_agree_intro; [by apply Matrix_copy_eq.. | done].
Qed.

Lemma agree_operator_assign Rows Cols mR mC rhsR rhsC :
  agree Rows Cols mR mC → agree Rows Cols rhsR rhsC →
  results_agree Rows Cols (Matrix.operator_assign Rows Cols mR rhsR)
                          (Matrix.operator_assign Rows Cols mC rhsC).
Proof.
  intros (HR & HC & _) Hrhs. pose proof Hrhs as (HrR & HrC & _).
  eapply results_agree_intro; [by apply operator_assign_eq.. | done].
Qed.

Lemma agree_operator_add_assign Rows Cols mR mC rhsR rhsC :
  agree Rows Cols mR mC → agree Rows Cols rhsR rhsC →
  results_agree Rows Cols (Matrix.operator_add_assign Rows Cols mR rhsR)
                          (Matrix.operator_add_assign Rows Cols mC rhsC).
Proof.
  intros Hm Hrhs.
  pose proof Hm as (HR & HC & _). pose proof Hrhs as (HrR & HrC & _).
  eapply results_agree_intro;
    [by apply operator_add_assign_eq.. | by apply agree_zip_with].
Qed.

Lemma agree_operator_sub_assign Rows Cols mR mC rhsR rhsC :
  agree Rows Cols mR mC → agree Rows Cols rhsR rhsC →
  results_agree Rows Cols (Matrix.operator_sub_assign Rows Cols mR rhsR)
                          (Matrix.operator_sub_assign Rows Cols mC rhsC).
Proof.
  intros Hm Hrhs.
  pose proof Hm as (HR & HC & _). pose proof Hrhs as (HrR & HrC & _).
  eapply results_agree_intro;
    [by apply operator_sub_assign_eq.. | by apply agree_zip_with].
Qed.

Lemma agree_operator_mul_assign_scalar Rows Cols mR mC (k : T) :
  agree Rows Cols mR mC →
  results_agree Rows Cols
    (Matrix.operator_mul_assign_scalar Rows Cols mR (Matrix.Elsewhere k))
    (Matrix.operator_mul_assign_scalar Rows Cols mC (Matrix.Elsewhere k)).
Proof.
  intros Hm. pose proof Hm as (HR & HC & _).
  eapply results_agree_intro;
    [by apply operator_mul_assign_scalar_eq.. | by apply agree_fmap].
Qed.

Lemma agree_operator_add Rows Cols mR mC rhsR rhsC :
  agree Rows Cols mR mC → agree Rows Cols rhsR rhsC →
  results_agree Rows Cols (Matrix.operator_add indR Rows Cols mR rhsR)
                          (Matrix.operator_add indC Rows Cols mC rhsC).
Proof.
  intros Hm Hrhs. pose proof Hm as (HR & HC & _).
  unfold Matrix.operator_add. rewrite !Matrix_copy_eq by done. simpl.
  by apply agree_operator_add_assign.
Qed.

Lemma agree_operator_sub Rows Cols mR mC rhsR rhsC :
  agree Rows Cols mR mC → agree Rows Cols rhsR rhsC →
  results_agree Rows Cols (Matrix.operator_sub indR Rows Cols mR rhsR)
                          (Matrix.operator_sub indC Rows Cols mC rhsC).
Proof.
  intros Hm Hrhs. pose proof Hm as (HR & HC & _).
  unfold Matrix.operator_sub. rewrite !Matrix_copy_eq by done. simpl.
  by apply agree_operator_sub_assign.
Qed.

Lemma agree_operator_mul_scalar Rows Cols mR mC (k : T) :
  agree Rows Cols mR mC →
  results_agree Rows Cols (Matrix.operator_mul_scalar indR Rows Cols mR k)
                          (Matrix.operator_mul_scalar indC Rows Cols mC k).
Proof.
  intros Hm. pose proof Hm as (HR & HC & _).
  unfold Matrix.operator_mul_scalar. rewrite !Matrix_copy_eq by done. simpl.
  by apply agree_operator_mul_assign_scalar.
Qed.

Lemma agree_operator_scalar_mul Rows Cols mR mC (k : T) :
  agree Rows Cols mR mC →
  results_agree Rows Cols (Matrix.operator_scalar_mul indR Rows Cols k mR)
                          (Matrix.operator_scalar_mul indC Rows Cols k mC).
Proof.
  intros Hm. pose proof Hm as (HR & HC & _).
  unfold Matrix.operator_scalar_mul. rewrite !Matrix_copy_eq by done. simpl.
  by apply agree_operator_mul_assign_scalar.
Qed.

Lemma agree_operator_mul Rows K Cols mR mC rhsR rhsC :
  agree Rows K mR mC → agree K Cols rhsR rhsC →
  results_agree Rows Cols
    (Matrix.operator_mul RowMajor indR Rows K Cols mR rhsR)
    (Matrix.operator_mul ColumnMajor indC Rows K Cols mC rhsC).
Proof.
  intros Hm Hrhs.
  pose proof Hm as (HR & HC & _). pose proof Hrhs as (HrR & HrC & _).
  destruct (operator_mul_spec RowMajor indR indR_length Rows K Cols mR rhsR)
    as (pR & HrunR & HpR & HdotsR); [done | done |].
  destruct (operator_mul_spec ColumnMajor indC indC_length Rows K Cols
              mC rhsC) as (pC & HrunC & HpC & HdotsC); [done | done |].
  eapply results_agree_intro; [done | done |].
  apply (agree_cells Rows Cols pR pC
           (dot RowMajor Rows K Cols mR rhsR)); [done | done | done |].
  intros r c Hr Hc. rewrite HdotsC by done. f_equal. symmetry.
  by apply agree_dot.
Qed.

Lemma agree_operator_mul_assign N mR mC rhsR rhsC :
  agree N N mR mC → agree N N rhsR rhsC →
  results_agree N N (Matrix.operator_mul_assign RowMajor indR N mR rhsR)
                    (Matrix.operator_mul_assign ColumnMajor indC N mC rhsC).
Proof.
  intros Hm Hrhs.
  pose proof Hm as (HR & HC & _). pose proof Hrhs as (HrR & HrC & _).
  destruct (operator_mul_assign_spec RowMajor indR indR_length N mR rhsR)
    as (pR & -> & HmulR & _); [done | done |].
  destruct (operator_mul_assign_spec ColumnMajor indC indC_length N mC rhsC)
    as (pC & -> & HmulC & _); [done | done |].
  rewrite <- HmulR, <- HmulC. by apply agree_operator_mul.
Qed.

Lemma agree_LoadIdentity N mR mC :
  agree N N mR mC →
  results_agree N N (Matrix.LoadIdentity RowMajor N mR)
                    (Matrix.LoadIdentity ColumnMajor N mC).
Proof.
  intros (HR & HC & _).
  destruct (LoadIdentity_spec RowMajor N mR HR) as (iR & HrunR & HiR & HcR).
  destruct (LoadIdentity_spec ColumnMajor N mC HC)
    as (iC & HrunC & HiC & HcC).
  eapply results_agree_intro; [done | done |].
  by apply (agree_cells N N iR iC (λ r c, if r =? c then one else zero)).
Qed.

Lemma agree_Identity N :
  results_agree N N (Matrix.Identity RowMajor aiR indR N)
                    (Matrix.Identity ColumnMajor aiC indC N).
Proof.
  destruct (Identity_spec RowMajor aiR indR indR_length N)
    as (iR & HrunR & HiR & HcR).
  destruct (Identity_spec ColumnMajor aiC indC indC_length N)
    as (iC & HrunC & HiC & HcC).
  eapply results_agree_intro; [done | done |].
  by apply (agree_cells N N iR iC (λ r c, if r =? c then one else zero)).
Qed.

Lemma agree_Transposed Rows Cols mR mC :
  agree Rows Cols mR mC →
  results_agree Cols Rows
    (Matrix.Transposed RowMajor aiR indR Rows Cols mR)
    (Matrix.Transposed ColumnMajor aiC indC Rows Cols mC).
Proof.
  intros Hm. pose proof Hm as (HR & HC & Hsame).
  destruct (Transposed_spec RowMajor aiR indR indR_length Rows Cols mR HR)
    as (tR & HrunR & HtR & HcR).
  destruct (Transposed_spec ColumnMajor aiC indC indC_length Rows Cols mC HC)
    as (tC & HrunC & HtC & HcC).
  eapply results_agree_intro; [done | done |].
  split_and!; [done | done |].
  intros c r Hc Hr. by rewrite HcR, HcC, Hsame.
Qed.

Lemma agree_Transpose N mR mC :
  agree N N mR mC →
  results_agree N N (Matrix.Transpose N mR) (Matrix.Transpose N mC).
Proof.
  intros Hm. pose proof Hm as (HR & HC & Hsame).
  destruct (Transpose_spec RowMajor N mR HR) as (tR & HrunR & HtR & HcR).
  destruct (Transpose_spec ColumnMajor N mC HC) as (tC & HrunC & HtC & HcC).
  eapply results_agree_intro; [done | done |].
  split_and!; [done | done |].
  intros r c Hr Hc. by rewrite HcR, HcC, Hsame.
Qed.

Lemma agree_Trace N mR mC :
  agree N N mR mC →
  ∃ t, Matrix.Trace RowMajor N mR = Some t ∧
       Matrix.Trace ColumnMajor N mC = Some t.
Proof.
  intros Hm. pose proof Hm as (HR & HC & _).
  rewrite !Trace_spec by done. eexists. split; [done |]. f_equal.
  apply foldl_seq_ext. intros i acc Hi.
  by rewrite (agree_entry N N mR mC).
Qed.

Lemma agree_chain Rows Cols mR mC (v0 : T) (values : list T) :
  agree Rows Cols mR mC → length (v0 :: values) ≤ Rows * Cols →
  results_agree Rows Cols (Matrix.chain RowMajor Rows Cols mR v0 values)
                          (Matrix.chain ColumnMajor Rows Cols mC v0 values).
Proof.
  intros Hm Hlen. pose proof Hm as (HR & HC & Hsame).
  destruct (chain_spec RowMajor Rows Cols mR v0 values HR Hlen)
    as (cR & HrunR & HcR & HvalsR & HframeR).
  destruct (chain_spec ColumnMajor Rows Cols mC v0 values HC Hlen)
    as (cC & HrunC & HcC & HvalsC & HframeC).
  eapply results_agree_intro; [done | done |].
  split_and!; [done | done |].
  intros r c Hr Hc.
  destruct (cursor_of_index Cols r c Hc) as [Hdiv Hmod].
  pose proof (linear_index_lt Rows Cols r c Hr Hc) as Hlt.
  destruct (decide (r * Cols + c < length (v0 :: values))) as [Hin|Hout].
  - destruct (lookup_lt_is_Some_2 (v0 :: values) (r * Cols + c) Hin)
      as [v Hv].
    specialize (HvalsR _ _ Hv). specialize (HvalsC _ _ Hv).
    rewrite Hdiv, Hmod in HvalsR, HvalsC. by rewrite HvalsR, HvalsC.
  - specialize (HframeR (r * Cols + c)). specialize (HframeC (r * Cols + c)).
    rewrite Hdiv, Hmod in HframeR, HframeC.
    rewrite HframeR, HframeC by lia. by apply Hsame.
Qed.

End MembersAgree.

Section AlgebraAgree.
Context {T : Type} `{Scalar T}.
Variables aiR aiC : bool.
Variables indR indC : nat → list T.
Hypothesis indR_length : ∀ n, length (indR n) = n.
Hypothesis indC_length : ∀ n, length (indC n) = n.
Variable N : nat.
Variable Vec : Type.
Variables detR detC : nat → list T → T.
Variables invR invC : nat → list T → list T → list T * bool.
Variables rotR rotC : nat → list T → Vec → T → list T.
Hypothesis algebra : algebra_agrees N Vec detR detC invR invC rotR rotC.
Implicit Types (mR mC : list T).

Lemma agree_MakeInverse mR mC :
  agree N N mR mC →
  ∃ oR oC flag,
    Matrix.MakeInverse indR invR N mR = Some (oR, flag) ∧
    Matrix.MakeInverse indC invC N mC = Some (oC, flag) ∧
    agree N N oR oC.
Proof.
  intros Hm. pose proof Hm as (HR & HC & _).
  destruct algebra as (_ & Hinv & _).
  destruct (Hinv mR mC mR mC Hm Hm) as [Hout Hflag].
  rewrite !MakeInverse_eq by done.
  destruct (invR N mR mR) as [oR fR], (invC N mC mC) as [oC fC].
  simpl in *. subst fC. by exists oR, oC, fR.
Qed.

Lemma agree_Inverse mR mC :
  agree N N mR mC →
  ∃ oR oC,
    Matrix.Inverse indR invR N mR = Some (mR, oR) ∧
    Matrix.Inverse indC invC N mC = Some (mC, oC) ∧
    agree N N oR oC.
Proof.
  intros Hm. pose proof Hm as (HR & HC & _).
  destruct algebra as (_ & Hinv & _).
  destruct (Hinv mR mC mR mC Hm Hm) as [Hout _].
  rewrite !Inverse_eq by done. by eexists _, _.
Qed.

Lemma agree_RotateFree mR mC axis angle :
  agree N N mR mC →
  results_agree N N
    (Matrix.RotateFree RowMajor aiR indR Vec rotR N mR axis angle)
    (Matrix.RotateFree ColumnMajor aiC indC Vec rotC N mC axis angle).
Proof.
  intros Hm. pose proof Hm as (HR & HC & _).
  destruct algebra as (_ & _ & Hrot).
  destruct (agree_Identity aiR aiC indR indC indR_length indC_length N)
    as (idR & idC & HidR & HidC & Hid).
  specialize (Hrot idR idC axis angle Hid).
  pose proof Hrot as (HrotR & HrotC & _).
  destruct (RotateFree_spec RowMajor aiR indR indR_length Vec rotR
              N mR axis angle) as (idR' & pR & HidR' & _ & _ & -> & HmulR & _);
    [intros id Hid'; congruence | done |].
  destruct (RotateFree_spec ColumnMajor aiC indC indC_length Vec rotC
              N mC axis angle) as (idC' & pC & HidC' & _ & _ & -> & HmulC & _);
    [intros id Hid'; congruence | done |].
  rewrite <- HmulR, <- HmulC.
  replace idR' with idR by congruence. replace idC' with idC by congruence.
  by apply agree_operator_mul.
Qed.

End AlgebraAgree.

(** The row-major and the column-major array of the matrix
    [[a, b], [c, d]]. *)
Lemma agree_2x2 {T : Type} `{Scalar T} (a b c d : T) :
  agree 2 2 [a; b; c; d] [a; c; b; d].
Proof.
  split_and!; [reflexivity | reflexivity |].
  intros r c' Hr Hc.
  assert (r = 0 ∨ r = 1) as [-> | ->] by lia;
    assert (c' = 0 ∨ c' = 1) as [-> | ->] by lia; reflexivity.
Qed.

(** The example algebra functions of the two builds compute the same. *)
Lemma example_algebra_agrees :
  algebra_agrees 2 unit
    (determinant2 RowMajor) (determinant2 ColumnMajor)
    (inverse2 RowMajor) (inverse2 ColumnMajor)
    (quarter_turn RowMajor) (quarter_turn ColumnMajor).
Proof.
  split_and!.
  - intros mR mC Hm. unfold determinant2.
    by rewrite !(agree_entry 2 2 mR mC) by (done || lia).
  - intros outR outC inR inC Hout Hin. unfold inverse2.
    rewrite !(agree_entry 2 2 inR inC) by (done || lia).
    destruct (_ || _)%Z; [|done]. simpl.
    match goal with
    | |- context [Matrix.chain RowMajor 2 2 outR ?v0 ?values] =>
        destruct (agree_chain 2 2 outR outC v0 values Hout)
          as (oR & oC & -> & -> & Hagree); [simpl; lia |]
    end.
    done.
  - intros mR mC axis angle Hm. unfold quarter_turn.
    by destruct (agree_chain 2 2 mR mC 0%Z [-1; 1; 0]%Z Hm)
      as (oR & oC & -> & -> & Hagree); [simpl; lia |].
Qed.

(** * The claims *)

(** C1. For [a] of shape [Rows] by [K] and [b] of shape [K] by [Cols],
    [operator *] returns a [Rows] by [Cols] matrix whose entry [(r, c)] is the
    sum over [i] in [[0, K)] of [a(r, i) * b(i, c)], accumulated from [T(0)];
    and [[1,2,3],[4,5,6]] times [[7,8],[9,10],[11,12]] is
    [[58,64],[139,154]], in either storage layout. *)
Theorem operator_mul_dot_products :
  (∀ (T : Type) (ops : Scalar T) (lay : Layout) (indeterminate : nat → list T)
     (Rows K Cols : nat) (a b : list T),
     (∀ n, length (indeterminate n) = n) →
     well_formed Rows K a → well_formed K Cols b →
     ∃ p, Matrix.operator_mul lay indeterminate Rows K Cols a b = Some p ∧
       well_formed Rows Cols p ∧
       ∀ r c, r < Rows → c < Cols →
         Matrix.operator_call lay Rows Cols p r c
         = Some (dot lay Rows K Cols a b r c)) ∧
  (∀ (lay : Layout) (indeterminate : nat → list Z) (a b : list Z),
     (∀ n, length (indeterminate n) = n) →
     well_formed 2 3 a → well_formed 3 2 b →
     to_rows lay 2 3 a = [[1; 2; 3]; [4; 5; 6]]%Z →
     to_rows lay 3 2 b = [[7; 8]; [9; 10]; [11; 12]]%Z →
     ∃ p, Matrix.operator_mul lay indeterminate 2 3 2 a b = Some p ∧
       to_rows lay 2 2 p = [[58; 64]; [139; 154]]%Z).
Proof.
  split.
  - intros T ops lay indeterminate Rows K Cols a b Hind Ha Hb.
    by apply operator_mul_spec.
  - intros lay indeterminate a b Hind Ha Hb Hra Hrb.
    rewrite (operator_mul_determinate lay indeterminate
               (λ n, replicate n 0%Z))
      by (done || (intros; apply length_replicate)).
    destruct lay.
    + assert (a = [1; 2; 3; 4; 5; 6]%Z) as ->
        by (by apply (to_rows_inj RowMajor 2 3)).
      assert (b = [7; 8; 9; 10; 11; 12]%Z) as ->
        by (by apply (to_rows_inj RowMajor 3 2)).
      by eexists.
    + assert (a = [1; 4; 2; 5; 3; 6]%Z) as ->
        by (by apply (to_rows_inj ColumnMajor 2 3)).
      assert (b = [7; 9; 11; 8; 10; 12]%Z) as ->
        by (by apply (to_rows_inj ColumnMajor 3 2)).
      by eexists.
Qed.

Lemma operator_mul_dot_products_witness :
  let indeterminate := λ n, replicate n 7%Z in
  let a := [1; 4; 2; 5; 3; 6]%Z in
  let b := [7; 9; 11; 8; 10; 12]%Z in
  (∀ n, length (indeterminate n) = n) ∧
  well_formed 2 3 a ∧ well_formed 3 2 b ∧
  ∃ p, Matrix.operator_mul ColumnMajor indeterminate 2 3 2 a b = Some p ∧
    well_formed 2 2 p ∧
    ∀ r c, r < 2 → c < 2 →
      Matrix.operator_call ColumnMajor 2 2 p r c
      = Some (dot ColumnMajor 2 3 2 a b r c).
Proof.
  intros indeterminate a b.
  assert (∀ n, length (indeterminate n) = n) as Hind
    by (intros n; apply length_replicate).
  split_and!; [done | reflexivity | reflexivity |].
  apply (proj1 operator_mul_dot_products); [done | reflexivity | reflexivity].
Defined.

(** C2. [a /= b] divides component by component. The free [operator /] on
    two vectors does not: its body applies [result *= rhs], so it returns the
    component-wise product, as [operator *] does; its sibling
    [operator / (vector, scalar)] applies [/=]. At [a = (6, 6, 6)] and
    [b = (2, 2, 2)], [a / b] is [(12, 12, 12)], not [(3, 3, 3)]. *)
Theorem Vector3_operator_div_multiplies :
  (∀ (T : Type) (ops : Scalar T) (a b : Vector3T.Vector3T T),
     Vector3T.operator_div_assign a b
     = {| Vector3T.x := div (Vector3T.x a) (Vector3T.x b);
          Vector3T.y := div (Vector3T.y a) (Vector3T.y b);
          Vector3T.z := div (Vector3T.z a) (Vector3T.z b) |}) ∧
  (∀ (T : Type) (ops : Scalar T) (a b : Vector3T.Vector3T T),
     Vector3T.operator_div a b
     = {| Vector3T.x := mul (Vector3T.x a) (Vector3T.x b);
          Vector3T.y := mul (Vector3T.y a) (Vector3T.y b);
          Vector3T.z := mul (Vector3T.z a) (Vector3T.z b) |} ∧
     Vector3T.operator_div a b = Vector3T.operator_mul a b) ∧
  (let vec3 := @Vector3T.Build_Vector3T Z in
   let a := vec3 6 6 6 in
   let b := vec3 2 2 2 in
   Vector3T.operator_div a b = vec3 12 12 12 ∧
   Vector3T.operator_div a b ≠ vec3 3 3 3 ∧
   Vector3T.operator_div_assign a b = vec3 3 3 3 ∧
   Vector3T.operator_div_scalar a 2%Z = vec3 3 3 3)%Z.
Proof.
  split_and!; try done.
Qed.

(** C3. For a square matrix, [Transpose()] leaves exactly the matrix that
    [Transposed()] returns: the new [M(r, c)] is the old [M(c, r)], in the
    row-major and in the column-major layout; and every off-diagonal pair of
    mirror elements is handed to [std::swap] exactly once. *)
Theorem Transpose_refines_Transposed
    (T : Type) (ops : Scalar T) (lay : Layout) (auto_init : bool)
    (indeterminate : nat → list T) (N : nat) (m : list T) :
  (∀ n, length (indeterminate n) = n) →
  well_formed N N m →
  ∃ m', Matrix.Transpose N m = Some m' ∧
    Matrix.Transposed lay auto_init indeterminate N N m = Some m' ∧
    (∀ r c, r < N → c < N →
       Matrix.operator_call lay N N m' r c
       = Matrix.operator_call lay N N m c r) ∧
    ∃ log, Matrix.Transpose_swaps N = Some log ∧ NoDup log ∧
      (∀ a b, (a, b) ∈ log →
         ∃ r c, r < N ∧ c < N ∧ r ≠ c ∧
           a = slot lay N N r c ∧ b = slot lay N N c r) ∧
      (∀ r c, r < N → c < N → r ≠ c →
         ((slot lay N N r c, slot lay N N c r) ∈ log ∨
          (slot lay N N c r, slot lay N N r c) ∈ log) ∧
         ¬ ((slot lay N N r c, slot lay N N c r) ∈ log ∧
            (slot lay N N c r, slot lay N N r c) ∈ log)).
Proof.
  intros Hind Hm.
  destruct (Transpose_spec lay N m Hm) as (m' & Hrun & Hm' & Hcells).
  destruct (Transposed_spec lay auto_init indeterminate Hind N N m Hm)
    as (t & Hrun' & Ht & Hcells').
  exists m'. split_and!; [done | | done | apply Transpose_swaps_logical].
  rewrite Hrun'. f_equal. apply (matrix_ext lay N N); [done | done |].
  intros r c Hr Hc. by rewrite Hcells, Hcells'.
Qed.

Lemma Transpose_refines_Transposed_witness :
  let indeterminate := λ n, replicate n 7%Z in
  let m := [1; 2; 3; 4; 5; 6; 7; 8; 9]%Z in
  (∀ n, length (indeterminate n) = n) ∧ well_formed 3 3 m ∧
  ∃ m', Matrix.Transpose 3 m = Some m' ∧
    Matrix.Transposed RowMajor false indeterminate 3 3 m = Some m' ∧
    (∀ r c, r < 3 → c < 3 →
       Matrix.operator_call RowMajor 3 3 m' r c
       = Matrix.operator_call RowMajor 3 3 m c r) ∧
    ∃ log, Matrix.Transpose_swaps 3 = Some log ∧ NoDup log ∧
      (∀ a b, (a, b) ∈ log →
         ∃ r c, r < 3 ∧ c < 3 ∧ r ≠ c ∧
           a = slot RowMajor 3 3 r c ∧ b = slot RowMajor 3 3 c r) ∧
      (∀ r c, r < 3 → c < 3 → r ≠ c →
         ((slot RowMajor 3 3 r c, slot RowMajor 3 3 c r) ∈ log ∨
          (slot RowMajor 3 3 c r, slot RowMajor 3 3 r c) ∈ log) ∧
         ¬ ((slot RowMajor 3 3 r c, slot RowMajor 3 3 c r) ∈ log ∧
            (slot RowMajor 3 3 c r, slot RowMajor 3 3 r c) ∈ log)).
Proof.
  intros indeterminate m.
  assert (∀ n, length (indeterminate n) = n) as Hind
    by (intros n; apply length_replicate).
  split_and!; [done | reflexivity |].
  apply (Transpose_refines_Transposed Z _ RowMajor false indeterminate 3 m);
    [done | reflexivity].
Defined.




(** C5. The chain [matrix << v0, v1, ...] writes the [n]-th value to the
    logical place [(n / Cols, n % Cols)], whatever the storage layout; with
    fewer than [Rows * Cols] values the trailing elements keep their value;
    and [m << 1, 2, 3, 4] on a 2 by 2 matrix gives [m(0,0) = 1], [m(0,1) = 2],
    [m(1,0) = 3], [m(1,1) = 4] in either layout. *)
Theorem initializer_chain_logical_order :
  (∀ (T : Type) (ops : Scalar T) (lay : Layout) (Rows Cols : nat)
     (m : list T) (v0 : T) (values : list T),
     well_formed Rows Cols m →
     length (v0 :: values) ≤ Rows * Cols →
     ∃ m', Matrix.chain lay Rows Cols m v0 values = Some m' ∧
       well_formed Rows Cols m' ∧
       (∀ n v, (v0 :: values) !! n = Some v →
          Matrix.operator_call lay Rows Cols m' (n / Cols) (n mod Cols)
          = Some v) ∧
       (∀ r c, r < Rows → c < Cols →
          length (v0 :: values) ≤ r * Cols + c →
          Matrix.operator_call lay Rows Cols m' r c
          = Matrix.operator_call lay Rows Cols m r c)) ∧
  (∀ (lay : Layout) (m : list Z),
     well_formed 2 2 m →
     ∃ m', Matrix.chain lay 2 2 m 1%Z [2; 3; 4]%Z = Some m' ∧
       Matrix.operator_call lay 2 2 m' 0 0 = Some 1%Z ∧
       Matrix.operator_call lay 2 2 m' 0 1 = Some 2%Z ∧
       Matrix.operator_call lay 2 2 m' 1 0 = Some 3%Z ∧
       Matrix.operator_call lay 2 2 m' 1 1 = Some 4%Z).
Proof.
  split.
  - intros T ops lay Rows Cols m v0 values Hm Hlen.
    destruct (chain_spec lay Rows Cols m v0 values Hm Hlen)
      as (m' & Hrun & Hm' & Hvals & Hframe).
    exists m'. split_and!; [done | done | done |].
    intros r c Hr Hc Hn.
    destruct (cursor_of_index Cols r c Hc) as [Hdiv Hmod].
    specialize (Hframe (r * Cols + c) Hn).
    rewrite Hdiv, Hmod in Hframe. apply Hframe.
    by apply linear_index_lt.
  - intros lay m Hm.
    destruct (chain_spec lay 2 2 m 1%Z [2; 3; 4]%Z Hm)
      as (m' & Hrun & _ & Hvals & _); [simpl; lia |].
    exists m'. split_and!; [done | | | |].
    + by apply (Hvals 0).
    + by apply (Hvals 1).
    + by apply (Hvals 2).
    + by apply (Hvals 3).
Qed.

Lemma initializer_chain_logical_order_witness :
  let m := [9; 9; 9; 9; 9; 9]%Z in
  well_formed 2 3 m ∧ length [1; 2; 3; 4]%Z ≤ 2 * 3 ∧
  ∃ m', Matrix.chain ColumnMajor 2 3 m 1%Z [2; 3; 4]%Z = Some m' ∧
    well_formed 2 3 m' ∧
    (∀ n v, [1; 2; 3; 4]%Z !! n = Some v →
       Matrix.operator_call ColumnMajor 2 3 m' (n / 3) (n mod 3) = Some v) ∧
    (∀ r c, r < 2 → c < 3 →
       length [1; 2; 3; 4]%Z ≤ r * 3 + c →
       Matrix.operator_call ColumnMajor 2 3 m' r c
       = Matrix.operator_call ColumnMajor 2 3 m r c).
Proof.
  intros m. split_and!; [reflexivity | simpl; lia |].
  apply (proj1 initializer_chain_logical_order Z _ ColumnMajor 2 3 m 1%Z
           [2; 3; 4]%Z); [reflexivity | simpl; lia].
Defined.

(** C6. For a square matrix [m] over an exact scalar type,
    [Identity() * m] and [m * Identity()] are [m], element for element; the
    identity has [T(1)] on the diagonal and [T(0)] elsewhere. *)
Theorem Identity_neutral
    (T : Type) (ops : Scalar T) (E : ExactScalar T) (lay : Layout)
    (auto_init : bool) (indeterminate : nat → list T) (N : nat)
    (m : list T) :
  (∀ n, length (indeterminate n) = n) →
  well_formed N N m →
  ∃ id, Matrix.Identity lay auto_init indeterminate N = Some id ∧
    (∀ r c, r < N → c < N →
       Matrix.operator_call lay N N id r c
       = Some (if r =? c then one else zero)) ∧
    Matrix.operator_mul lay indeterminate N N N id m = Some m ∧
    Matrix.operator_mul lay indeterminate N N N m id = Some m.
Proof.
  intros Hind Hm.
  destruct (Identity_spec lay auto_init indeterminate Hind N)
    as (id & Hrun & Hid & Hcells).
  assert (∀ i j, i < N → j < N →
            entry lay N N id i j = if i =? j then one else zero) as Hentries
    by (intros i j Hi Hj; by apply entry_operator_call, Hcells).
  exists id. split_and!; [done | done | |].
  - destruct (operator_mul_spec lay indeterminate Hind N N N id m)
      as (p & -> & Hp & Hdots); [done | done |].
    f_equal. apply (matrix_ext lay N N); [done | done |].
    intros r c Hr Hc.
    rewrite Hdots, dot_identity_l by done.
    by rewrite operator_call_entry.
  - destruct (operator_mul_spec lay indeterminate Hind N N N m id)
      as (p & -> & Hp & Hdots); [done | done |].
    f_equal. apply (matrix_ext lay N N); [done | done |].
    intros r c Hr Hc.
    rewrite Hdots, dot_identity_r by done.
    by rewrite operator_call_entry.
Qed.

Lemma Identity_neutral_witness :
  let indeterminate := λ n, replicate n 7%Z in
  let m := [1; 2; 3; 4; 5; 6; 7; 8; 9]%Z in
  (∀ n, length (indeterminate n) = n) ∧ well_formed 3 3 m ∧
  ∃ id, Matrix.Identity ColumnMajor true indeterminate 3 = Some id ∧
    (∀ r c, r < 3 → c < 3 →
       Matrix.operator_call ColumnMajor 3 3 id r c
       = Some (if r =? c then 1%Z else 0%Z)) ∧
    Matrix.operator_mul ColumnMajor indeterminate 3 3 3 id m = Some m ∧
    Matrix.operator_mul ColumnMajor indeterminate 3 3 3 m id = Some m.
Proof.
  intros indeterminate m.
  assert (∀ n, length (indeterminate n) = n) as Hind
    by (intros n; apply length_replicate).
  split_and!; [done | reflexivity |].
  exact (Identity_neutral Z _ _ ColumnMajor true indeterminate 3 m
           Hind eq_refl).
Defined.

(** C7. Transposing twice out of place gives back the matrix, element for
    element; and the transpose of [[1,2,3],[4,5,6]] is [[1,4],[2,5],[3,6]]. *)
Theorem Transposed_involutive :
  (∀ (T : Type) (ops : Scalar T) (lay : Layout) (auto_init : bool)
     (indeterminate : nat → list T) (Rows Cols : nat) (m : list T),
     (∀ n, length (indeterminate n) = n) →
     well_formed Rows Cols m →
     ∃ t, Matrix.Transposed lay auto_init indeterminate Rows Cols m = Some t ∧
       well_formed Cols Rows t ∧
       (∀ r c, r < Rows → c < Cols →
          Matrix.operator_call lay Cols Rows t c r
          = Matrix.operator_call lay Rows Cols m r c) ∧
       Matrix.Transposed lay auto_init indeterminate Cols Rows t = Some m) ∧
  (∀ (lay : Layout) (auto_init : bool) (indeterminate : nat → list Z)
     (m : list Z),
     (∀ n, length (indeterminate n) = n) →
     well_formed 2 3 m →
     to_rows lay 2 3 m = [[1; 2; 3]; [4; 5; 6]]%Z →
     ∃ t, Matrix.Transposed lay auto_init indeterminate 2 3 m = Some t ∧
       to_rows lay 3 2 t = [[1; 4]; [2; 5]; [3; 6]]%Z).
Proof.
  split.
  - intros T ops lay auto_init indeterminate Rows Cols m Hind Hm.
    destruct (Transposed_spec lay auto_init indeterminate Hind Rows Cols m Hm)
      as (t & Hrun & Ht & Hcells).
    destruct (Transposed_spec lay auto_init indeterminate Hind Cols Rows t Ht)
      as (m' & Hrun' & Hm' & Hcells').
    exists t. split_and!; [done | done | done |].
    rewrite Hrun'. f_equal. apply (matrix_ext lay Rows Cols); [done | done |].
    intros r c Hr Hc. by rewrite Hcells', Hcells.
  - intros lay auto_init indeterminate m Hind Hm Hrows.
    rewrite (Transposed_determinate lay auto_init true indeterminate
               (λ n, replicate n 0%Z))
      by (done || (intros; apply length_replicate)).
    destruct lay.
    + assert (m = [1; 2; 3; 4; 5; 6]%Z) as ->
        by (by apply (to_rows_inj RowMajor 2 3)).
      by eexists.
    + assert (m = [1; 4; 2; 5; 3; 6]%Z) as ->
        by (by apply (to_rows_inj ColumnMajor 2 3)).
      by eexists.
Qed.

Lemma Transposed_involutive_witness :
  let indeterminate := λ n, replicate n 7%Z in
  let m := [1; 2; 3; 4; 5; 6]%Z in
  (∀ n, length (indeterminate n) = n) ∧ well_formed 2 3 m ∧
  ∃ t, Matrix.Transposed RowMajor false indeterminate 2 3 m = Some t ∧
    well_formed 3 2 t ∧
    (∀ r c, r < 2 → c < 3 →
       Matrix.operator_call RowMajor 3 2 t c r
       = Matrix.operator_call RowMajor 2 3 m r c) ∧
    Matrix.Transposed RowMajor false indeterminate 3 2 t = Some m.
Proof.
  intros indeterminate m.
  assert (∀ n, length (indeterminate n) = n) as Hind
    by (intros n; apply length_replicate).
  split_and!; [done | reflexivity |].
  apply (proj1 Transposed_involutive); [done | reflexivity].
Defined.

(** C8. [M.RotateFree(axis, angle)] seeds an identity matrix, hands it to the
    rotation function to obtain [R], and replaces [M], through [*=], by the
    product of the old [M] and [R], in this order: on [[1,2],[3,4]] and the quarter turn the
    result is [[2,-1],[4,-3]], whereas [R * M] is [[-3,-4],[1,2]]. *)
Theorem RotateFree_right_multiplies :
  (∀ (T : Type) (ops : Scalar T) (lay : Layout) (auto_init : bool)
     (indeterminate : nat → list T) (Vec : Type)
     (Gs_MakeFreeRotation : nat → list T → Vec → T → list T)
     (N : nat) (m : list T) (axis : Vec) (angle : T),
     (∀ n, length (indeterminate n) = n) →
     (∀ id, well_formed N N id →
            well_formed N N (Gs_MakeFreeRotation N id axis angle)) →
     well_formed N N m →
     ∃ id m', Matrix.Identity lay auto_init indeterminate N = Some id ∧
       well_formed N N id ∧
       (∀ r c, r < N → c < N →
          Matrix.operator_call lay N N id r c
          = Some (if r =? c then one else zero)) ∧
       Matrix.RotateFree lay auto_init indeterminate Vec Gs_MakeFreeRotation
         N m axis angle = Some m' ∧
       Matrix.operator_mul_assign lay indeterminate N m
         (Gs_MakeFreeRotation N id axis angle) = Some m' ∧
       Matrix.operator_mul lay indeterminate N N N m
         (Gs_MakeFreeRotation N id axis angle) = Some m' ∧
       well_formed N N m' ∧
       ∀ r c, r < N → c < N →
         Matrix.operator_call lay N N m' r c
         = Some (dot lay N N N m (Gs_MakeFreeRotation N id axis angle) r c)) ∧
  (∀ (lay : Layout) (auto_init : bool) (indeterminate : nat → list Z)
     (m : list Z),
     (∀ n, length (indeterminate n) = n) →
     well_formed 2 2 m →
     to_rows lay 2 2 m = [[1; 2]; [3; 4]]%Z →
     ∃ id m' p,
       Matrix.Identity lay auto_init indeterminate 2 = Some id ∧
       Matrix.RotateFree lay auto_init indeterminate unit (quarter_turn lay)
         2 m () 0%Z = Some m' ∧
       to_rows lay 2 2 m' = [[2; -1]; [4; -3]]%Z ∧
       Matrix.operator_mul lay indeterminate 2 2 2
         (quarter_turn lay 2 id () 0%Z) m = Some p ∧
       to_rows lay 2 2 p = [[-3; -4]; [1; 2]]%Z).
Proof.
  split.
  - intros T ops lay auto_init indeterminate Vec rot N m axis angle Hind Hrot Hm.
    destruct (RotateFree_spec lay auto_init indeterminate Hind Vec rot
                N m axis angle)
      as (id & m' & Hid & Hwf & Hcells & Hrun & Hmul & Hm' & Hdots);
      [|done |].
    { intros id Hid. apply Hrot.
      destruct (Identity_spec lay auto_init indeterminate Hind N)
        as (id' & Hid' & Hwf & _).
      congruence. }
    exists id, m'. split_and!; try done.
    unfold Matrix.RotateFree in Hrun. by rewrite Hid in Hrun.
  - intros lay auto_init indeterminate m Hind Hm Hrows.
    unfold Matrix.RotateFree, Matrix.operator_mul_assign.
    rewrite (Identity_determinate lay auto_init true indeterminate
               (λ n, replicate n 0%Z))
      by (done || (intros; apply length_replicate)).
    destruct (Identity_spec lay true (λ n, replicate n 0%Z)
                (λ n, length_replicate n 0%Z) 2) as (id & Hid & Hwf & _).
    exists id. rewrite Hid. simpl.
    setoid_rewrite (operator_mul_determinate lay indeterminate
                      (λ n, replicate n 0%Z));
      try (done || (intros; apply length_replicate)
           || by apply quarter_turn_well_formed).
    revert Hid. destruct lay.
    + assert (m = [1; 2; 3; 4]%Z) as ->
        by (by apply (to_rows_inj RowMajor 2 2)).
      intros [= <-]. by eexists _, _.
    + assert (m = [1; 3; 2; 4]%Z) as ->
        by (by apply (to_rows_inj ColumnMajor 2 2)).
      intros [= <-]. by eexists _, _.
Qed.

Lemma RotateFree_right_multiplies_witness :
  let indeterminate := λ n, replicate n 7%Z in
  let m := [1; 3; 2; 4]%Z in
  (∀ n, length (indeterminate n) = n) ∧
  (∀ id, well_formed 2 2 id →
         well_formed 2 2 (quarter_turn ColumnMajor 2 id () 0%Z)) ∧
  well_formed 2 2 m ∧
  ∃ id m', Matrix.Identity ColumnMajor true indeterminate 2 = Some id ∧
    well_formed 2 2 id ∧
    (∀ r c, r < 2 → c < 2 →
       Matrix.operator_call ColumnMajor 2 2 id r c
       = Some (if r =? c then one else zero)) ∧
    Matrix.RotateFree ColumnMajor true indeterminate unit
      (quarter_turn ColumnMajor) 2 m () 0%Z = Some m' ∧
    Matrix.operator_mul_assign ColumnMajor indeterminate 2 m
      (quarter_turn ColumnMajor 2 id () 0%Z) = Some m' ∧
    Matrix.operator_mul ColumnMajor indeterminate 2 2 2 m
      (quarter_turn ColumnMajor 2 id () 0%Z) = Some m' ∧
    well_formed 2 2 m' ∧
    ∀ r c, r < 2 → c < 2 →
      Matrix.operator_call ColumnMajor 2 2 m' r c
      = Some (dot ColumnMajor 2 2 2 m
                (quarter_turn ColumnMajor 2 id () 0%Z) r c).
Proof.
  intros indeterminate m.
  assert (∀ n, length (indeterminate n) = n) as Hind
    by (intros n; apply length_replicate).
  assert (∀ id, well_formed 2 2 id →
            well_formed 2 2 (quarter_turn ColumnMajor 2 id () 0%Z)) as Hrot
    by (intros id; apply quarter_turn_well_formed).
  split_and!; [done | done | reflexivity |].
  exact (proj1 RotateFree_right_multiplies Z _ ColumnMajor true indeterminate
           unit (quarter_turn ColumnMajor) 2 m () 0%Z Hind Hrot eq_refl).
Defined.

(** C9. [M.MakeInverse()] hands [M] itself, as the output, and a copy of the
    value of [M], as the input, to the inversion function, and returns the
    flag that function returns. With the contract of the inversion function:
    true, and [M] holds the inverse of its former value, when that value is
    invertible; false when it is singular. *)
Theorem MakeInverse_returns_flag
    (T : Type) (ops : Scalar T) (lay : Layout) (indeterminate : nat → list T)
    (Gs_Inverse : nat → list T → list T → list T * bool) (N : nat)
    (m : list T) :
  (∀ n, length (indeterminate n) = n) →
  Inverse_contract lay N Gs_Inverse →
  well_formed N N m →
  ∃ in_, Matrix.Matrix_copy indeterminate N N m = Some in_ ∧ in_ = m ∧
    Matrix.MakeInverse indeterminate Gs_Inverse N m
    = Some (Gs_Inverse N m in_) ∧
    (invertible lay N m →
       ∃ m', Matrix.MakeInverse indeterminate Gs_Inverse N m
             = Some (m', true) ∧
         well_formed N N m' ∧ is_inverse lay N m m') ∧
    (¬ invertible lay N m →
       ∃ m', Matrix.MakeInverse indeterminate Gs_Inverse N m
             = Some (m', false)).
Proof.
  intros Hind Hcontract Hm.
  exists m. rewrite Matrix_copy_eq, MakeInverse_eq by done.
  destruct (Hcontract m m Hm Hm) as (Hwf & Hyes & Hno).
  destruct (Gs_Inverse N m m) as [m' flag]. simpl in *.
  split_and!; [done | done | done | |].
  - intros Hinv. destruct (Hyes Hinv) as [-> Hinverse]. by exists m'.
  - intros Hsing. rewrite (Hno Hsing). by exists m'.
Qed.

Lemma MakeInverse_returns_flag_witness :
  let indeterminate := λ n, replicate n 7%Z in
  let m := [2; 1; 1; 1]%Z in
  (∀ n, length (indeterminate n) = n) ∧
  Inverse_contract ColumnMajor 2 (inverse2 ColumnMajor) ∧
  well_formed 2 2 m ∧
  ∃ in_, Matrix.Matrix_copy indeterminate 2 2 m = Some in_ ∧ in_ = m ∧
    Matrix.MakeInverse indeterminate (inverse2 ColumnMajor) 2 m
    = Some (inverse2 ColumnMajor 2 m in_) ∧
    (invertible ColumnMajor 2 m →
       ∃ m', Matrix.MakeInverse indeterminate (inverse2 ColumnMajor) 2 m
             = Some (m', true) ∧
         well_formed 2 2 m' ∧ is_inverse ColumnMajor 2 m m') ∧
    (¬ invertible ColumnMajor 2 m →
       ∃ m', Matrix.MakeInverse indeterminate (inverse2 ColumnMajor) 2 m
             = Some (m', false)).
Proof.
  intros indeterminate m.
  assert (∀ n, length (indeterminate n) = n) as Hind
    by (intros n; apply length_replicate).
  split_and!; [done | apply inverse2_contract | reflexivity |].
  exact (MakeInverse_returns_flag Z _ ColumnMajor indeterminate
           (inverse2 ColumnMajor) 2 m Hind (inverse2_contract ColumnMajor)
           eq_refl).
Defined.

(** C10. [M.Inverse()] leaves [M] as it is and returns what [MakeInverse]
    leaves in a copy of [M]; the flag is dropped, so the result of a singular
    [M] is whatever the inversion function left in its output, and nothing
    tells the caller. *)
Theorem Inverse_const_drops_flag
    (T : Type) (ops : Scalar T) (indeterminate : nat → list T)
    (Gs_Inverse : nat → list T → list T → list T * bool) (N : nat)
    (m : list T) :
  (∀ n, length (indeterminate n) = n) →
  well_formed N N m →
  ∃ inv inv' flag,
    Matrix.Matrix_copy indeterminate N N m = Some inv ∧ inv = m ∧
    Matrix.MakeInverse indeterminate Gs_Inverse N inv = Some (inv', flag) ∧
    Matrix.Inverse indeterminate Gs_Inverse N m = Some (m, inv') ∧
    inv' = (Gs_Inverse N m m).1 ∧
    ∀ Gs_Inverse' : nat → list T → list T → list T * bool,
      (Gs_Inverse' N m m).1 = (Gs_Inverse N m m).1 →
      Matrix.Inverse indeterminate Gs_Inverse' N m
      = Matrix.Inverse indeterminate Gs_Inverse N m.
Proof.
  intros Hind Hm.
  exists m, (Gs_Inverse N m m).1, (Gs_Inverse N m m).2.
  rewrite Matrix_copy_eq, MakeInverse_eq, Inverse_eq by done.
  split_and!; [done | done | by destruct (Gs_Inverse N m m) | done | done |].
  intros Gs_Inverse' Hsame. rewrite Inverse_eq by done. by rewrite Hsame.
Qed.

Lemma Inverse_const_drops_flag_witness :
  let indeterminate := λ n, replicate n 7%Z in
  let m := [1; 2; 2; 4]%Z in
  (∀ n, length (indeterminate n) = n) ∧ well_formed 2 2 m ∧
  ∃ inv inv' flag,
    Matrix.Matrix_copy indeterminate 2 2 m = Some inv ∧ inv = m ∧
    Matrix.MakeInverse indeterminate (inverse2 ColumnMajor) 2 inv
    = Some (inv', flag) ∧
    Matrix.Inverse indeterminate (inverse2 ColumnMajor) 2 m = Some (m, inv') ∧
    inv' = (inverse2 ColumnMajor 2 m m).1 ∧
    ∀ Gs_Inverse' : nat → list Z → list Z → list Z * bool,
      (Gs_Inverse' 2 m m).1 = (inverse2 ColumnMajor 2 m m).1 →
      Matrix.Inverse indeterminate Gs_Inverse' 2 m
      = Matrix.Inverse indeterminate (inverse2 ColumnMajor) 2 m.
Proof.
  intros indeterminate m.
  assert (∀ n, length (indeterminate n) = n) as Hind
    by (intros n; apply length_replicate).
  split_and!; [done | reflexivity |].
  exact (Inverse_const_drops_flag Z _ indeterminate (inverse2 ColumnMajor)
           2 m Hind eq_refl).
Defined.

(** * Further properties of [Matrix.h] *)

(** X1. [operator ()] checks the row and the column apart, not the place in
    the array: an index with [row >= Rows] or [col >= Cols] fails the
    assertion, for reading and for writing, also when [row * Cols + col]
    would fall inside the array. *)
Theorem operator_call_out_of_range
    (T : Type) (ops : Scalar T) (lay : Layout) (Rows Cols : nat)
    (m : list T) (row col : nat) (v : T) :
  Rows ≤ row ∨ Cols ≤ col →
  Matrix.operator_call_ref lay Rows Cols row col = None ∧
  Matrix.operator_call lay Rows Cols m row col = None ∧
  Matrix.operator_call_assign lay Rows Cols m row col v = None.
Proof.
  intros Hout.
  assert (Matrix.operator_call_ref lay Rows Cols row col = None) as Href.
  { unfold Matrix.operator_call_ref.
    destruct (Nat.ltb_spec row Rows); [|done].
    destruct (Nat.ltb_spec col Cols); [lia | done]. }
  unfold Matrix.operator_call, Matrix.operator_call_assign.
  by rewrite Href.
Qed.

Lemma operator_call_out_of_range_witness :
  (2 ≤ 0 ∨ 3 ≤ 4) ∧
  Matrix.operator_call_ref RowMajor 2 3 0 4 = None ∧
  Matrix.operator_call RowMajor 2 3 [1; 2; 3; 4; 5; 6]%Z 0 4 = None ∧
  Matrix.operator_call_assign RowMajor 2 3 [1; 2; 3; 4; 5; 6]%Z 0 4 9%Z
  = None.
Proof.
  assert (2 ≤ 0 ∨ 3 ≤ 4) as Hout by lia.
  split; [done |].
  exact (operator_call_out_of_range Z _ RowMajor 2 3 [1; 2; 3; 4; 5; 6]%Z
           0 4 9%Z Hout).
Defined.

(** X2. Inside the shape [operator ()] never fails, and a write through it
    is read back at the same index, changes no other logical index and keeps
    the size of the array. *)
Theorem operator_call_assign_read_back
    (T : Type) (ops : Scalar T) (lay : Layout) (Rows Cols : nat)
    (m : list T) (r c : nat) (v : T) :
  well_formed Rows Cols m → r < Rows → c < Cols →
  is_Some (Matrix.operator_call lay Rows Cols m r c) ∧
  ∃ m', Matrix.operator_call_assign lay Rows Cols m r c v = Some m' ∧
    well_formed Rows Cols m' ∧
    Matrix.operator_call lay Rows Cols m' r c = Some v ∧
    ∀ r' c', r' < Rows → c' < Cols → (r', c') ≠ (r, c) →
      Matrix.operator_call lay Rows Cols m' r' c'
      = Matrix.operator_call lay Rows Cols m r' c'.
Proof.
  intros Hm Hr Hc. split.
  { rewrite operator_call_entry by done. by eexists. }
  exists (<[slot lay Rows Cols r c := v]> m).
  split_and!.
  - by apply operator_call_assign_insert.
  - by apply well_formed_insert.
  - rewrite operator_call_lookup by done.
    apply list_lookup_insert_eq. rewrite Hm. by apply slot_lt.
  - intros r' c' Hr' Hc' Hne. rewrite !operator_call_lookup by done.
    apply list_lookup_insert_ne. intros Heq.
    apply slot_inj in Heq as [-> ->]; done.
Qed.

Lemma operator_call_assign_read_back_witness :
  let m := [1; 2; 3; 4; 5; 6]%Z in
  well_formed 2 3 m ∧ 1 < 2 ∧ 2 < 3 ∧
  is_Some (Matrix.operator_call ColumnMajor 2 3 m 1 2) ∧
  ∃ m', Matrix.operator_call_assign ColumnMajor 2 3 m 1 2 9%Z = Some m' ∧
    well_formed 2 3 m' ∧
    Matrix.operator_call ColumnMajor 2 3 m' 1 2 = Some 9%Z ∧
    ∀ r' c', r' < 2 → c' < 3 → (r', c') ≠ (1, 2) →
      Matrix.operator_call ColumnMajor 2 3 m' r' c'
      = Matrix.operator_call ColumnMajor 2 3 m r' c'.
Proof.
  intros m.
  assert (1 < 2) as Hr by lia. assert (2 < 3) as Hc by lia.
  split; [reflexivity |]. split; [done |]. split; [done |].
  exact (operator_call_assign_read_back Z _ ColumnMajor 2 3 m 1 2 9%Z
           eq_refl Hr Hc).
Defined.

(** X3. [operator []] reads the array itself: [m[k]] fails the assertion
    from [k = Rows * Cols] on, and below that it is [m(r, c)] for the one
    logical index [(r, c)] whose place in the layout is [k]. *)
Theorem operator_index_operator_call
    (T : Type) (ops : Scalar T) (lay : Layout) (Rows Cols : nat)
    (m : list T) :
  well_formed Rows Cols m →
  (∀ k v, Rows * Cols ≤ k →
     Matrix.operator_index Rows Cols m k = None ∧
     Matrix.operator_index_assign Rows Cols m k v = None) ∧
  (∀ r c, r < Rows → c < Cols →
     Matrix.operator_index Rows Cols m (slot lay Rows Cols r c)
     = Matrix.operator_call lay Rows Cols m r c) ∧
  (∀ k, k < Rows * Cols →
     ∃ r c, r < Rows ∧ c < Cols ∧
       Matrix.operator_index Rows Cols m k
       = Matrix.operator_call lay Rows Cols m r c ∧
       ∀ r' c', r' < Rows → c' < Cols → slot lay Rows Cols r' c' = k →
         r' = r ∧ c' = c).
Proof.
  intros Hm.
  assert (∀ r c, r < Rows → c < Cols →
    Matrix.operator_index Rows Cols m (slot lay Rows Cols r c)
    = Matrix.operator_call lay Rows Cols m r c) as Hslot.
  { intros r c Hr Hc. unfold Matrix.operator_index, Matrix.elements.
    pose proof (slot_lt lay Rows Cols r c Hr Hc) as Hlt.
    destruct (Nat.ltb_spec (slot lay Rows Cols r c) (Rows * Cols)); [|lia].
    simpl. by rewrite operator_call_lookup. }
  split_and!; [|done |].
  - intros k v Hk.
    unfold Matrix.operator_index, Matrix.operator_index_assign,
      Matrix.elements.
    by destruct (Nat.ltb_spec k (Rows * Cols)); [lia |].
  - intros k Hk.
    destruct (slot_surj lay Rows Cols k Hk) as (r & c & Hr & Hc & <-).
    exists r, c. split_and!; [done | done | by apply Hslot |].
    intros r' c' Hr' Hc' Heq. by apply (slot_inj lay Rows Cols).
Qed.

Lemma operator_index_operator_call_witness :
  let m := [1; 2; 3; 4; 5; 6]%Z in
  well_formed 2 3 m ∧
  (∀ k v, 2 * 3 ≤ k →
     Matrix.operator_index 2 3 m k = None ∧
     Matrix.operator_index_assign 2 3 m k v = None) ∧
  (∀ r c, r < 2 → c < 3 →
     Matrix.operator_index 2 3 m (slot ColumnMajor 2 3 r c)
     = Matrix.operator_call ColumnMajor 2 3 m r c) ∧
  (∀ k, k < 2 * 3 →
     ∃ r c, r < 2 ∧ c < 3 ∧
       Matrix.operator_index 2 3 m k
       = Matrix.operator_call ColumnMajor 2 3 m r c ∧
       ∀ r' c', r' < 2 → c' < 3 → slot ColumnMajor 2 3 r' c' = k →
         r' = r ∧ c' = c).
Proof.
  intros m. split; [reflexivity |].
  exact (operator_index_operator_call Z _ ColumnMajor 2 3 m eq_refl).
Defined.

Section ElementwiseEntries.
Context {T : Type} `{Scalar T}.
Variable lay : Layout.
Implicit Types (a b m : list T).

Lemma lookup_slot_entry Rows Cols m r c :
  well_formed Rows Cols m → r < Rows → c < Cols →
  m !! slot lay Rows Cols r c = Some (entry lay Rows Cols m r c).
Proof.
  intros Hm Hr Hc. rewrite <- operator_call_lookup by done.
  by apply operator_call_entry.
Qed.

Lemma operator_call_zip_with (f : T → T → T) Rows Cols a b r c :
  well_formed Rows Cols a → well_formed Rows Cols b → r < Rows → c < Cols →
  Matrix.operator_call lay Rows Cols (zip_with f a b) r c
  = Some (f (entry lay Rows Cols a r c) (entry lay Rows Cols b r c)).
Proof.
  intros Ha Hb Hr Hc.
  rewrite operator_call_lookup, lookup_zip_with by done.
  by rewrite !lookup_slot_entry.
Qed.

Lemma operator_call_fmap (f : T → T) Rows Cols m r c :
  well_formed Rows Cols m → r < Rows → c < Cols →
  Matrix.operator_call lay Rows Cols (f <$> m) r c
  = Some (f (entry lay Rows Cols m r c)).
Proof.
  intros Hm Hr Hc.
  rewrite operator_call_lookup, list_lookup_fmap by done.
  by rewrite lookup_slot_entry.
Qed.

Lemma operator_call_replicate (v : T) Rows Cols r c :
  r < Rows → c < Cols →
  Matrix.operator_call lay Rows Cols (replicate (Rows * Cols) v) r c = Some v.
Proof.
  intros Hr Hc. rewrite operator_call_lookup by done.
  apply lookup_replicate_2. by apply slot_lt.
Qed.

Lemma well_formed_zip_with (f : T → T → T) Rows Cols a b :
  well_formed Rows Cols a → well_formed Rows Cols b →
  well_formed Rows Cols (zip_with f a b).
Proof. unfold well_formed. rewrite length_zip_with. lia. Qed.

Lemma well_formed_fmap (f : T → T) Rows Cols m :
  well_formed Rows Cols m → well_formed Rows Cols (f <$> m).
Proof. unfold well_formed. by rewrite length_fmap. Qed.

End ElementwiseEntries.

(** X4. [Reset()] leaves [T(0)] at every logical index, in either layout, and
    so does the default constructor; with [GS_DISABLE_AUTO_INIT] the default
    constructor leaves the storage as it found it. *)
Theorem Reset_zero
    (T : Type) (ops : Scalar T) (indeterminate : nat → list T)
    (Rows Cols : nat) (m : list T) :
  (∀ n, length (indeterminate n) = n) →
  well_formed Rows Cols m →
  (∃ z, Matrix.Reset Rows Cols m = Some z ∧
     Matrix.Matrix_default true indeterminate Rows Cols = Some z ∧
     well_formed Rows Cols z ∧
     ∀ lay r c, r < Rows → c < Cols →
       Matrix.operator_call lay Rows Cols z r c = Some zero) ∧
  Matrix.Matrix_default false indeterminate Rows Cols
  = Some (indeterminate (Rows * Cols)).
Proof.
  intros Hind Hm. split; [|done].
  exists (replicate (Rows * Cols) zero). split_and!.
  - by apply Reset_eq.
  - apply Reset_eq, Hind.
  - apply length_replicate.
  - intros lay r c Hr Hc. by apply operator_call_replicate.
Qed.

Lemma Reset_zero_witness :
  let indeterminate := λ n, replicate n 7%Z in
  let m := [1; 2; 3; 4; 5; 6]%Z in
  (∀ n, length (indeterminate n) = n) ∧ well_formed 2 3 m ∧
  (∃ z, Matrix.Reset 2 3 m = Some z ∧
     Matrix.Matrix_default true indeterminate 2 3 = Some z ∧
     well_formed 2 3 z ∧
     ∀ lay r c, r < 2 → c < 3 →
       Matrix.operator_call lay 2 3 z r c = Some 0%Z) ∧
  Matrix.Matrix_default false indeterminate 2 3 = Some (indeterminate (2 * 3)).
Proof.
  intros indeterminate m.
  assert (∀ n, length (indeterminate n) = n) as Hind
    by (intros n; apply length_replicate).
  split; [done |]. split; [reflexivity |].
  exact (Reset_zero Z _ indeterminate 2 3 m Hind eq_refl).
Defined.

(** X5. Assignment and copy construction duplicate the array: after
    [this = rhs] the receiver is [rhs], whatever it held, a copy-constructed
    matrix is [rhs], whatever its storage held, and self-assignment changes
    nothing. *)
Theorem copy_duplicates
    (T : Type) (ops : Scalar T) (indeterminate : nat → list T)
    (Rows Cols : nat) (this rhs : list T) :
  (∀ n, length (indeterminate n) = n) →
  well_formed Rows Cols this → well_formed Rows Cols rhs →
  Matrix.operator_assign Rows Cols this rhs = Some rhs ∧
  Matrix.Matrix_copy indeterminate Rows Cols rhs = Some rhs ∧
  Matrix.operator_assign Rows Cols this this = Some this.
Proof.
  intros Hind Hthis Hrhs. split_and!.
  - by apply operator_assign_eq.
  - by apply Matrix_copy_eq.
  - by apply operator_assign_eq.
Qed.

Lemma copy_duplicates_witness :
  let indeterminate := λ n, replicate n 7%Z in
  let this := [1; 2; 3; 4; 5; 6]%Z in
  let rhs := [6; 5; 4; 3; 2; 1]%Z in
  (∀ n, length (indeterminate n) = n) ∧
  well_formed 2 3 this ∧ well_formed 2 3 rhs ∧
  Matrix.operator_assign 2 3 this rhs = Some rhs ∧
  Matrix.Matrix_copy indeterminate 2 3 rhs = Some rhs ∧
  Matrix.operator_assign 2 3 this this = Some this.
Proof.
  intros indeterminate this rhs.
  assert (∀ n, length (indeterminate n) = n) as Hind
    by (intros n; apply length_replicate).
  split; [done |]. split; [reflexivity |]. split; [reflexivity |].
  exact (copy_duplicates Z _ indeterminate 2 3 this rhs Hind
           eq_refl eq_refl).
Defined.

(** X6. [lhs + rhs] and [lhs += rhs] give the same matrix, whose entry
    [(r, c)] is [lhs(r, c) + rhs(r, c)] in either layout. *)
Theorem operator_add_entries
    (T : Type) (ops : Scalar T) (indeterminate : nat → list T)
    (Rows Cols : nat) (lhs rhs : list T) :
  (∀ n, length (indeterminate n) = n) →
  well_formed Rows Cols lhs → well_formed Rows Cols rhs →
  ∃ s, Matrix.operator_add indeterminate Rows Cols lhs rhs = Some s ∧
    Matrix.operator_add_assign Rows Cols lhs rhs = Some s ∧
    well_formed Rows Cols s ∧
    ∀ lay r c, r < Rows → c < Cols →
      Matrix.operator_call lay Rows Cols s r c
      = Some (add (entry lay Rows Cols lhs r c) (entry lay Rows Cols rhs r c)).
Proof.
  intros Hind Hlhs Hrhs. exists (zip_with add lhs rhs).
  unfold Matrix.operator_add. rewrite Matrix_copy_eq by done. simpl.
  rewrite operator_add_assign_eq by done.
  split_and!; [done | done | by apply well_formed_zip_with |].
  intros lay r c Hr Hc. by apply operator_call_zip_with.
Qed.

Lemma operator_add_entries_witness :
  let indeterminate := λ n, replicate n 7%Z in
  let lhs := [1; 2; 3; 4; 5; 6]%Z in
  let rhs := [6; 5; 4; 3; 2; 1]%Z in
  (∀ n, length (indeterminate n) = n) ∧
  well_formed 2 3 lhs ∧ well_formed 2 3 rhs ∧
  ∃ s, Matrix.operator_add indeterminate 2 3 lhs rhs = Some s ∧
    Matrix.operator_add_assign 2 3 lhs rhs = Some s ∧
    well_formed 2 3 s ∧
    ∀ lay r c, r < 2 → c < 3 →
      Matrix.operator_call lay 2 3 s r c
      = Some (add (entry lay 2 3 lhs r c) (entry lay 2 3 rhs r c)).
Proof.
  intros indeterminate lhs rhs.
  assert (∀ n, length (indeterminate n) = n) as Hind
    by (intros n; apply length_replicate).
  split_and!; [done | reflexivity | reflexivity |].
  exact (operator_add_entries Z _ indeterminate 2 3 lhs rhs Hind
           eq_refl eq_refl).
Defined.

(** X7. [lhs - rhs] and [lhs -= rhs] give the matrix of the differences
    [lhs(r, c) - rhs(r, c)]; where subtraction undoes addition on the scalars,
    [(a + b) - b] is [a] again. *)
Theorem operator_sub_entries
    (T : Type) (ops : Scalar T) (indeterminate : nat → list T)
    (Rows Cols : nat) (lhs rhs : list T) :
  (∀ n, length (indeterminate n) = n) →
  well_formed Rows Cols lhs → well_formed Rows Cols rhs →
  (∃ d, Matrix.operator_sub indeterminate Rows Cols lhs rhs = Some d ∧
     Matrix.operator_sub_assign Rows Cols lhs rhs = Some d ∧
     well_formed Rows Cols d ∧
     ∀ lay r c, r < Rows → c < Cols →
       Matrix.operator_call lay Rows Cols d r c
       = Some (sub (entry lay Rows Cols lhs r c)
                   (entry lay Rows Cols rhs r c))) ∧
  ((∀ x y : T, sub (add x y) y = x) →
   ∃ s, Matrix.operator_add indeterminate Rows Cols lhs rhs = Some s ∧
     Matrix.operator_sub indeterminate Rows Cols s rhs = Some lhs).
Proof.
  intros Hind Hlhs Hrhs. split.
  - exists (zip_with sub lhs rhs).
    unfold Matrix.operator_sub. rewrite Matrix_copy_eq by done. simpl.
    rewrite operator_sub_assign_eq by done.
    split_and!; [done | done | by apply well_formed_zip_with |].
    intros lay r c Hr Hc. by apply operator_call_zip_with.
  - intros Hcancel. exists (zip_with add lhs rhs).
    pose proof (well_formed_zip_with add Rows Cols lhs rhs Hlhs Hrhs) as Hs.
    unfold Matrix.operator_add, Matrix.operator_sub.
    rewrite !Matrix_copy_eq by done. simpl.
    rewrite operator_add_assign_eq, operator_sub_assign_eq by done.
    split; [done |]. f_equal.
    apply (matrix_ext RowMajor Rows Cols);
      [by apply well_formed_zip_with | done |].
    intros r c Hr Hc.
    rewrite operator_call_zip_with by done.
    rewrite (entry_operator_call RowMajor Rows Cols (zip_with add lhs rhs)
               r c _ (operator_call_zip_with RowMajor add Rows Cols lhs rhs
                        r c Hlhs Hrhs Hr Hc)).
    by rewrite Hcancel, operator_call_entry.
Qed.

Lemma operator_sub_entries_witness :
  let indeterminate := λ n, replicate n 7%Z in
  let lhs := [1; 2; 3; 4; 5; 6]%Z in
  let rhs := [6; 5; 4; 3; 2; 1]%Z in
  (∀ n, length (indeterminate n) = n) ∧
  well_formed 2 3 lhs ∧ well_formed 2 3 rhs ∧
  (∀ x y : Z, sub (add x y) y = x) ∧
  ∃ s, Matrix.operator_add indeterminate 2 3 lhs rhs = Some s ∧
    Matrix.operator_sub indeterminate 2 3 s rhs = Some lhs.
Proof.
  intros indeterminate lhs rhs.
  assert (∀ n, length (indeterminate n) = n) as Hind
    by (intros n; apply length_replicate).
  assert (∀ x y : Z, sub (add x y) y = x) as Hcancel
    by (intros x y; simpl; lia).
  split_and!; [done | reflexivity | reflexivity | done |].
  exact (proj2 (operator_sub_entries Z _ indeterminate 2 3 lhs rhs Hind
                  eq_refl eq_refl) Hcancel).
Defined.

(** X8. [m * k] and [k * m] give the matrix whose entries are [m(r, c) * k],
    with the scalar on the right also for [k * m], and [m *= k] gives the
    same matrix when [k] is not an element of [m]. [operator *=] takes its
    scalar by reference and reads it in every iteration: when it refers to
    the element [m_[j]] of [m] itself, of value [kj], the elements up to and
    including [m_[j]] are multiplied by [kj] and the elements after it by
    [kj * kj], the value the loop has left in [m_[j]]. *)
Theorem operator_mul_scalar_entries
    (T : Type) (ops : Scalar T) (indeterminate : nat → list T)
    (Rows Cols : nat) (m : list T) (k : T) :
  (∀ n, length (indeterminate n) = n) →
  well_formed Rows Cols m →
  (∃ p, Matrix.operator_mul_scalar indeterminate Rows Cols m k = Some p ∧
     Matrix.operator_scalar_mul indeterminate Rows Cols k m = Some p ∧
     Matrix.operator_mul_assign_scalar Rows Cols m (Matrix.Elsewhere k)
     = Some p ∧
     well_formed Rows Cols p ∧
     ∀ lay r c, r < Rows → c < Cols →
       Matrix.operator_call lay Rows Cols p r c
       = Some (mul (entry lay Rows Cols m r c) k)) ∧
  (∀ j kj, m !! j = Some kj →
     ∃ p, Matrix.operator_mul_assign_scalar Rows Cols m (Matrix.Within j)
          = Some p ∧
       well_formed Rows Cols p ∧
       ∀ i a, m !! i = Some a →
         p !! i = Some (mul a (if i <=? j then kj else mul kj kj))).
Proof.
  intros Hind Hm. split.
  - exists ((λ a, mul a k) <$> m).
    unfold Matrix.operator_mul_scalar, Matrix.operator_scalar_mul.
    rewrite Matrix_copy_eq by done. simpl.
    rewrite operator_mul_assign_scalar_eq by done.
    split_and!; [done | done | done | by apply well_formed_fmap |].
    intros lay r c Hr Hc.
    by rewrite (operator_call_fmap lay (λ a, mul a k)).
  - intros j kj Hj. by apply operator_mul_assign_scalar_within.
Qed.

Lemma operator_mul_scalar_entries_witness :
  let indeterminate := λ n, replicate n 7%Z in
  let m := [1; 2; 3; 4]%Z in
  (∀ n, length (indeterminate n) = n) ∧ well_formed 2 2 m ∧
  m !! 1 = Some 2%Z ∧
  (∃ p, Matrix.operator_mul_scalar indeterminate 2 2 m 3%Z = Some p ∧
     Matrix.operator_scalar_mul indeterminate 2 2 3%Z m = Some p ∧
     Matrix.operator_mul_assign_scalar 2 2 m (Matrix.Elsewhere 3%Z)
     = Some p ∧
     well_formed 2 2 p ∧
     ∀ lay r c, r < 2 → c < 2 →
       Matrix.operator_call lay 2 2 p r c
       = Some (mul (entry lay 2 2 m r c) 3%Z)) ∧
  (∃ p, Matrix.operator_mul_assign_scalar 2 2 m (Matrix.Within 1) = Some p ∧
     well_formed 2 2 p ∧
     ∀ i a, m !! i = Some a →
       p !! i = Some (mul a (if i <=? 1 then 2%Z else mul 2%Z 2%Z))).
Proof.
  intros indeterminate m.
  assert (∀ n, length (indeterminate n) = n) as Hind
    by (intros n; apply length_replicate).
  split; [done |]. split; [reflexivity |]. split; [reflexivity |].
  exact (conj
    (proj1 (operator_mul_scalar_entries Z _ indeterminate 2 2 m 3%Z Hind
              eq_refl))
    (proj2 (operator_mul_scalar_entries Z _ indeterminate 2 2 m 3%Z Hind
              eq_refl) 1 2%Z eq_refl)).
Defined.

(** X9. [Trace()] is the sum of the diagonal accumulated from [T(0)], and
    transposing, out of place or in place, does not change it. *)
Theorem Trace_diagonal_sum
    (T : Type) (ops : Scalar T) (lay : Layout) (auto_init : bool)
    (indeterminate : nat → list T) (N : nat) (m : list T) :
  (∀ n, length (indeterminate n) = n) →
  well_formed N N m →
  Matrix.Trace lay N m = Some (sum N (λ i, entry lay N N m i i)) ∧
  (∃ t, Matrix.Transposed lay auto_init indeterminate N N m = Some t ∧
        Matrix.Trace lay N t = Matrix.Trace lay N m) ∧
  (∃ t, Matrix.Transpose N m = Some t ∧
        Matrix.Trace lay N t = Matrix.Trace lay N m).
Proof.
  intros Hind Hm. split_and!.
  - by apply Trace_spec.
  - destruct (Transposed_spec lay auto_init indeterminate Hind N N m Hm)
      as (t & Hrun & Ht & Hcells).
    exists t. split; [done |]. rewrite !Trace_spec by done. f_equal.
    apply foldl_seq_ext. intros i acc Hi. unfold entry.
    by rewrite Hcells.
  - destruct (Transpose_spec lay N m Hm) as (t & Hrun & Ht & Hcells).
    exists t. split; [done |]. rewrite !Trace_spec by done. f_equal.
    apply foldl_seq_ext. intros i acc Hi. unfold entry.
    by rewrite Hcells.
Qed.

Lemma Trace_diagonal_sum_witness :
  let indeterminate := λ n, replicate n 7%Z in
  let m := [1; 2; 3; 4; 5; 6; 7; 8; 9]%Z in
  (∀ n, length (indeterminate n) = n) ∧ well_formed 3 3 m ∧
  Matrix.Trace ColumnMajor 3 m
  = Some (sum 3 (λ i, entry ColumnMajor 3 3 m i i)) ∧
  (∃ t, Matrix.Transposed ColumnMajor true indeterminate 3 3 m = Some t ∧
        Matrix.Trace ColumnMajor 3 t = Matrix.Trace ColumnMajor 3 m) ∧
  (∃ t, Matrix.Transpose 3 m = Some t ∧
        Matrix.Trace ColumnMajor 3 t = Matrix.Trace ColumnMajor 3 m).
Proof.
  intros indeterminate m.
  assert (∀ n, length (indeterminate n) = n) as Hind
    by (intros n; apply length_replicate).
  split; [done |]. split; [reflexivity |].
  exact (Trace_diagonal_sum Z _ ColumnMajor true indeterminate 3 m Hind
           eq_refl).
Defined.

(** X10. Transposing in place twice gives back the array. *)
Theorem Transpose_involutive
    (T : Type) (ops : Scalar T) (N : nat) (m : list T) :
  well_formed N N m →
  ∃ t, Matrix.Transpose N m = Some t ∧ well_formed N N t ∧
       Matrix.Transpose N t = Some m.
Proof.
  intros Hm.
  destruct (Transpose_spec RowMajor N m Hm) as (t & Hrun & Ht & Hcells).
  destruct (Transpose_spec RowMajor N t Ht) as (m' & Hrun' & Hm' & Hcells').
  exists t. split_and!; [done | done |].
  rewrite Hrun'. f_equal. apply (matrix_ext RowMajor N N); [done | done |].
  intros r c Hr Hc. by rewrite Hcells', Hcells.
Qed.

Lemma Transpose_involutive_witness :
  let m := [1; 2; 3; 4; 5; 6; 7; 8; 9]%Z in
  well_formed 3 3 m ∧
  ∃ t, Matrix.Transpose 3 m = Some t ∧ well_formed 3 3 t ∧
       Matrix.Transpose 3 t = Some m.
Proof.
  intros m. split; [reflexivity |].
  exact (Transpose_involutive Z _ 3 m eq_refl).
Defined.

Lemma length_bind_seq {A : Type} (g : nat → list A) (len : nat → nat) k :
  (∀ i, i < k → length (g i) = len i) →
  length (seq 0 k ≫= g) = foldl (λ acc i, acc + len i) 0 (seq 0 k).
Proof.
  induction k as [|k IH]; intros Hlen; [done |].
  rewrite seq_S, bind_app, length_app, foldl_snoc, IH
    by (intros; apply Hlen; lia).
  simpl. rewrite app_nil_r, Hlen by lia. done.
Qed.

Lemma triangle_count N k :
  k < N ∨ k = 0 →
  2 * foldl (λ acc i, acc + (N - i - 1)) 0 (seq 0 k) + k * (k + 1)
  = 2 * k * N.
Proof.
  induction k as [|k IH]; intros Hk; [done |].
  rewrite seq_S, foldl_snoc. simpl (0 + k).
  assert (k < N ∨ k = 0) as Hk' by lia. specialize (IH Hk'). nia.
Qed.

(** X11. [Transpose()] calls [std::swap] [N * (N - 1) / 2] times, and not at
    all on a 1 by 1 matrix, which it leaves as it is. *)
Theorem Transpose_swap_count (N : nat) :
  (∃ log, Matrix.Transpose_swaps N = Some log ∧
          2 * length log = N * (N - 1)) ∧
  Matrix.Transpose_swaps 1 = Some [] ∧
  ∀ (T : Type) (x : T), Matrix.Transpose 1 [x] = Some [x].
Proof.
  split; [|done].
  unfold Matrix.Transpose_swaps. rewrite Transpose_loops_range.
  rewrite (for_range2_log
    (λ i j, (i * (N + 1) + j, (j + i) * N + i)) 0 (N - 1) 1 (λ i, N - i))
    by lia.
  eexists. split; [done |]. simpl.
  rewrite Nat.sub_0_r.
  rewrite (length_bind_seq _ (λ i, N - i - 1)).
  - pose proof (triangle_count N (N - 1)) as Hcount.
    destruct N as [|N]; [done |].
    replace (S N - 1) with N in * by lia. nia.
  - intros i Hi. by rewrite length_fmap, length_seq.
Qed.

(** X12. [LoadIdentity()] overwrites whatever the matrix held: it leaves the
    matrix [Identity()] returns, which is its own transpose, out of place and
    in place. *)
Theorem LoadIdentity_overwrites
    (T : Type) (ops : Scalar T) (lay : Layout) (auto_init : bool)
    (indeterminate : nat → list T) (N : nat) (m : list T) :
  (∀ n, length (indeterminate n) = n) →
  well_formed N N m →
  ∃ id, Matrix.Identity lay auto_init indeterminate N = Some id ∧
    Matrix.LoadIdentity lay N m = Some id ∧
    Matrix.Transposed lay auto_init indeterminate N N id = Some id ∧
    Matrix.Transpose N id = Some id.
Proof.
  intros Hind Hm.
  destruct (Identity_spec lay auto_init indeterminate Hind N)
    as (id & Hid & Hwf & Hcells).
  exists id. split_and!; [done | | |].
  - destruct (LoadIdentity_spec lay N m Hm) as (id' & -> & Hwf' & Hcells').
    f_equal. apply (matrix_ext lay N N); [done | done |].
    intros r c Hr Hc. by rewrite Hcells, Hcells'.
  - destruct (Transposed_spec lay auto_init indeterminate Hind N N id Hwf)
      as (t & -> & Ht & Hmirror).
    f_equal. apply (matrix_ext lay N N); [done | done |].
    intros r c Hr Hc. rewrite Hmirror, !Hcells by done.
    by rewrite (Nat.eqb_sym c r).
  - destruct (Transpose_spec lay N id Hwf) as (t & -> & Ht & Hmirror).
    f_equal. apply (matrix_ext lay N N); [done | done |].
    intros r c Hr Hc. rewrite Hmirror, !Hcells by done.
    by rewrite (Nat.eqb_sym c r).
Qed.

Lemma LoadIdentity_overwrites_witness :
  let indeterminate := λ n, replicate n 7%Z in
  let m := [1; 2; 3; 4; 5; 6; 7; 8; 9]%Z in
  (∀ n, length (indeterminate n) = n) ∧ well_formed 3 3 m ∧
  ∃ id, Matrix.Identity RowMajor false indeterminate 3 = Some id ∧
    Matrix.LoadIdentity RowMajor 3 m = Some id ∧
    Matrix.Transposed RowMajor false indeterminate 3 3 id = Some id ∧
    Matrix.Transpose 3 id = Some id.
Proof.
  intros indeterminate m.
  assert (∀ n, length (indeterminate n) = n) as Hind
    by (intros n; apply length_replicate).
  split; [done |]. split; [reflexivity |].
  exact (LoadIdentity_overwrites Z _ RowMajor false indeterminate 3 m Hind
           eq_refl).
Defined.

(** * Sums of products *)

Section Sums.
Context {T : Type} `{Scalar T}.

Lemma sum_S n (f : nat → T) : sum (S n) f = add (sum n f) (f n).
Proof. unfold sum. by rewrite seq_S, foldl_snoc. Qed.

Lemma sum_ext n (f g : nat → T) :
  (∀ i, i < n → f i = g i) → sum n f = sum n g.
Proof.
  intros Hext. unfold sum. apply foldl_seq_ext.
  intros i acc Hi. by rewrite Hext.
Qed.

Lemma dot_sum lay Rows K Cols (a b : list T) r c :
  dot lay Rows K Cols a b r c
  = sum K (λ i, mul (entry lay Rows K a r i) (entry lay K Cols b i c)).
Proof. reflexivity. Qed.

Context `{!SemiringScalar T}.

Lemma sum_zero n : sum n (λ _, zero) = zero.
Proof.
  induction n as [|n IH]; [done |].
  by rewrite sum_S, IH, scalar_add_zero.
Qed.

Lemma sum_add n (f g : nat → T) :
  sum n (λ i, add (f i) (g i)) = add (sum n f) (sum n g).
Proof.
  induction n as [|n IH].
  - unfold sum. simpl. by rewrite scalar_add_zero.
  - rewrite !sum_S, IH.
    rewrite (scalar_add_assoc (add (sum n f) (sum n g))).
    rewrite <- (scalar_add_assoc (sum n f) (sum n g) (f n)).
    rewrite (scalar_add_comm (sum n g) (f n)).
    by rewrite !scalar_add_assoc.
Qed.

Lemma sum_mul_l n (x : T) (f : nat → T) :
  mul x (sum n f) = sum n (λ i, mul x (f i)).
Proof.
  induction n as [|n IH].
  - unfold sum. simpl. apply scalar_mul_zero_r.
  - by rewrite !sum_S, scalar_mul_add_l, IH.
Qed.

Lemma sum_mul_r n (x : T) (f : nat → T) :
  mul (sum n f) x = sum n (λ i, mul (f i) x).
Proof.
  induction n as [|n IH].
  - unfold sum. simpl. apply scalar_mul_zero_l.
  - by rewrite !sum_S, scalar_mul_add_r, IH.
Qed.

Lemma sum_swap n k (f : nat → nat → T) :
  sum n (λ i, sum k (λ j, f i j)) = sum k (λ j, sum n (λ i, f i j)).
Proof.
  induction n as [|n IH].
  - transitivity (sum k (λ _, zero)); [by rewrite sum_zero |].
    by apply sum_ext.
  - rewrite sum_S, IH, <- sum_add. apply sum_ext.
    intros j Hj. by rewrite sum_S.
Qed.

End Sums.

#[export] Instance Z_SemiringScalar : SemiringScalar Z.
Proof. split; intros; simpl; lia. Qed.

#[export] Instance Z_CommutativeScalar : CommutativeScalar Z.
Proof. split; intros; simpl; lia. Qed.

Section ProductAlgebra.
Context {T : Type} `{Scalar T}.
Variable lay : Layout.
Variable indeterminate : nat → list T.
Hypothesis indeterminate_length : ∀ n, length (indeterminate n) = n.
Implicit Types (a b : list T).

(** The entries of a product, as values. *)
Lemma operator_mul_entries Rows K Cols a b :
  well_formed Rows K a → well_formed K Cols b →
  ∃ p, Matrix.operator_mul lay indeterminate Rows K Cols a b = Some p ∧
    well_formed Rows Cols p ∧
    ∀ r c, r < Rows → c < Cols →
      entry lay Rows Cols p r c = dot lay Rows K Cols a b r c.
Proof.
  intros Ha Hb.
  destruct (operator_mul_spec lay indeterminate indeterminate_length
              Rows K Cols a b Ha Hb) as (p & Hrun & Hp & Hdots).
  exists p. split_and!; [done | done |].
  intros r c Hr Hc. by apply entry_operator_call, Hdots.
Qed.

(** A matrix with the entries of a product is the product. *)
Lemma operator_mul_unique Rows K Cols a b p :
  well_formed Rows K a → well_formed K Cols b → well_formed Rows Cols p →
  (∀ r c, r < Rows → c < Cols →
     entry lay Rows Cols p r c = dot lay Rows K Cols a b r c) →
  Matrix.operator_mul lay indeterminate Rows K Cols a b = Some p.
Proof.
  intros Ha Hb Hp Hentries.
  destruct (operator_mul_spec lay indeterminate indeterminate_length
              Rows K Cols a b Ha Hb) as (p' & -> & Hp' & Hdots).
  f_equal. apply (matrix_ext lay Rows Cols); [done | done |].
  intros r c Hr Hc.
  by rewrite Hdots, operator_call_entry, Hentries.
Qed.

End ProductAlgebra.

(** X13. Over a scalar type that is a semiring the product is associative:
    [(a * b) * c] and [a * (b * c)] are the same array, for all shapes that
    fit. *)
Theorem operator_mul_associative
    (T : Type) (ops : Scalar T) (semiring : SemiringScalar T) (lay : Layout)
    (indeterminate : nat → list T) (Rows K1 K2 Cols : nat)
    (a b c : list T) :
  (∀ n, length (indeterminate n) = n) →
  well_formed Rows K1 a → well_formed K1 K2 b → well_formed K2 Cols c →
  ∃ ab bc p,
    Matrix.operator_mul lay indeterminate Rows K1 K2 a b = Some ab ∧
    Matrix.operator_mul lay indeterminate K1 K2 Cols b c = Some bc ∧
    Matrix.operator_mul lay indeterminate Rows K2 Cols ab c = Some p ∧
    Matrix.operator_mul lay indeterminate Rows K1 Cols a bc = Some p.
Proof.
  intros Hind Ha Hb Hc.
  destruct (operator_mul_entries lay indeterminate Hind Rows K1 K2 a b)
    as (ab & Hrun_ab & Hwf_ab & Hab); [done | done |].
  destruct (operator_mul_entries lay indeterminate Hind K1 K2 Cols b c)
    as (bc & Hrun_bc & Hwf_bc & Hbc); [done | done |].
  destruct (operator_mul_entries lay indeterminate Hind Rows K2 Cols ab c)
    as (p & Hrun_p & Hwf_p & Hp); [done | done |].
  exists ab, bc, p. split_and!; [done | done | done |].
  apply operator_mul_unique; [done | done | done | done |].
  intros r col Hr Hcol. rewrite Hp by done. rewrite !dot_sum.
  transitivity (sum K2 (λ j, sum K1 (λ i,
    mul (mul (entry lay Rows K1 a r i) (entry lay K1 K2 b i j))
        (entry lay K2 Cols c j col)))).
  { apply sum_ext. intros j Hj.
    by rewrite Hab, dot_sum, sum_mul_r. }
  rewrite sum_swap. apply sum_ext. intros i Hi.
  rewrite Hbc, dot_sum, sum_mul_l by done.
  apply sum_ext. intros j Hj. by rewrite scalar_mul_assoc.
Qed.

Lemma operator_mul_associative_witness :
  let indeterminate := λ n, replicate n 7%Z in
  let a := [1; 2; 3; 4; 5; 6]%Z in
  let b := [1; 0; 2; -1; 3; 1]%Z in
  let c := [2; 1; 0; 1; -1; 3; 1; 1]%Z in
  (∀ n, length (indeterminate n) = n) ∧
  well_formed 2 3 a ∧ well_formed 3 2 b ∧ well_formed 2 4 c ∧
  ∃ ab bc p,
    Matrix.operator_mul RowMajor indeterminate 2 3 2 a b = Some ab ∧
    Matrix.operator_mul RowMajor indeterminate 3 2 4 b c = Some bc ∧
    Matrix.operator_mul RowMajor indeterminate 2 2 4 ab c = Some p ∧
    Matrix.operator_mul RowMajor indeterminate 2 3 4 a bc = Some p.
Proof.
  intros indeterminate a b c.
  assert (∀ n, length (indeterminate n) = n) as Hind
    by (intros n; apply length_replicate).
  split; [done |]. split; [reflexivity |]. split; [reflexivity |].
  split; [reflexivity |].
  exact (operator_mul_associative Z _ _ RowMajor indeterminate 2 3 2 4 a b c
           Hind eq_refl eq_refl eq_refl).
Defined.

(** X14. Over a scalar type whose product commutes, the transpose of a
    product is the product of the transposes in the opposite order. *)
Theorem Transposed_operator_mul
    (T : Type) (ops : Scalar T) (commutative : CommutativeScalar T)
    (lay : Layout) (auto_init : bool) (indeterminate : nat → list T)
    (Rows K Cols : nat) (a b : list T) :
  (∀ n, length (indeterminate n) = n) →
  well_formed Rows K a → well_formed K Cols b →
  ∃ ab at_ bt t,
    Matrix.operator_mul lay indeterminate Rows K Cols a b = Some ab ∧
    Matrix.Transposed lay auto_init indeterminate Rows K a = Some at_ ∧
    Matrix.Transposed lay auto_init indeterminate K Cols b = Some bt ∧
    Matrix.Transposed lay auto_init indeterminate Rows Cols ab = Some t ∧
    Matrix.operator_mul lay indeterminate Cols K Rows bt at_ = Some t.
Proof.
  intros Hind Ha Hb.
  destruct (operator_mul_entries lay indeterminate Hind Rows K Cols a b)
    as (ab & Hrun_ab & Hwf_ab & Hab); [done | done |].
  destruct (Transposed_spec lay auto_init indeterminate Hind Rows K a Ha)
    as (at_ & Hrun_at & Hwf_at & Hat).
  destruct (Transposed_spec lay auto_init indeterminate Hind K Cols b Hb)
    as (bt & Hrun_bt & Hwf_bt & Hbt).
  destruct (Transposed_spec lay auto_init indeterminate Hind Rows Cols ab
              Hwf_ab) as (t & Hrun_t & Hwf_t & Ht).
  exists ab, at_, bt, t. split_and!; [done | done | done | done |].
  apply operator_mul_unique; [done | done | done | done |].
  intros c r Hc Hr. unfold entry at 1. rewrite Ht by done.
  fold (entry lay Rows Cols ab r c). rewrite Hab by done.
  rewrite !dot_sum. apply sum_ext. intros i Hi.
  unfold entry at 3 4. rewrite Hbt, Hat by done.
  apply scalar_mul_comm.
Qed.

Lemma Transposed_operator_mul_witness :
  let indeterminate := λ n, replicate n 7%Z in
  let a := [1; 2; 3; 4; 5; 6]%Z in
  let b := [1; 0; 2; -1; 3; 1]%Z in
  (∀ n, length (indeterminate n) = n) ∧
  well_formed 2 3 a ∧ well_formed 3 2 b ∧
  ∃ ab at_ bt t,
    Matrix.operator_mul ColumnMajor indeterminate 2 3 2 a b = Some ab ∧
    Matrix.Transposed ColumnMajor true indeterminate 2 3 a = Some at_ ∧
    Matrix.Transposed ColumnMajor true indeterminate 3 2 b = Some bt ∧
    Matrix.Transposed ColumnMajor true indeterminate 2 2 ab = Some t ∧
    Matrix.operator_mul ColumnMajor indeterminate 2 3 2 bt at_ = Some t.
Proof.
  intros indeterminate a b.
  assert (∀ n, length (indeterminate n) = n) as Hind
    by (intros n; apply length_replicate).
  split; [done |]. split; [reflexivity |]. split; [reflexivity |].
  exact (Transposed_operator_mul Z _ _ ColumnMajor true indeterminate 2 3 2
           a b Hind eq_refl eq_refl).
Defined.

(** X15. Over a semiring the product distributes over the sum of matrices,
    on either side: [a * (b + c) = a * b + a * c] and
    [(a + b) * c = a * c + b * c]. *)
Theorem operator_mul_distributes
    (T : Type) (ops : Scalar T) (semiring : SemiringScalar T) (lay : Layout)
    (indeterminate : nat → list T) (Rows K Cols : nat) :
  (∀ n, length (indeterminate n) = n) →
  (∀ a b c : list T,
     well_formed Rows K a → well_formed K Cols b → well_formed K Cols c →
     ∃ bc ab ac p,
       Matrix.operator_add indeterminate K Cols b c = Some bc ∧
       Matrix.operator_mul lay indeterminate Rows K Cols a b = Some ab ∧
       Matrix.operator_mul lay indeterminate Rows K Cols a c = Some ac ∧
       Matrix.operator_mul lay indeterminate Rows K Cols a bc = Some p ∧
       Matrix.operator_add indeterminate Rows Cols ab ac = Some p) ∧
  (∀ a b c : list T,
     well_formed Rows K a → well_formed Rows K b → well_formed K Cols c →
     ∃ ab ac bc p,
       Matrix.operator_add indeterminate Rows K a b = Some ab ∧
       Matrix.operator_mul lay indeterminate Rows K Cols a c = Some ac ∧
       Matrix.operator_mul lay indeterminate Rows K Cols b c = Some bc ∧
       Matrix.operator_mul lay indeterminate Rows K Cols ab c = Some p ∧
       Matrix.operator_add indeterminate Rows Cols ac bc = Some p).
Proof.
  intros Hind.
  assert (∀ R C (x y : list T), well_formed R C x → well_formed R C y →
    Matrix.operator_add indeterminate R C x y = Some (zip_with add x y))
    as Hadd.
  { intros R C x y Hx Hy. unfold Matrix.operator_add.
    rewrite Matrix_copy_eq by done. simpl. by apply operator_add_assign_eq. }
  assert (∀ R C (x y : list T) r c, well_formed R C x → well_formed R C y →
    r < R → c < C →
    entry lay R C (zip_with add x y) r c
    = add (entry lay R C x r c) (entry lay R C y r c)) as Hsum.
  { intros R C x y r c Hx Hy Hr Hc.
    by apply entry_operator_call, operator_call_zip_with. }
  split.
  - intros a b c Ha Hb Hc.
    destruct (operator_mul_entries lay indeterminate Hind Rows K Cols a b)
      as (ab & Hrun_ab & Hwf_ab & Hab); [done | done |].
    destruct (operator_mul_entries lay indeterminate Hind Rows K Cols a c)
      as (ac & Hrun_ac & Hwf_ac & Hac); [done | done |].
    exists (zip_with add b c), ab, ac, (zip_with add ab ac).
    rewrite !Hadd by done.
    split_and!; [done | done | done | | done].
    apply operator_mul_unique;
      [done | done | by apply well_formed_zip_with.. |].
    intros r col Hr Hcol.
    rewrite Hsum, Hab, Hac, !dot_sum, <- sum_add by done.
    apply sum_ext. intros i Hi.
    by rewrite Hsum, scalar_mul_add_l.
  - intros a b c Ha Hb Hc.
    destruct (operator_mul_entries lay indeterminate Hind Rows K Cols a c)
      as (ac & Hrun_ac & Hwf_ac & Hac); [done | done |].
    destruct (operator_mul_entries lay indeterminate Hind Rows K Cols b c)
      as (bc & Hrun_bc & Hwf_bc & Hbc); [done | done |].
    exists (zip_with add a b), ac, bc, (zip_with add ac bc).
    rewrite !Hadd by done.
    split_and!; [done | done | done | | done].
    apply operator_mul_unique;
      [done | by apply well_formed_zip_with | done
      | by apply well_formed_zip_with |].
    intros r col Hr Hcol.
    rewrite Hsum, Hac, Hbc, !dot_sum, <- sum_add by done.
    apply sum_ext. intros i Hi.
    by rewrite Hsum, scalar_mul_add_r.
Qed.

Lemma operator_mul_distributes_witness :
  let indeterminate := λ n, replicate n 7%Z in
  let a := [1; 2; 3; 4; 5; 6]%Z in
  let b := [1; 0; 2; -1; 3; 1]%Z in
  let c := [2; 1; 0; 1; -1; 3]%Z in
  (∀ n, length (indeterminate n) = n) ∧
  well_formed 2 3 a ∧ well_formed 3 2 b ∧ well_formed 3 2 c ∧
  ∃ bc ab ac p,
    Matrix.operator_add indeterminate 3 2 b c = Some bc ∧
    Matrix.operator_mul RowMajor indeterminate 2 3 2 a b = Some ab ∧
    Matrix.operator_mul RowMajor indeterminate 2 3 2 a c = Some ac ∧
    Matrix.operator_mul RowMajor indeterminate 2 3 2 a bc = Some p ∧
    Matrix.operator_add indeterminate 2 2 ab ac = Some p.
Proof.
  intros indeterminate a b c.
  assert (∀ n, length (indeterminate n) = n) as Hind
    by (intros n; apply length_replicate).
  split; [done |]. split; [reflexivity |]. split; [reflexivity |].
  split; [reflexivity |].
  exact (proj1 (operator_mul_distributes Z _ _ RowMajor indeterminate 2 3 2
                  Hind) a b c eq_refl eq_refl eq_refl).
Defined.

(** X16. Over an exact scalar type [m *= Identity()] leaves [m] as it is, and
    so does [m.RotateFree(axis, angle)] when the rotation function hands the
    identity back untouched. *)
Theorem operator_mul_assign_identity
    (T : Type) (ops : Scalar T) (exact : ExactScalar T) (lay : Layout)
    (auto_init : bool) (indeterminate : nat → list T) (N : nat)
    (m : list T) :
  (∀ n, length (indeterminate n) = n) →
  well_formed N N m →
  ∃ id, Matrix.Identity lay auto_init indeterminate N = Some id ∧
    Matrix.operator_mul_assign lay indeterminate N m id = Some m ∧
    Matrix.operator_mul_assign lay indeterminate N id m = Some m ∧
    ∀ (Vec : Type) (Gs_MakeFreeRotation : nat → list T → Vec → T → list T)
      (axis : Vec) (angle : T),
      Gs_MakeFreeRotation N id axis angle = id →
      Matrix.RotateFree lay auto_init indeterminate Vec Gs_MakeFreeRotation
        N m axis angle = Some m.
Proof.
  intros Hind Hm.
  destruct (Identity_spec lay auto_init indeterminate Hind N)
    as (id & Hid & Hwf & Hcells).
  assert (∀ i j, i < N → j < N →
            entry lay N N id i j = if i =? j then one else zero) as Hentries
    by (intros i j Hi Hj; by apply entry_operator_call, Hcells).
  assert (Matrix.operator_mul_assign lay indeterminate N m id = Some m)
    as Hright.
  { unfold Matrix.operator_mul_assign.
    rewrite (operator_mul_unique lay indeterminate Hind N N N m id m);
      [simpl; by apply operator_assign_eq | done.. |].
    intros r c Hr Hc. by rewrite dot_identity_r. }
  exists id. split_and!; [done | done | |].
  - unfold Matrix.operator_mul_assign.
    rewrite (operator_mul_unique lay indeterminate Hind N N N id m m);
      [simpl; by apply operator_assign_eq | done.. |].
    intros r c Hr Hc. by rewrite dot_identity_l.
  - intros Vec rot axis angle Hrot. unfold Matrix.RotateFree.
    rewrite Hid. simpl. by rewrite Hrot.
Qed.

Lemma operator_mul_assign_identity_witness :
  let indeterminate := λ n, replicate n 7%Z in
  let m := [1; 2; 3; 4; 5; 6; 7; 8; 9]%Z in
  (∀ n, length (indeterminate n) = n) ∧ well_formed 3 3 m ∧
  ∃ id, Matrix.Identity ColumnMajor true indeterminate 3 = Some id ∧
    Matrix.operator_mul_assign ColumnMajor indeterminate 3 m id = Some m ∧
    Matrix.operator_mul_assign ColumnMajor indeterminate 3 id m = Some m ∧
    ∀ (Vec : Type) (Gs_MakeFreeRotation : nat → list Z → Vec → Z → list Z)
      (axis : Vec) (angle : Z),
      Gs_MakeFreeRotation 3 id axis angle = id →
      Matrix.RotateFree ColumnMajor true indeterminate Vec
        Gs_MakeFreeRotation 3 m axis angle = Some m.
Proof.
  intros indeterminate m.
  assert (∀ n, length (indeterminate n) = n) as Hind
    by (intros n; apply length_replicate).
  split; [done |]. split; [reflexivity |].
  exact (operator_mul_assign_identity Z _ _ ColumnMajor true indeterminate
           3 m Hind eq_refl).
Defined.

(** * More on the initializer chain *)

Lemma operator_comma_overflow {T : Type} `{Scalar T} lay Rows Cols
    (ini : Matrix.Initializer) (v : T) :
  Rows * Cols ≤ Matrix.element_ ini →
  Matrix.operator_comma lay Rows Cols ini v = None.
Proof.
  intros Hfull.
  unfold Matrix.operator_comma, Matrix.operator_call_assign,
    Matrix.operator_call_ref.
  destruct (Nat.ltb_spec (Matrix.element_ ini / Cols) Rows) as [Hrow|];
    [|done].
  destruct (Nat.ltb_spec (Matrix.element_ ini mod Cols) Cols) as [Hcol|];
    [|done].
  pose proof (Nat.div_mod_eq (Matrix.element_ ini) Cols). nia.
Qed.

Lemma commas_overflow {T : Type} `{Scalar T} lay Rows Cols
    (values : list T) : ∀ (m : list T) n,
  well_formed Rows Cols m → n ≤ Rows * Cols →
  Rows * Cols < n + length values →
  Matrix.commas lay Rows Cols
    {| Matrix.matrix_ := m; Matrix.element_ := n |} values = None.
Proof.
  induction values as [|v values IH]; intros m n Hm Hn Hover; simpl in *.
  - lia.
  - destruct (decide (n < Rows * Cols)) as [Hlt|Hge].
    + rewrite operator_comma_insert by done. simpl.
      apply IH; [by apply well_formed_insert | lia | lia].
    + by rewrite operator_comma_overflow by (simpl; lia).
Qed.

(** X17. A chain that supplies more than [Rows * Cols] values does not run
    to its end: the value after the last place fails the assertion of
    [operator ()]. *)
Theorem chain_overflow
    (T : Type) (ops : Scalar T) (lay : Layout) (Rows Cols : nat)
    (m : list T) (v0 : T) (values : list T) :
  well_formed Rows Cols m →
  Rows * Cols < length (v0 :: values) →
  Matrix.chain lay Rows Cols m v0 values = None.
Proof.
  intros Hm Hover.
  pose proof (commas_overflow lay Rows Cols (v0 :: values) m 0 Hm) as Hrun.
  unfold Matrix.chain, Matrix.operator_shl. simpl in Hrun.
  destruct (Matrix.operator_comma _ _ _ _ _) as [ini|]; [|done].
  simpl in *. rewrite Hrun; [done | lia | lia].
Qed.

Lemma chain_overflow_witness :
  let m := [0; 0; 0; 0]%Z in
  well_formed 2 2 m ∧ 2 * 2 < length [1; 2; 3; 4; 5]%Z ∧
  Matrix.chain ColumnMajor 2 2 m 1%Z [2; 3; 4; 5]%Z = None.
Proof.
  intros m.
  assert (2 * 2 < length [1; 2; 3; 4; 5]%Z) as Hover by (simpl; lia).
  split; [reflexivity |]. split; [done |].
  exact (chain_overflow Z _ ColumnMajor 2 2 m 1%Z [2; 3; 4; 5]%Z
           eq_refl Hover).
Defined.

Lemma concat_uniform_lookup {A : Type} (W : nat) (l : list (list A)) :
  ∀ r c, (∀ row, row ∈ l → length row = W) → c < W →
  concat l !! (r * W + c) = l !! r ≫= (.!! c).
Proof.
  induction l as [|x l IH]; intros r c Hrows Hc; [done |].
  assert (length x = W) as Hx by (apply Hrows; left).
  destruct r as [|r]; simpl.
  - apply lookup_app_l. lia.
  - rewrite lookup_app_r by lia.
    replace (W + r * W + c - length x) with (r * W + c) by lia.
    apply IH; [|done]. intros row Hrow. apply Hrows. by right.
Qed.

Lemma concat_uniform_length {A : Type} (W : nat) (l : list (list A)) :
  (∀ row, row ∈ l → length row = W) → length (concat l) = length l * W.
Proof.
  induction l as [|x l IH]; intros Hrows; [done |].
  assert (length x = W) as Hx by (apply Hrows; left).
  simpl. rewrite length_app, IH, Hx; [done |].
  intros row Hrow. apply Hrows. by right.
Qed.

Section RowsOfMatrix.
Context {T : Type} `{Scalar T}.
Variable lay : Layout.

Lemma to_rows_uniform Rows Cols (m : list T) row :
  row ∈ to_rows lay Rows Cols m → length row = Cols.
Proof.
  unfold to_rows. intros (r & -> & _)%list_elem_of_fmap.
  by rewrite length_fmap, length_seq.
Qed.

Lemma concat_to_rows_length Rows Cols (m : list T) :
  length (concat (to_rows lay Rows Cols m)) = Rows * Cols.
Proof.
  rewrite (concat_uniform_length Cols) by apply to_rows_uniform.
  unfold to_rows. by rewrite length_fmap, length_seq.
Qed.

Lemma concat_to_rows_lookup Rows Cols (m : list T) r c :
  r < Rows → c < Cols →
  concat (to_rows lay Rows Cols m) !! (r * Cols + c)
  = Some (entry lay Rows Cols m r c).
Proof.
  intros Hr Hc.
  rewrite (concat_uniform_lookup Cols) by (apply to_rows_uniform || done).
  by apply to_rows_lookup.
Qed.

End RowsOfMatrix.

(** X18. Writing with a chain and reading row by row are inverse to each
    other: a chain of exactly [Rows * Cols] values leaves a matrix whose rows,
    one after the other, are these values, whatever the matrix held; and
    feeding the rows of [m0] to a chain on any matrix leaves [m0]. *)
Theorem chain_to_rows_round_trip
    (T : Type) (ops : Scalar T) (lay : Layout) (Rows Cols : nat)
    (m : list T) (v0 : T) (values : list T) :
  well_formed Rows Cols m →
  length (v0 :: values) = Rows * Cols →
  (∃ m', Matrix.chain lay Rows Cols m v0 values = Some m' ∧
     well_formed Rows Cols m' ∧
     concat (to_rows lay Rows Cols m') = v0 :: values) ∧
  (∀ m0, well_formed Rows Cols m0 →
     concat (to_rows lay Rows Cols m0) = v0 :: values →
     Matrix.chain lay Rows Cols m v0 values = Some m0).
Proof.
  intros Hm Hlen.
  destruct (chain_spec lay Rows Cols m v0 values Hm)
    as (m' & Hrun & Hm' & Hvals & _); [lia |].
  assert (∀ r c v, r < Rows → c < Cols →
    (v0 :: values) !! (r * Cols + c) = Some v →
    Matrix.operator_call lay Rows Cols m' r c = Some v) as Hcell.
  { intros r c v Hr Hc Hv. specialize (Hvals _ _ Hv).
    destruct (cursor_of_index Cols r c Hc) as [Hdiv Hmod].
    by rewrite Hdiv, Hmod in Hvals. }
  split.
  - exists m'. split_and!; [done | done |].
    apply list_eq. intros k.
    destruct (decide (k < Rows * Cols)) as [Hk|Hk].
    + destruct (slot_surj RowMajor Rows Cols k Hk) as (r & c & Hr & Hc & <-).
      simpl. rewrite concat_to_rows_lookup by done.
      destruct (lookup_lt_is_Some_2 (v0 :: values) (r * Cols + c)) as [v Hv].
      { rewrite Hlen. by apply linear_index_lt. }
      rewrite Hv. f_equal. by apply entry_operator_call, Hcell.
    + rewrite !lookup_ge_None_2;
        [done | lia | rewrite concat_to_rows_length; lia].
  - intros m0 Hm0 Hrows. rewrite Hrun. f_equal.
    apply (matrix_ext lay Rows Cols); [done | done |].
    intros r c Hr Hc. rewrite (operator_call_entry lay Rows Cols m0) by done.
    apply Hcell; [done | done |].
    rewrite <- Hrows. by apply concat_to_rows_lookup.
Qed.

Lemma chain_to_rows_round_trip_witness :
  let m := [0; 0; 0; 0; 0; 0]%Z in
  well_formed 2 3 m ∧ length [1; 2; 3; 4; 5; 6]%Z = 2 * 3 ∧
  (∃ m', Matrix.chain ColumnMajor 2 3 m 1%Z [2; 3; 4; 5; 6]%Z = Some m' ∧
     well_formed 2 3 m' ∧
     concat (to_rows ColumnMajor 2 3 m') = [1; 2; 3; 4; 5; 6]%Z) ∧
  (∀ m0, well_formed 2 3 m0 →
     concat (to_rows ColumnMajor 2 3 m0) = [1; 2; 3; 4; 5; 6]%Z →
     Matrix.chain ColumnMajor 2 3 m 1%Z [2; 3; 4; 5; 6]%Z = Some m0).
Proof.
  intros m. split; [reflexivity |]. split; [reflexivity |].
  exact (chain_to_rows_round_trip Z _ ColumnMajor 2 3 m 1%Z
           [2; 3; 4; 5; 6]%Z eq_refl eq_refl).
Defined.

(** X19. The column-major array of a matrix is the row-major array of its
    transpose: a row-major and a column-major array hold the same matrix
    exactly when [Transposed()] of the row-major build turns the one into the
    other, and likewise for the column-major build. *)
Theorem column_major_is_transposed_row_major
    (T : Type) (ops : Scalar T) (auto_init : bool)
    (indeterminate : nat → list T) (Rows Cols : nat) (mR mC : list T) :
  (∀ n, length (indeterminate n) = n) →
  well_formed Rows Cols mR → well_formed Rows Cols mC →
  (agree Rows Cols mR mC ↔
   Matrix.Transposed RowMajor auto_init indeterminate Rows Cols mR = Some mC) ∧
  (agree Rows Cols mR mC ↔
   Matrix.Transposed ColumnMajor auto_init indeterminate Rows Cols mC
   = Some mR).
Proof.
  intros Hind HR HC.
  assert (well_formed Cols Rows mR) as HR'
    by (unfold well_formed in *; lia).
  assert (well_formed Cols Rows mC) as HC'
    by (unfold well_formed in *; lia).
  destruct (Transposed_spec RowMajor auto_init indeterminate Hind Rows Cols
              mR HR) as (tR & HrunR & HtR & HcellsR).
  destruct (Transposed_spec ColumnMajor auto_init indeterminate Hind Rows Cols
              mC HC) as (tC & HrunC & HtC & HcellsC).
  rewrite HrunR, HrunC. split; split.
  - intros Hagree. f_equal.
    apply (matrix_ext RowMajor Cols Rows); [done | done |].
    intros c r Hc Hr. rewrite HcellsR by done.
    rewrite !operator_call_lookup by done. simpl.
    by apply agree_lookup.
  - intros [= <-]. apply agree_intro; [done | done |].
    intros r c Hr Hc. specialize (HcellsR r c Hr Hc).
    by rewrite !operator_call_lookup in HcellsR.
  - intros Hagree. f_equal.
    apply (matrix_ext ColumnMajor Cols Rows); [done | done |].
    intros c r Hc Hr. rewrite HcellsC by done.
    rewrite !operator_call_lookup by done. simpl.
    symmetry. by apply agree_lookup.
  - intros [= <-]. apply agree_intro; [done | done |].
    intros r c Hr Hc. specialize (HcellsC r c Hr Hc).
    by rewrite !operator_call_lookup in HcellsC.
Qed.

Lemma column_major_is_transposed_row_major_witness :
  let indeterminate := λ n, replicate n 7%Z in
  let mR := [1; 2; 3; 4; 5; 6]%Z in
  let mC := [1; 4; 2; 5; 3; 6]%Z in
  (∀ n, length (indeterminate n) = n) ∧
  well_formed 2 3 mR ∧ well_formed 2 3 mC ∧
  (agree 2 3 mR mC ↔
   Matrix.Transposed RowMajor true indeterminate 2 3 mR = Some mC) ∧
  (agree 2 3 mR mC ↔
   Matrix.Transposed ColumnMajor true indeterminate 2 3 mC = Some mR).
Proof.
  intros indeterminate mR mC.
  assert (∀ n, length (indeterminate n) = n) as Hind
    by (intros n; apply length_replicate).
  split; [done |]. split; [reflexivity |]. split; [reflexivity |].
  exact (column_major_is_transposed_row_major Z _ true indeterminate 2 3
           mR mC Hind eq_refl eq_refl).
Defined.

(** X20. Transposing commutes with the element-wise operations: the
    transpose of [a + b] is the sum of the transposes, and the transpose of
    [a * k] is the transpose of [a] times [k]. *)
Theorem Transposed_linear
    (T : Type) (ops : Scalar T) (lay : Layout) (auto_init : bool)
    (indeterminate : nat → list T) (Rows Cols : nat) (a b : list T)
    (k : T) :
  (∀ n, length (indeterminate n) = n) →
  well_formed Rows Cols a → well_formed Rows Cols b →
  ∃ at_ bt,
    Matrix.Transposed lay auto_init indeterminate Rows Cols a = Some at_ ∧
    Matrix.Transposed lay auto_init indeterminate Rows Cols b = Some bt ∧
    (∃ s, Matrix.operator_add indeterminate Rows Cols a b = Some s ∧
       Matrix.Transposed lay auto_init indeterminate Rows Cols s
       = Matrix.operator_add indeterminate Cols Rows at_ bt) ∧
    (∃ p, Matrix.operator_mul_scalar indeterminate Rows Cols a k = Some p ∧
       Matrix.Transposed lay auto_init indeterminate Rows Cols p
       = Matrix.operator_mul_scalar indeterminate Cols Rows at_ k).
Proof.
  intros Hind Ha Hb.
  destruct (Transposed_spec lay auto_init indeterminate Hind Rows Cols a Ha)
    as (at_ & Hrun_at & Hwf_at & Hat).
  destruct (Transposed_spec lay auto_init indeterminate Hind Rows Cols b Hb)
    as (bt & Hrun_bt & Hwf_bt & Hbt).
  exists at_, bt. split_and!; [done | done | |].
  - exists (zip_with add a b).
    pose proof (well_formed_zip_with add Rows Cols a b Ha Hb) as Hs.
    unfold Matrix.operator_add. rewrite !Matrix_copy_eq by done. simpl.
    rewrite !operator_add_assign_eq by done. split; [done |].
    destruct (Transposed_spec lay auto_init indeterminate Hind Rows Cols
                (zip_with add a b) Hs) as (t & -> & Ht & Hcells).
    f_equal. apply (matrix_ext lay Cols Rows);
      [done | by apply well_formed_zip_with |].
    intros c r Hc Hr.
    rewrite Hcells, !operator_call_zip_with by done.
    unfold entry. by rewrite Hat, Hbt.
  - exists ((λ x, mul x k) <$> a).
    pose proof (well_formed_fmap (λ x, mul x k) Rows Cols a Ha) as Hp.
    unfold Matrix.operator_mul_scalar. rewrite !Matrix_copy_eq by done.
    simpl. rewrite !operator_mul_assign_scalar_eq by done. split; [done |].
    destruct (Transposed_spec lay auto_init indeterminate Hind Rows Cols
                ((λ x, mul x k) <$> a) Hp) as (t & -> & Ht & Hcells).
    f_equal. apply (matrix_ext lay Cols Rows);
      [done | by apply well_formed_fmap |].
    intros c r Hc Hr.
    rewrite Hcells by done.
    rewrite !(operator_call_fmap lay (λ x, mul x k)) by done.
    unfold entry. by rewrite Hat.
Qed.

Lemma Transposed_linear_witness :
  let indeterminate := λ n, replicate n 7%Z in
  let a := [1; 2; 3; 4; 5; 6]%Z in
  let b := [6; 5; 4; 3; 2; 1]%Z in
  (∀ n, length (indeterminate n) = n) ∧
  well_formed 2 3 a ∧ well_formed 2 3 b ∧
  ∃ at_ bt,
    Matrix.Transposed RowMajor true indeterminate 2 3 a = Some at_ ∧
    Matrix.Transposed RowMajor true indeterminate 2 3 b = Some bt ∧
    (∃ s, Matrix.operator_add indeterminate 2 3 a b = Some s ∧
       Matrix.Transposed RowMajor true indeterminate 2 3 s
       = Matrix.operator_add indeterminate 3 2 at_ bt) ∧
    (∃ p, Matrix.operator_mul_scalar indeterminate 2 3 a 3%Z = Some p ∧
       Matrix.Transposed RowMajor true indeterminate 2 3 p
       = Matrix.operator_mul_scalar indeterminate 3 2 at_ 3%Z).
Proof.
  intros indeterminate a b.
  assert (∀ n, length (indeterminate n) = n) as Hind
    by (intros n; apply length_replicate).
  split; [done |]. split; [reflexivity |]. split; [reflexivity |].
  exact (Transposed_linear Z _ RowMajor true indeterminate 2 3 a b 3%Z Hind
           eq_refl eq_refl).
Defined.

(** * Properties of [Vector3.h] *)

(** X21. [v[component]] refers to [x], [y], [z] for 0, 1, 2 and fails the
    assertion from 3 on; a write through it is read back at the same index
    and leaves the other two components as they are. *)
Theorem Vector3_operator_index
    (T : Type) (ops : Scalar T) (v : Vector3T.Vector3T T) (component : nat)
    (t : T) :
  Vector3T.operator_index v 0 = Some (Vector3T.x v) ∧
  Vector3T.operator_index v 1 = Some (Vector3T.y v) ∧
  Vector3T.operator_index v 2 = Some (Vector3T.z v) ∧
  (3 ≤ component →
     Vector3T.operator_index v component = None ∧
     Vector3T.operator_index_assign v component t = None) ∧
  (component < 3 →
     ∃ v', Vector3T.operator_index_assign v component t = Some v' ∧
       Vector3T.operator_index v' component = Some t ∧
       ∀ other, other ≠ component →
         Vector3T.operator_index v' other = Vector3T.operator_index v other).
Proof.
  split_and!; try done.
  - intros Hout.
    unfold Vector3T.operator_index, Vector3T.operator_index_assign,
      Vector3T.components.
    by destruct (Nat.ltb_spec component 3); [lia |].
  - intros Hin.
    destruct component as [|[|[|component]]]; [| | |lia];
      (eexists; split; [done |]; split; [done |]);
      intros [|[|[|other]]] Hne; done.
Qed.

Lemma Vector3_operator_index_witness :
  let v := @Vector3T.Build_Vector3T Z 1%Z 2%Z 3%Z in
  1 < 3 ∧
  ∃ v', Vector3T.operator_index_assign v 1 9%Z = Some v' ∧
    Vector3T.operator_index v' 1 = Some 9%Z ∧
    ∀ other, other ≠ 1 →
      Vector3T.operator_index v' other = Vector3T.operator_index v other.
Proof.
  intros v. assert (1 < 3) as Hin by lia. split; [done |].
  destruct (Vector3_operator_index Z _ v 1 9%Z) as (_ & _ & _ & _ & Hwrite).
  exact (Hwrite Hin).
Defined.

(** X22. The operators of [Vector3T] work component by component: reading
    component [c] of [a + b], [a - b], [a * b], [a /= b], [a * k], [k * a],
    [a / k], of a cast and of [Vector3T(s)] gives the operation on the
    components [c] of the operands. *)
Theorem Vector3_componentwise
    (T : Type) (ops : Scalar T) (a b : Vector3T.Vector3T T) (k : T)
    (c : nat) :
  c < 3 →
  ∃ ac bc, Vector3T.operator_index a c = Some ac ∧
    Vector3T.operator_index b c = Some bc ∧
    Vector3T.operator_index (Vector3T.operator_add a b) c
    = Some (add ac bc) ∧
    Vector3T.operator_index (Vector3T.operator_sub a b) c
    = Some (sub ac bc) ∧
    Vector3T.operator_index (Vector3T.operator_mul a b) c
    = Some (mul ac bc) ∧
    Vector3T.operator_index (Vector3T.operator_div_assign a b) c
    = Some (div ac bc) ∧
    Vector3T.operator_index (Vector3T.operator_mul_scalar a k) c
    = Some (mul ac k) ∧
    Vector3T.operator_index (Vector3T.operator_scalar_mul k a) c
    = Some (mul ac k) ∧
    Vector3T.operator_index (Vector3T.operator_div_scalar a k) c
    = Some (div ac k) ∧
    Vector3T.operator_index (Vector3T.Vector3T_scalar k) c = Some k ∧
    Vector3T.operator_index Vector3T.Vector3T_default c = Some zero ∧
    ∀ (C : Type) (opsC : Scalar C) (static_cast_C : T → C),
      Vector3T.operator_index (Vector3T.Cast static_cast_C a) c
      = Some (static_cast_C ac).
Proof.
  intros Hc.
  destruct c as [|[|[|c]]]; [| | |lia]; by eexists _, _.
Qed.

Lemma Vector3_componentwise_witness :
  let a := @Vector3T.Build_Vector3T Z 1%Z 2%Z 3%Z in
  let b := @Vector3T.Build_Vector3T Z 4%Z 5%Z 6%Z in
  2 < 3 ∧
  ∃ ac bc, Vector3T.operator_index a 2 = Some ac ∧
    Vector3T.operator_index b 2 = Some bc ∧
    Vector3T.operator_index (Vector3T.operator_add a b) 2
    = Some (add ac bc).
Proof.
  intros a b. assert (2 < 3) as Hc by lia. split; [done |].
  destruct (Vector3_componentwise Z _ a b 7%Z 2 Hc)
    as (ac & bc & Ha & Hb & Hadd & _).
  by exists ac, bc.
Defined.

(** * The trace and the operators *)

(** X23. Over a semiring the trace is additive, [Trace(a + b)] is
    [Trace(a) + Trace(b)]; and where the product of scalars commutes as well,
    [Trace(a * b)] is [Trace(b * a)], for [a] of shape [N] by [K] and [b] of
    shape [K] by [N]. *)
Theorem Trace_operators
    (T : Type) (ops : Scalar T) (semiring : SemiringScalar T) (lay : Layout)
    (indeterminate : nat → list T) (N K : nat) :
  (∀ n, length (indeterminate n) = n) →
  (∀ a b : list T, well_formed N N a → well_formed N N b →
     ∃ s ta tb, Matrix.operator_add indeterminate N N a b = Some s ∧
       Matrix.Trace lay N a = Some ta ∧ Matrix.Trace lay N b = Some tb ∧
       Matrix.Trace lay N s = Some (add ta tb)) ∧
  (CommutativeScalar T →
   ∀ a b : list T, well_formed N K a → well_formed K N b →
     ∃ ab ba, Matrix.operator_mul lay indeterminate N K N a b = Some ab ∧
       Matrix.operator_mul lay indeterminate K N K b a = Some ba ∧
       Matrix.Trace lay N ab = Matrix.Trace lay K ba).
Proof.
  intros Hind. split.
  - intros a b Ha Hb. eexists (zip_with add a b), _, _.
    pose proof (well_formed_zip_with add N N a b Ha Hb) as Hs.
    unfold Matrix.operator_add. rewrite Matrix_copy_eq by done. simpl.
    rewrite operator_add_assign_eq, !Trace_spec by done.
    split_and!; [done | done | done |]. f_equal.
    fold (sum N (λ i, entry lay N N (zip_with add a b) i i)).
    fold (sum N (λ i, entry lay N N a i i)).
    fold (sum N (λ i, entry lay N N b i i)).
    rewrite <- sum_add. apply sum_ext. intros i Hi.
    by apply entry_operator_call, operator_call_zip_with.
  - intros Hcomm a b Ha Hb.
    destruct (operator_mul_entries lay indeterminate Hind N K N a b)
      as (ab & Hrun_ab & Hwf_ab & Hab); [done | done |].
    destruct (operator_mul_entries lay indeterminate Hind K N K b a)
      as (ba & Hrun_ba & Hwf_ba & Hba); [done | done |].
    exists ab, ba. split_and!; [done | done |].
    rewrite !Trace_spec by done. f_equal.
    fold (sum N (λ i, entry lay N N ab i i)).
    fold (sum K (λ j, entry lay K K ba j j)).
    transitivity (sum N (λ i, sum K (λ j,
      mul (entry lay N K a i j) (entry lay K N b j i)))).
    { apply sum_ext. intros i Hi. by rewrite Hab, dot_sum. }
    rewrite sum_swap. apply sum_ext. intros j Hj.
    rewrite Hba, dot_sum by done. apply sum_ext. intros i Hi.
    apply scalar_mul_comm.
Qed.

Lemma Trace_operators_witness :
  let indeterminate := λ n, replicate n 7%Z in
  let a := [1; 2; 3; 4; 5; 6]%Z in
  let b := [1; 0; 2; -1; 3; 1]%Z in
  (∀ n, length (indeterminate n) = n) ∧
  well_formed 2 3 a ∧ well_formed 3 2 b ∧
  ∃ ab ba, Matrix.operator_mul RowMajor indeterminate 2 3 2 a b = Some ab ∧
    Matrix.operator_mul RowMajor indeterminate 3 2 3 b a = Some ba ∧
    Matrix.Trace RowMajor 2 ab = Matrix.Trace RowMajor 3 ba.
Proof.
  intros indeterminate a b.
  assert (∀ n, length (indeterminate n) = n) as Hind
    by (intros n; apply length_replicate).
  split; [done |]. split; [reflexivity |]. split; [reflexivity |].
  exact (proj2 (Trace_operators Z _ _ RowMajor indeterminate 2 3 Hind)
           _ a b eq_refl eq_refl).
Defined.

(** * Uninitialized storage *)

(** X24. What uninitialized storage holds never reaches a result: the
    matrices returned by [operator *], [Transposed()], [Identity()], the
    copying operators and [RotateFree] are the same for any two contents of
    the storage they start from and for either setting of
    [GS_DISABLE_AUTO_INIT]. *)
Theorem results_determinate
    (T : Type) (ops : Scalar T) (lay : Layout) (auto_init auto_init' : bool)
    (indeterminate indeterminate' : nat → list T) (Rows K Cols : nat)
    (a b c : list T) (k : T) :
  (∀ n, length (indeterminate n) = n) →
  (∀ n, length (indeterminate' n) = n) →
  well_formed Rows K a → well_formed K Cols b → well_formed Rows K c →
  Matrix.operator_mul lay indeterminate Rows K Cols a b
  = Matrix.operator_mul lay indeterminate' Rows K Cols a b ∧
  Matrix.Transposed lay auto_init indeterminate Rows K a
  = Matrix.Transposed lay auto_init' indeterminate' Rows K a ∧
  Matrix.Identity lay auto_init indeterminate K
  = Matrix.Identity lay auto_init' indeterminate' K ∧
  Matrix.operator_add indeterminate Rows K a c
  = Matrix.operator_add indeterminate' Rows K a c ∧
  Matrix.operator_sub indeterminate Rows K a c
  = Matrix.operator_sub indeterminate' Rows K a c ∧
  Matrix.operator_mul_scalar indeterminate Rows K a k
  = Matrix.operator_mul_scalar indeterminate' Rows K a k ∧
  (Rows = K →
   Matrix.operator_mul_assign lay indeterminate K a c
   = Matrix.operator_mul_assign lay indeterminate' K a c ∧
   ∀ (Vec : Type) (Gs_MakeFreeRotation : nat → list T → Vec → T → list T)
     (axis : Vec) (angle : T),
     (∀ id, well_formed K K id →
            well_formed K K (Gs_MakeFreeRotation K id axis angle)) →
     Matrix.RotateFree lay auto_init indeterminate Vec Gs_MakeFreeRotation
       K a axis angle
     = Matrix.RotateFree lay auto_init' indeterminate' Vec
         Gs_MakeFreeRotation K a axis angle).
Proof.
  intros Hind Hind' Ha Hb Hc. split_and!.
  - by apply operator_mul_determinate.
  - by apply Transposed_determinate.
  - by apply Identity_determinate.
  - unfold Matrix.operator_add. by rewrite !Matrix_copy_eq.
  - unfold Matrix.operator_sub. by rewrite !Matrix_copy_eq.
  - unfold Matrix.operator_mul_scalar. by rewrite !Matrix_copy_eq.
  - intros ->.
    assert (∀ rhs, well_formed K K rhs →
      Matrix.operator_mul_assign lay indeterminate K a rhs
      = Matrix.operator_mul_assign lay indeterminate' K a rhs) as Hassign.
    { intros rhs Hrhs. unfold Matrix.operator_mul_assign.
      by rewrite (operator_mul_determinate lay indeterminate indeterminate'). }
    split; [by apply Hassign |].
    intros Vec rot axis angle Hrot. unfold Matrix.RotateFree.
    rewrite (Identity_determinate lay auto_init auto_init' indeterminate
               indeterminate') by done.
    destruct (Identity_spec lay auto_init' indeterminate' Hind' K)
      as (id & -> & Hwf & _).
    simpl. by apply Hassign, Hrot.
Qed.

Lemma results_determinate_witness :
  let indeterminate := λ n, replicate n 7%Z in
  let indeterminate' := λ n, replicate n (-3)%Z in
  let a := [1; 2; 3; 4]%Z in
  let b := [5; 6; 7; 8]%Z in
  (∀ n, length (indeterminate n) = n) ∧
  (∀ n, length (indeterminate' n) = n) ∧
  well_formed 2 2 a ∧ well_formed 2 2 b ∧
  Matrix.operator_mul RowMajor indeterminate 2 2 2 a b
  = Matrix.operator_mul RowMajor indeterminate' 2 2 2 a b ∧
  Matrix.Transposed RowMajor true indeterminate 2 2 a
  = Matrix.Transposed RowMajor false indeterminate' 2 2 a.
Proof.
  intros indeterminate indeterminate' a b.
  assert (∀ n, length (indeterminate n) = n) as Hind
    by (intros n; apply length_replicate).
  assert (∀ n, length (indeterminate' n) = n) as Hind'
    by (intros n; apply length_replicate).
  split; [done |]. split; [done |]. split; [reflexivity |].
  split; [reflexivity |].
  destruct (results_determinate Z _ RowMajor true false indeterminate
              indeterminate' 2 2 2 a b a 0%Z Hind Hind' eq_refl eq_refl
              eq_refl) as (Hmul & Htransposed & _).
  by split.
Defined.

(** X25. [Vector3T::operator *= (const T&)] and [operator /= (const T&)] take
    their scalar by reference and read it in each of their three statements.
    With a scalar that is not a member of the vector they scale every
    component by it, as [v * k] and [v / k] do. With a member of the vector
    itself the components after it see the value the earlier statement left
    there: [v *= v.x] gives [(x*x, y*(x*x), z*(x*x))], [v *= v.y] gives
    [(x*y, y*y, z*(y*y))], [v *= v.z] gives [(x*z, y*z, z*z)], and likewise
    for [/=]; so [v *= v.x] on [(2, 3, 4)] is [(4, 12, 16)] while [v * v.x]
    is [(4, 6, 8)]. *)
Theorem Vector3_scalar_assign_by_reference :
  (∀ (T : Type) (ops : Scalar T) (v : Vector3T.Vector3T T) (k : T),
     let vx := Vector3T.x v in
     let vy := Vector3T.y v in
     let vz := Vector3T.z v in
     Vector3T.operator_mul_assign_scalar v (Vector3T.Elsewhere k)
     = {| Vector3T.x := mul vx k; Vector3T.y := mul vy k;
          Vector3T.z := mul vz k |} ∧
     Vector3T.operator_mul_assign_scalar v (Vector3T.Elsewhere k)
     = Vector3T.operator_mul_scalar v k ∧
     Vector3T.operator_div_assign_scalar v (Vector3T.Elsewhere k)
     = {| Vector3T.x := div vx k; Vector3T.y := div vy k;
          Vector3T.z := div vz k |} ∧
     Vector3T.operator_div_assign_scalar v (Vector3T.Elsewhere k)
     = Vector3T.operator_div_scalar v k ∧
     Vector3T.operator_mul_assign_scalar v
       (Vector3T.Member Vector3T.component_x)
     = {| Vector3T.x := mul vx vx; Vector3T.y := mul vy (mul vx vx);
          Vector3T.z := mul vz (mul vx vx) |} ∧
     Vector3T.operator_mul_assign_scalar v
       (Vector3T.Member Vector3T.component_y)
     = {| Vector3T.x := mul vx vy; Vector3T.y := mul vy vy;
          Vector3T.z := mul vz (mul vy vy) |} ∧
     Vector3T.operator_mul_assign_scalar v
       (Vector3T.Member Vector3T.component_z)
     = {| Vector3T.x := mul vx vz; Vector3T.y := mul vy vz;
          Vector3T.z := mul vz vz |} ∧
     Vector3T.operator_div_assign_scalar v
       (Vector3T.Member Vector3T.component_x)
     = {| Vector3T.x := div vx vx; Vector3T.y := div vy (div vx vx);
          Vector3T.z := div vz (div vx vx) |} ∧
     Vector3T.operator_div_assign_scalar v
       (Vector3T.Member Vector3T.component_y)
     = {| Vector3T.x := div vx vy; Vector3T.y := div vy vy;
          Vector3T.z := div vz (div vy vy) |} ∧
     Vector3T.operator_div_assign_scalar v
       (Vector3T.Member Vector3T.component_z)
     = {| Vector3T.x := div vx vz; Vector3T.y := div vy vz;
          Vector3T.z := div vz vz |}) ∧
  (let v := @Vector3T.Build_Vector3T Z 2%Z 3%Z 4%Z in
   Vector3T.operator_mul_assign_scalar v
     (Vector3T.Member Vector3T.component_x)
   = @Vector3T.Build_Vector3T Z 4%Z 12%Z 16%Z ∧
   Vector3T.operator_mul_scalar v (Vector3T.x v)
   = @Vector3T.Build_Vector3T Z 4%Z 6%Z 8%Z).
Proof.
  split.
  - intros T ops v k vx vy vz. destruct v as [a b c].
    by split_and!.
  - by split.
Qed.
